(** * Bit streams of SPIRV-Tools: source/util/bit_stream.h

    A shallow embedding of the helpers, the zigzag codec and the writer and
    reader classes of [spvutils], followed by the properties that the
    specification states about them.

    Conventions of the embedding:
    - a C++ integer of width [w] is a [Z]; every operation that can leave the
      range of its type is followed by the wrap-around of that type
      ([to_unsigned], [to_signed]);
    - [size_t] is the 64-bit unsigned type, [int] the 32-bit signed one;
    - a failed [assert], a thrown exception and an operation without defined
      result (a shift by the width of its operand or more) is [None] in the
      [option] monad;
    - a "stream" ([std::string] of '0' and '1') is a [list ascii], a sequence
      of raw bits moved through the reader and writer interfaces is a
      [list bool];
    - the members that the header declares and does not define (the variable
      width operations and the members of the word-packed classes) follow
      the specification; the comment of each of them says so. *)

From Stdlib Require Import ZArith Lia Bool Ascii String List.
Import ListNotations.

Local Open Scope Z_scope.

(** ** Machine integers *)

Module MachineInt.

(** Conversion to the unsigned type of [w] bits. *)
Definition to_unsigned (w x : Z) : Z := x mod 2 ^ w.

(** Conversion to the signed (two's complement) type of [w] bits. *)
Definition to_signed (w x : Z) : Z := (x + 2 ^ (w - 1)) mod 2 ^ w - 2 ^ (w - 1).

Definition to_u64 : Z -> Z := to_unsigned 64.
Definition to_s64 : Z -> Z := to_signed 64.
Definition to_size_t : Z -> Z := to_unsigned 64.
Definition to_int : Z -> Z := to_signed 32.

Definition is_unsigned (w x : Z) : Prop := 0 <= x < 2 ^ w.
Definition is_signed (w x : Z) : Prop := - 2 ^ (w - 1) <= x < 2 ^ (w - 1).

Definition SIZE_MAX : Z := 2 ^ 64 - 1.
Definition INT_MAX : Z := 2 ^ 31 - 1.

(** Width at which a shift whose left operand has [w] bits is carried out:
    operands narrower than [int] are promoted to [int]. *)
Definition promoted_width (w : Z) : Z := Z.max w 32.

End MachineInt.
Import MachineInt.

(** ** The error monad: [None] is a failed assertion, an exception or an
    operation without defined result. *)

Definition ret {A : Type} (a : A) : option A := Some a.

Definition bind {A B : Type} (m : option A) (k : A -> option B) : option B :=
  match m with
  | Some a => k a
  | None => None
  end.

Definition assert (b : bool) : option unit := if b then Some tt else None.

Notation "x <- m ;; k" := (bind m (fun x => k))
  (at level 61, m at next level, right associativity).
Notation "m ;;; k" := (bind m (fun _ => k))
  (at level 61, right associativity).

(** ** Conversion helpers *)

(** [template <size_t N> size_t NumBitsToNumWords(size_t num_bits)]:
    [(num_bits + (N - 1)) / N], computed in [size_t]. *)
Definition NumBitsToNumWords (N num_bits : Z) : Z :=
  to_size_t (num_bits + to_size_t (N - 1)) / N.

(** [T(1) << num_bits] for an unsigned type [T] of [w] bits. The shift is
    defined only for a count below the width of the promoted left operand;
    its type is [int] when [T] is narrower than [int] and [T] otherwise. *)
Definition shl_one (w num_bits : Z) : option Z :=
  assert (num_bits <? promoted_width w) ;;;
  ret (if w <? 32 then to_int (Z.shiftl 1 num_bits)
       else to_unsigned w (Z.shiftl 1 num_bits)).

(** [template <typename T> T GetLowerBits(T in, size_t num_bits)]:
    [sizeof(T) * 8 == num_bits ? in : in & T((T(1) << num_bits) - T(1))]. *)
Definition GetLowerBits (w : Z) (in_ num_bits : Z) : option Z :=
  if w =? num_bits then ret in_
  else
    one_shifted <- shl_one w num_bits ;;
    ret (Z.land in_ (to_unsigned w (one_shifted - 1))).

(** ** ZigZag codec *)

(** [uint64_t EncodeZigZag(int64_t val)]: [(val << 1) ^ (val >> 63)].
    Both shifts are done on [int64_t]; the result is converted to
    [uint64_t]. *)
Definition EncodeZigZag (val : Z) : Z :=
  to_u64 (Z.lxor (to_s64 (Z.shiftl val 1)) (Z.shiftr val 63)).

(** [int64_t DecodeZigZag(uint64_t val)]. The subtraction [-1 - (val >> 1)]
    is done in [uint64_t] and converted to [int64_t] on return. *)
Definition DecodeZigZag (val : Z) : Z :=
  if Z.land val 1 =? 1
  then to_s64 (to_u64 (to_u64 (-1) - Z.shiftr val 1))
  else to_s64 (Z.shiftr val 1).

(** [uint64_t EncodeZigZag(int64_t val, size_t block_exponent)]. *)
Definition EncodeZigZagBlock (val block_exponent : Z) : option Z :=
  assert (block_exponent <? 64) ;;;
  let uval := to_u64 (if 0 <=? val then val else to_s64 (to_s64 (- val) - 1)) in
  let block_num :=
    to_u64 (to_u64 (Z.shiftl (Z.shiftr uval block_exponent) 1)
            + (if 0 <=? val then 0 else 1)) in
  pos <- GetLowerBits 64 uval block_exponent ;;
  ret (to_u64 (to_u64 (Z.shiftl block_num block_exponent) + pos)).

(** [int64_t DecodeZigZag(uint64_t val, size_t block_exponent)]. In the
    negative branch [-1LL] is converted to [uint64_t] by the subtraction. *)
Definition DecodeZigZagBlock (val block_exponent : Z) : option Z :=
  assert (block_exponent <? 64) ;;;
  let block_num := Z.shiftr val block_exponent in
  pos <- GetLowerBits 64 val block_exponent ;;
  if Z.land block_num 1 =? 1
  then ret (to_s64 (to_u64 (to_u64 (to_u64 (-1)
              - to_u64 (Z.shiftl (Z.shiftr block_num 1) block_exponent)) - pos)))
  else ret (to_s64 (to_u64 (to_u64 (Z.shiftl (Z.shiftr block_num 1) block_exponent)
                            + pos))).

(** ** Streams and bitsets *)

(** A stream: [std::string] of '0' and '1', read left to right, the first
    bit at the front. *)
Definition Stream : Type := list ascii.

Definition size (str : Stream) : Z := Z.of_nat (length str).

Definition bit_char (b : bool) : ascii := if b then "1"%char else "0"%char.

(** A [std::bitset<N>] with [N <= 64] is the number whose binary digits it
    holds. [std::bitset<N>(unsigned long long)] keeps the low [N] bits. *)
Definition bitset_of_ullong (N val : Z) : Z := to_unsigned N val.

(** [std::bitset<N>::to_string()]: [N] characters, the most significant bit
    first. *)
Definition bitset_to_string (N : Z) (bits : Z) : Stream :=
  map (fun i => bit_char (Z.testbit bits (Z.of_nat i))) (rev (seq 0 (Z.to_nat N))).

(** Reading of binary digits, most significant first; a character other than
    '0' and '1' makes [std::bitset] throw [std::invalid_argument]. *)
Fixpoint bitset_parse (cs : Stream) (acc : Z) : option Z :=
  match cs with
  | [] => ret acc
  | c :: cs' =>
      if Ascii.eqb c "0" then bitset_parse cs' (2 * acc)
      else if Ascii.eqb c "1" then bitset_parse cs' (2 * acc + 1)
      else None
  end.

(** [std::bitset<N>(str, pos, n)]: throws [std::out_of_range] when
    [pos > str.size()]; uses at most [n] characters from [pos] on, and of
    these the first [N]; the last character used is bit 0. *)
Definition bitset_of_string (N : Z) (str : Stream) (pos n : Z) : option Z :=
  assert (pos <=? size str) ;;;
  bitset_parse (firstn (Z.to_nat N) (firstn (Z.to_nat n) (skipn (Z.to_nat pos) str))) 0.

(** [template <typename T> std::string BufferToStream(const std::vector<T>&)]
    for a type [T] of [W] bits: every word is printed by
    [std::bitset<W>::to_string], reversed, and appended. *)
Definition BufferToStream (W : Z) (buffer : list Z) : Stream :=
  flat_map (fun x => rev (bitset_to_string W (bitset_of_ullong W x))) buffer.

(** The first loop of [StreamToBuffer]:
    [for (int index = ...; index >= 0; index -= word_size) buffer.push_back(...)].
    [fuel] bounds the number of iterations; [str] is the reversed string. *)
Fixpoint StreamToBuffer_loop (fuel : nat) (W : Z) (str : Stream)
    (word_size index : Z) (buffer : list Z) : option (list Z) :=
  match fuel with
  | O => ret buffer
  | S fuel' =>
      if 0 <=? index then
        bits <- bitset_of_string W str (to_size_t index) (to_size_t word_size) ;;
        StreamToBuffer_loop fuel' W str word_size (to_int (index - word_size))
          (buffer ++ [to_unsigned W bits])
      else ret buffer
  end.

(** [template <typename T> std::vector<T> StreamToBuffer(std::string str)]
    for a type [T] of [W] bits. [word_size] and [str_length] are [int]s
    obtained by [static_cast<int>]; [suffix_length] is a [size_t]. The call
    of [reserve] changes the capacity only and is left out. Every iteration
    lowers [index] by [word_size] and [index] starts below [str.length()],
    so [str.length() + 1] iterations are enough. *)
Definition StreamToBuffer (W : Z) (str0 : Stream) : option (list Z) :=
  let str := rev str0 in
  let word_size := to_int W in
  let str_length := to_int (size str) in
  buffer <- StreamToBuffer_loop (S (length str)) W str word_size
              (to_int (str_length - word_size)) [] ;;
  let suffix_length := size str mod to_size_t word_size in
  if negb (suffix_length =? 0) then
    bits <- bitset_of_string W str 0 suffix_length ;;
    ret (buffer ++ [to_unsigned W bits])
  else ret buffer.

(** [template <size_t N> std::string PadToWord(std::string&& str)];
    the overload taking [const std::string&] copies its argument and calls
    this one. [N - tail_length] cannot wrap since [tail_length < N]. *)
Definition PadToWord (N : Z) (str : Stream) : Stream :=
  let tail_length := size str mod N in
  if negb (tail_length =? 0)
  then str ++ repeat "0"%char (Z.to_nat (N - tail_length))
  else str.

Definition stream_of_string (s : string) : Stream := list_ascii_of_string s.

(** ** Raw bits *)

(** The low [num_bits] bits of [bits], the lowest first: what a raw write
    transfers ("Writes lower |num_bits| in |bits| to the stream"). *)
Definition lower_bits (bits num_bits : Z) : list bool :=
  map (fun i => Z.testbit bits (Z.of_nat i)) (seq 0 (Z.to_nat num_bits)).

(** The number whose binary digits are [l], the lowest first: what a raw read
    stores in [*bits]. *)
Fixpoint bits_value (l : list bool) : Z :=
  match l with
  | [] => 0
  | b :: l' => Z.b2z b + 2 * bits_value l'
  end.

(** ** The writer and reader interfaces *)

(** [class BitWriterInterface]: the pure virtual members. *)
Class BitWriterInterface (Wr : Type) : Type := {
  (** [virtual void WriteBits(uint64_t bits, size_t num_bits) = 0] *)
  WriteBits : Wr -> Z -> Z -> Wr;
  (** [virtual size_t GetNumBits() const = 0] *)
  GetNumBits : Wr -> Z
}.

(** [size_t BitWriterInterface::GetDataSizeBytes() const] *)
Definition GetDataSizeBytes {Wr : Type} `{BitWriterInterface Wr} (w : Wr) : Z :=
  NumBitsToNumWords 8 (GetNumBits w).

(** [class BitReaderInterface]: the virtual members. [ReadBits r n] is the
    value found in [*bits] after the call (all callers set it to 0 before),
    the returned number of bits and the state after the call. *)
Class BitReaderInterface (Rd : Type) : Type := {
  (** [virtual size_t ReadBits(uint64_t* bits, size_t num_bits) = 0] *)
  ReadBits : Rd -> Z -> Z * Z * Rd;
  (** [virtual bool ReachedEnd() const = 0] *)
  ReachedEnd : Rd -> bool;
  (** [virtual bool OnlyZeroesLeft() const] *)
  OnlyZeroesLeft : Rd -> bool
}.

(** The body that [BitReaderInterface] gives to [OnlyZeroesLeft]:
    [return ReachedEnd();]. A reader that does not override the member is
    declared with this function in the [OnlyZeroesLeft] field. *)
Definition OnlyZeroesLeft_default {Rd : Type} (reached_end : Rd -> bool) (r : Rd) : bool :=
  reached_end r.

(** ** Variable width encoding *)

Section VariableWidth.

(** The header lets the last chunk be cut at the width of the type ("The
    last chunk can be truncated and signal bit omitted, if the entire
    payload ... has already been written"); the specification speaks of a
    C-bit slice for every chunk. [truncate_last] chooses between the two
    readings, and the results below hold for both. *)
Variable truncate_last : bool.

Definition slice_length (W C done : Z) : Z :=
  if truncate_last then Z.min C (W - done) else C.

Section Writer.
Context {Wr : Type} `{BitWriterInterface Wr}.

(** Modelled from the spec: the body of the loop shared by
    [BitWriterInterface::WriteVariableWidthU8/U16/U32/U64], which the
    header only declares. "While bits remain to be emitted, emit the next
    C-bit slice (least-significant first) of the remaining value; after
    emitting a slice, if the number of bits emitted so far has reached W,
    stop (no continuation bit). Otherwise emit a continuation bit: 1 if
    any remaining higher-order bits of the value are non-zero, 0 if none
    remain (last chunk, loop ends)." [val] is the remaining value and
    [emitted] the number of payload bits emitted so far. *)
Fixpoint WriteVariableWidth_loop (fuel : nat) (W C val emitted : Z) (w : Wr) : Wr :=
  match fuel with
  | O => w
  | S fuel' =>
      if emitted <? W then
        let n := slice_length W C emitted in
        let w1 := WriteBits w val n in
        let emitted1 := emitted + n in
        if W <=? emitted1 then w1
        else
          let rest := Z.shiftr val C in
          if rest =? 0 then WriteBits w1 0 1
          else WriteVariableWidth_loop fuel' W C rest emitted1 (WriteBits w1 1 1)
      else w
  end.

(** Modelled from the spec: the unsigned variable width write for a type
    of [W] bits. Every iteration emits [C >= 1] payload bits, so
    [W] iterations are enough. *)
Definition WriteVariableWidthU (W : Z) (val chunk_length : Z) (w : Wr) : Wr :=
  WriteVariableWidth_loop (Z.to_nat W) W chunk_length val 0 w.

Definition WriteVariableWidthU64 := WriteVariableWidthU 64.
Definition WriteVariableWidthU32 := WriteVariableWidthU 32.
Definition WriteVariableWidthU16 := WriteVariableWidthU 16.
Definition WriteVariableWidthU8 := WriteVariableWidthU 8.

(** Modelled from the spec: the signed variable width write, whose body
    is not in the header: "signed callers first zigzag-transform with a
    chosen block exponent, then treat the result as unsigned of the same
    W". *)
Definition WriteVariableWidthS (W : Z) (val chunk_length zigzag_exponent : Z) (w : Wr)
  : option Wr :=
  encoded <- EncodeZigZagBlock val zigzag_exponent ;;
  ret (WriteVariableWidthU W (to_unsigned W encoded) chunk_length w).

Definition WriteVariableWidthS64 := WriteVariableWidthS 64.
Definition WriteVariableWidthS32 := WriteVariableWidthS 32.
Definition WriteVariableWidthS16 := WriteVariableWidthS 16.
Definition WriteVariableWidthS8 := WriteVariableWidthS 8.

End Writer.

Section Reader.
Context {Rd : Type} `{BitReaderInterface Rd}.

(** Modelled from the spec: the body of the loop shared by
    [BitReaderInterface::ReadVariableWidthU8/U16/U32/U64], which the
    header only declares. "While fewer than W bits have been consumed,
    read C bits and OR them, left-shifted into position, into the
    accumulator; if the running consumed-bit count has now reached W,
    decoding succeeds. Otherwise read one continuation bit: 0 => success
    and stop; 1 => continue the loop. If ... a raw bit read returns fewer
    bits than requested, decoding fails." The result is the returned
    [bool], the value of the accumulator and the state of the reader. *)
Fixpoint ReadVariableWidth_loop (fuel : nat) (W C acc consumed : Z) (r : Rd)
  : bool * Z * Rd :=
  match fuel with
  | O => (true, acc, r)
  | S fuel' =>
      if consumed <? W then
        let n := slice_length W C consumed in
        let '(bits, num_read, r1) := ReadBits r n in
        if negb (num_read =? n) then (false, acc, r1)
        else
          let acc1 := Z.lor acc (to_unsigned W (Z.shiftl bits consumed)) in
          let consumed1 := consumed + n in
          if W <=? consumed1 then (true, acc1, r1)
          else
            let '(more_to_come, num_read1, r2) := ReadBits r1 1 in
            if negb (num_read1 =? 1) then (false, acc1, r2)
            else if more_to_come =? 0 then (true, acc1, r2)
            else ReadVariableWidth_loop fuel' W C acc1 consumed1 r2
      else (true, acc, r)
  end.

(** Modelled from the spec: the unsigned variable width read for a type
    of [W] bits. *)
Definition ReadVariableWidthU (W : Z) (chunk_length : Z) (r : Rd) : bool * Z * Rd :=
  ReadVariableWidth_loop (Z.to_nat W) W chunk_length 0 0 r.

Definition ReadVariableWidthU64 := ReadVariableWidthU 64.
Definition ReadVariableWidthU32 := ReadVariableWidthU 32.
Definition ReadVariableWidthU16 := ReadVariableWidthU 16.
Definition ReadVariableWidthU8 := ReadVariableWidthU 8.

(** Modelled from the spec: the signed variable width read, whose body is
    not in the header: the unsigned read of the same width followed by
    the block zigzag decoding. When the unsigned read fails the result is
    failure and no value is produced. *)
Definition ReadVariableWidthS (W : Z) (chunk_length zigzag_exponent : Z) (r : Rd)
  : option (bool * Z * Rd) :=
  let '(ok, encoded, r1) := ReadVariableWidthU W chunk_length r in
  if ok then
    decoded <- DecodeZigZagBlock encoded zigzag_exponent ;;
    ret (true, to_signed W decoded, r1)
  else ret (false, 0, r1).

Definition ReadVariableWidthS64 := ReadVariableWidthS 64.
Definition ReadVariableWidthS32 := ReadVariableWidthS 32.
Definition ReadVariableWidthS16 := ReadVariableWidthS 16.
Definition ReadVariableWidthS8 := ReadVariableWidthS 8.

End Reader.

End VariableWidth.

(** ** A writer and a reader over a plain sequence of bits *)

(** A reference implementation of the writer interface, not one of the
    library: the state is the sequence of the bits written so far. *)
#[global] Instance BitSeqWriter : BitWriterInterface (list bool) := {
  WriteBits w bits num_bits := w ++ lower_bits bits num_bits;
  GetNumBits w := Z.of_nat (length w)
}.

(** A reference implementation of the reader interface, not one of the
    library: the state is the sequence of the bits not read yet.
    [OnlyZeroesLeft] is not overridden. *)
#[global] Instance BitSeqReader : BitReaderInterface (list bool) := {
  ReadBits r num_bits :=
    let got := firstn (Z.to_nat num_bits) r in
    (bits_value got, Z.of_nat (length got), skipn (Z.to_nat num_bits) r);
  ReachedEnd r := match r with [] => true | _ => false end;
  OnlyZeroesLeft := OnlyZeroesLeft_default (fun r => match r with [] => true | _ => false end)
}.

(** A reader around any reader, used to state what happens when a raw read
    comes back short: it records every raw read of the reader it wraps as
    the pair of the number of bits requested and the number of bits
    returned. *)
Definition Traced (Rd : Type) : Type := Rd * list (Z * Z).

#[global] Instance TracedReader {Rd : Type} `{BitReaderInterface Rd}
  : BitReaderInterface (Traced Rd) := {
  ReadBits tr num_bits :=
    let '(bits, num_read, r1) := ReadBits (fst tr) num_bits in
    (bits, num_read, (r1, snd tr ++ [(num_bits, num_read)]));
  ReachedEnd tr := ReachedEnd (fst tr);
  OnlyZeroesLeft tr := OnlyZeroesLeft (fst tr)
}.

(** ** The word-packed writer and reader *)

(** The bits of a buffer of 64-bit words in stream order: bit 0 of a word is
    its first bit. *)
Definition buffer_bits (buffer : list Z) : list bool :=
  flat_map (fun x => lower_bits x 64) buffer.

(** Bit number [i] of a buffer of 64-bit words. *)
Definition buffer_bit (buffer : list Z) (i : Z) : bool :=
  Z.testbit (nth (Z.to_nat (i / 64)) buffer 0) (i mod 64).

(** [buffer[index] |= v], nothing when [index] is outside of the buffer. *)
Fixpoint or_word_at (index : nat) (v : Z) (buffer : list Z) : list Z :=
  match buffer, index with
  | [], _ => []
  | x :: buffer', O => Z.lor x v :: buffer'
  | x :: buffer', S index' => x :: or_word_at index' v buffer'
  end.

(** The bytes of a 64-bit word in the order of a little-endian host, the only
    layout that the library supports. *)
Definition word_bytes (x : Z) : list Z :=
  map (fun i => Z.land (Z.shiftr x (8 * Z.of_nat i)) 255) (seq 0 8).

(** "ceil(a / b)" of the specification, for a positive [b]. *)
Definition ceil_div (a b : Z) : Z := - ((- a) / b).

Module BitWriterWord64.

(** [class BitWriterWord64]: [std::vector<uint64_t> buffer_; size_t end_]. *)
Record t : Type := mk { buffer_ : list Z; end_ : Z }.

(** Modelled from the spec: the constructor, whose body is not in the
    header: "a writer is created empty (optionally with a reserved word
    capacity)". *)
Definition empty : t := {| buffer_ := []; end_ := 0 |}.

(** Modelled from the spec: [BitWriterWord64::WriteBits], declared in the
    header and defined elsewhere. "Mask [bits] to its low n bits; place
    them starting at bit offset [end] within the current/next word,
    splitting across two adjacent words if [end]'s position within the last
    word plus n exceeds the word width - lazily appending a new
    zero-initialized word when the buffer is exhausted; advance
    [end += n]." *)
Definition WriteBits (w : t) (bits num_bits : Z) : t :=
  let bits := Z.land bits (Z.ones num_bits) in
  let index := Z.to_nat (end_ w / 64) in
  let offset := end_ w mod 64 in
  let buffer1 :=
    if 64 * Z.of_nat (length (buffer_ w)) <? end_ w + num_bits
    then buffer_ w ++ [0] else buffer_ w in
  let buffer2 := or_word_at index (to_u64 (Z.shiftl bits offset)) buffer1 in
  let buffer3 :=
    if 64 <? offset + num_bits
    then or_word_at (S index) (Z.shiftr bits (64 - offset)) buffer2
    else buffer2 in
  {| buffer_ := buffer3; end_ := end_ w + num_bits |}.

(** [size_t GetNumBits() const override { return end_; }] *)
Definition GetNumBits (w : t) : Z := end_ w.

#[global] Instance interface : BitWriterInterface t := {
  WriteBits := WriteBits;
  GetNumBits := GetNumBits
}.

(** [const uint8_t* GetData() const override]: the words of the buffer seen
    as bytes. *)
Definition GetData (w : t) : list Z := flat_map word_bytes (buffer_ w).

(** [std::vector<uint8_t> GetDataCopy() const override]:
    [std::vector<uint8_t>(GetData(), GetData() + GetDataSizeBytes())]. The
    range has to lie inside of the array of words. *)
Definition GetDataCopy (w : t) : option (list Z) :=
  assert (GetDataSizeBytes w <=? Z.of_nat (length (GetData w))) ;;;
  ret (firstn (Z.to_nat (GetDataSizeBytes w)) (GetData w)).

(** [std::string GetStreamPadded64() const] *)
Definition GetStreamPadded64 (w : t) : Stream := BufferToStream 64 (buffer_ w).

(** The states that a writer can be in: those that a sequence of raw
    writes of at most 64 bits each reaches from the empty writer. *)
Inductive reachable : t -> Prop :=
| reachable_empty : reachable empty
| reachable_write w bits num_bits :
    reachable w -> 0 <= num_bits <= 64 -> reachable (WriteBits w bits num_bits).

(** The number of words follows the number of bits: the last word is the
    one that holds bit [end_ - 1]. *)
Definition sized (w : t) : Prop :=
  0 <= end_ w /\ Z.of_nat (length (buffer_ w)) = ceil_div (end_ w) 64.

(** The invariant of the writer: "unused high bits of the partial word are
    implicitly zero". *)
Definition valid (w : t) : Prop :=
  sized w /\ forall i, end_ w <= i -> buffer_bit (buffer_ w) i = false.

(** The bits written so far: the first [end_] bits of the buffer. *)
Definition written (w : t) : list bool :=
  firstn (Z.to_nat (end_ w)) (buffer_bits (buffer_ w)).

End BitWriterWord64.

Module BitReaderWord64.

(** [class BitReaderWord64]: [const std::vector<uint64_t> buffer_;
    size_t pos_]. *)
Record t : Type := mk { buffer_ : list Z; pos_ : Z }.

(** "capacity = word_count x word_bit_width" *)
Definition capacity (r : t) : Z := 64 * Z.of_nat (length (buffer_ r)).

(** Modelled from the spec: the constructor that takes the buffer of
    words, whose body is not in the header. *)
Definition of_words (buffer : list Z) : t := {| buffer_ := buffer; pos_ := 0 |}.

(** Modelled from the spec: [BitReaderWord64::ReachedEnd], declared in the
    header and defined elsewhere: "ReachedEnd() <=> position >= capacity
    (hard EOF)". *)
Definition ReachedEnd (r : t) : bool := capacity r <=? pos_ r.

(** Modelled from the spec: [BitReaderWord64::OnlyZeroesLeft], declared in
    the header and defined elsewhere. The spec fixes no algorithm: the
    member "returns true whenever ReachedEnd() is true, and may
    additionally return true when all remaining bits are zero"; the header
    speaks of "nearing" the end. The model answers [true] at the end and,
    inside of the last word, when the rest of that word is zero; before the
    last word it answers [false]. *)
Definition OnlyZeroesLeft (r : t) : bool :=
  if ReachedEnd r then true
  else
    let index := pos_ r / 64 in
    if index <? Z.of_nat (length (buffer_ r)) - 1 then false
    else
      let offset := pos_ r mod 64 in
      let remaining_bits := Z.shiftr (nth (Z.to_nat index) (buffer_ r) 0) offset in
      remaining_bits =? 0.

(** Modelled from the spec: [BitReaderWord64::ReadBits], declared in the
    header and defined elsewhere. "ReadBits(n) returns the number of bits
    actually produced (0..n): it reads fewer than n only when fewer than n
    bits remain before capacity, and it must never read past the buffer's
    total capacity." The bits produced are those of the current word from
    the offset of the position on, continued by the low bits of the next
    word. *)
Definition ReadBits (r : t) (num_bits : Z) : Z * Z * t :=
  let num_read := Z.max 0 (Z.min num_bits (capacity r - pos_ r)) in
  let index := Z.to_nat (pos_ r / 64) in
  let offset := pos_ r mod 64 in
  let low := Z.shiftr (nth index (buffer_ r) 0) offset in
  let high := to_u64 (Z.shiftl (nth (S index) (buffer_ r) 0) (64 - offset)) in
  (Z.land (Z.lor low high) (Z.ones num_read), num_read,
   {| buffer_ := buffer_ r; pos_ := pos_ r + num_read |}).

#[global] Instance interface : BitReaderInterface t := {
  ReadBits := ReadBits;
  ReachedEnd := ReachedEnd;
  OnlyZeroesLeft := OnlyZeroesLeft
}.

(** A bit that is not read yet: bit [i] of the buffer with
    [pos_ <= i < capacity]. *)
Definition unread_bit (r : t) (i : Z) : bool := buffer_bit (buffer_ r) i.

(** The invariant of the reader: "0 <= position <= capacity", over words of
    64 bits. *)
Definition valid (r : t) : Prop :=
  0 <= pos_ r <= capacity r /\ Forall (is_unsigned 64) (buffer_ r).

(** The bits not read yet: those of the buffer from [pos_] on. *)
Definition unread (r : t) : list bool :=
  skipn (Z.to_nat (pos_ r)) (buffer_bits (buffer_ r)).

End BitReaderWord64.

(** A reader over a buffer of words that keeps the body which
    [BitReaderInterface] gives to [OnlyZeroesLeft]. *)
Definition BitReaderWord64_default : BitReaderInterface BitReaderWord64.t := {|
  ReadBits := BitReaderWord64.ReadBits;
  ReachedEnd := BitReaderWord64.ReachedEnd;
  OnlyZeroesLeft := OnlyZeroesLeft_default BitReaderWord64.ReachedEnd
|}.

(** ** The contract of the raw operations *)

(** What the header asks of [WriteBits]: "Writes lower |num_bits| in |bits|
    to the stream. |num_bits| must be no greater than 64." [written w] is
    the sequence of the bits written so far and [valid] an invariant of the
    implementation. *)
Class BitWriterLaws (Wr : Type) `{BitWriterInterface Wr}
    (valid : Wr -> Prop) (written : Wr -> list bool) : Prop := {
  WriteBits_valid : forall w bits num_bits,
    valid w -> 0 <= num_bits <= 64 -> valid (WriteBits w bits num_bits);
  WriteBits_written : forall w bits num_bits,
    valid w -> 0 <= num_bits <= 64 ->
    written (WriteBits w bits num_bits) = written w ++ lower_bits bits num_bits
}.

(** What the header asks of [ReadBits]: "Reads |num_bits| from the stream,
    stores them in |bits|. Returns number of read bits. |num_bits| must be
    no greater than 64." [unread r] is the sequence of the bits not read
    yet. *)
Class BitReaderLaws (Rd : Type) `{BitReaderInterface Rd}
    (valid : Rd -> Prop) (unread : Rd -> list bool) : Prop := {
  ReadBits_unread : forall r num_bits,
    valid r -> 0 <= num_bits <= 64 ->
    exists r',
      ReadBits r num_bits
      = (bits_value (firstn (Z.to_nat num_bits) (unread r)),
         Z.of_nat (length (firstn (Z.to_nat num_bits) (unread r))), r')
      /\ valid r'
      /\ unread r' = skipn (Z.to_nat num_bits) (unread r)
}.

(** A raw read that returned fewer bits than it was asked for, as an entry
    of the record of a traced reader. *)
Definition short_read (entry : Z * Z) : Prop := snd entry < fst entry.

(** A raw read that returned as many bits as it was asked for. *)
Definition full_read (entry : Z * Z) : Prop := snd entry = fst entry.

(** ** Streams of single values and the stream members of the interfaces *)

(** The characters that a stream is made of. *)
Definition is_bit_char (c : ascii) : bool := Ascii.eqb c "0" || Ascii.eqb c "1".

Definition valid_stream (str : Stream) : bool := forallb is_bit_char str.

(** The bit that a character of a stream stands for. *)
Definition char_bit (c : ascii) : bool := Ascii.eqb c "1".

(** [std::bitset<N>(str)], with the defaults [pos = 0] and [n = npos]: the
    characters used are those of the whole string. *)
Definition bitset_of_whole_string (N : Z) (str : Stream) : option Z :=
  bitset_of_string N str 0 (size str).

(** [std::bitset<N>::to_ullong()]: throws [std::overflow_error] when the
    value does not fit [unsigned long long]. *)
Definition bitset_to_ullong (bits : Z) : option Z :=
  assert (bits <? 2 ^ 64) ;;; ret bits.

(** [std::string::substr(pos)]: throws [std::out_of_range] when
    [pos > size()]. *)
Definition substr_from (str : Stream) (pos : Z) : option Stream :=
  assert (pos <=? size str) ;;; ret (skipn (Z.to_nat pos) str).

(** [template <size_t N> std::bitset<N> StreamToBitset(std::string str)] *)
Definition StreamToBitset (N : Z) (str : Stream) : option Z :=
  bitset_of_whole_string N (rev str).

(** [template <size_t N> std::string BitsetToStream(const std::bitset<N>& bits,
    size_t num_bits = N)]: [bits.to_string().substr(N - num_bits)], reversed;
    [N - num_bits] is computed in [size_t]. *)
Definition BitsetToStream (N bits num_bits : Z) : option Stream :=
  str <- substr_from (bitset_to_string N bits) (to_size_t (N - num_bits)) ;;
  ret (rev str).

(** [uint64_t StreamToBits(std::string str)] *)
Definition StreamToBits (str : Stream) : option Z :=
  bits <- bitset_of_whole_string 64 (rev str) ;;
  bitset_to_ullong bits.

(** [std::string BitsToStream(uint64_t bits, size_t num_bits = 64)] *)
Definition BitsToStream (bits num_bits : Z) : option Stream :=
  BitsetToStream 64 (bitset_of_ullong 64 bits) num_bits.

(** [virtual void BitWriterInterface::WriteStream(const std::string& bits)]:
    [WriteBits(StreamToBits(bits), bits.length())]. *)
Definition WriteStream {Wr : Type} `{BitWriterInterface Wr} (w : Wr) (bits : Stream)
  : option Wr :=
  value <- StreamToBits bits ;;
  ret (WriteBits w value (size bits)).

(** [template <size_t N> void BitWriterInterface::WriteBitset(
    const std::bitset<N>& bits, size_t num_bits = N)]:
    [WriteBits(bits.to_ullong(), num_bits)]. *)
Definition WriteBitset {Wr : Type} `{BitWriterInterface Wr} (w : Wr) (bits num_bits : Z)
  : option Wr :=
  value <- bitset_to_ullong bits ;;
  ret (WriteBits w value num_bits).

(** [template <size_t N> size_t BitReaderInterface::ReadBitset(
    std::bitset<N>* bits, size_t num_bits = N)]. [before] is the value of
    [*bits] before the call; the result is the value of [*bits] after it, the
    returned number of bits and the state of the reader. *)
Definition ReadBitset {Rd : Type} `{BitReaderInterface Rd} (N : Z) (r : Rd)
    (before num_bits : Z) : Z * Z * Rd :=
  let '(val, num_read, r1) := ReadBits r num_bits in
  (if negb (num_read =? 0) then bitset_of_ullong N val else before, num_read, r1).

(** [std::string BitReaderInterface::ReadStream(size_t num_bits)] *)
Definition ReadStream {Rd : Type} `{BitReaderInterface Rd} (r : Rd) (num_bits : Z)
  : option (Stream * Rd) :=
  let '(bits, num_read, r1) := ReadBits r num_bits in
  str <- BitsToStream bits num_read ;;
  ret (str, r1).

(** The words that [StreamToBuffer] makes of the first [k] groups of [W]
    characters of a stream. *)
Fixpoint stream_words (W : Z) (k : nat) (str : Stream) : option (list Z) :=
  match k with
  | O => ret []
  | S k' =>
      bits <- bitset_parse (rev (firstn (Z.to_nat W) str)) 0 ;;
      words <- stream_words W k' (skipn (Z.to_nat W) str) ;;
      ret (to_unsigned W bits :: words)
  end.

(** ** Notions of the specification *)

(** The magnitude and the sign bit that the block encoding works with. *)
Definition magnitude (v : Z) : Z := if 0 <=? v then v else - v - 1.
Definition sign_bit (v : Z) : Z := if 0 <=? v then 0 else 1.

(** The block zigzag encoding in the words of the specification, on
    mathematical integers: "let mag = v>=0 ? v : (-v - 1).
    block_num = (mag >> k) << 1 | (v<0 ? 1 : 0). pos = mag masked to k low
    bits. encode = (block_num << k) + pos." *)
Definition EncodeZigZagBlock_spec (v k : Z) : Z :=
  let mag := if 0 <=? v then v else - v - 1 in
  let block_num := Z.lor (Z.shiftl (Z.shiftr mag k) 1) (if v <? 0 then 1 else 0) in
  let pos := Z.land mag (Z.ones k) in
  Z.shiftl block_num k + pos.

(** The block zigzag decoding in the words of the specification, on
    mathematical integers: "extract block_num = encoded >> k, pos = encoded
    masked to k bits; if block_num is odd, result is
    -1 - ((block_num>>1)<<k) - pos, else ((block_num>>1)<<k) + pos." *)
Definition DecodeZigZagBlock_spec (encoded k : Z) : Z :=
  let block_num := Z.shiftr encoded k in
  let pos := Z.land encoded (Z.ones k) in
  if Z.odd block_num
  then -1 - Z.shiftl (Z.shiftr block_num 1) k - pos
  else Z.shiftl (Z.shiftr block_num 1) k + pos.

Definition bits_of_stream (s : string) : list bool :=
  map (fun c => Ascii.eqb c "1") (list_ascii_of_string s).

Example PadToWord_scenario :
  PadToWord 8 (stream_of_string "101") = stream_of_string "10100000".
Proof. reflexivity. Qed.

Example BufferToStream_ex :
  BufferToStream 8 [1; 130] = stream_of_string "1000000001000001".
Proof. reflexivity. Qed.

Example StreamToBuffer_ex :
  StreamToBuffer 8 (stream_of_string "100000000100000111") = Some [1; 130; 3].
Proof. reflexivity. Qed.

Example WriteVariableWidthU64_255_chunk_4 :
  WriteVariableWidthU64 true 255 4 [] = bits_of_stream "1111111110"
  /\ WriteVariableWidthU64 false 255 4 [] = bits_of_stream "1111111110".
Proof. split; reflexivity. Qed.

Example WriteVariableWidthU8_255_chunk_4 :
  WriteVariableWidthU8 true 255 4 [] = bits_of_stream "111111111"
  /\ WriteVariableWidthU8 false 255 4 [] = bits_of_stream "111111111".
Proof. split; reflexivity. Qed.

Example ReadVariableWidthU8_255_chunk_4 :
  ReadVariableWidthU8 true 4 (bits_of_stream "11111111101") = (true, 255, [false; true]).
Proof. reflexivity. Qed.

Example WriteVariableWidthU8_chunk_3 :
  WriteVariableWidthU8 true 255 3 [] = bits_of_stream "1111111111"
  /\ WriteVariableWidthU8 false 255 3 [] = bits_of_stream "11111111110".
Proof. split; reflexivity. Qed.

Example BitWriterWord64_255_chunk_4 :
  BitWriterWord64.GetStreamPadded64
    (WriteVariableWidthU64 true 255 4 BitWriterWord64.empty)
  = PadToWord 64 (stream_of_string "1111111110").
Proof. vm_compute; reflexivity. Qed.

Example BitWriterWord64_across_words :
  let w := WriteVariableWidthU16 true 1000 5 (WriteBits BitWriterWord64.empty 5 62) in
  w = BitWriterWord64.mk [5; 506] 74
  /\ BitWriterWord64.GetDataCopy w = Some [5; 0; 0; 0; 0; 0; 0; 0; 250; 1]
  /\ ReadVariableWidthU16 true 5 (BitReaderWord64.mk [5; 506] 62)
     = (true, 1000, BitReaderWord64.mk [5; 506] 74).
Proof. vm_compute; repeat split. Qed.

Example StreamToBits_first_bit_lowest :
  StreamToBits (stream_of_string "01") = Some 2
  /\ BitsToStream 2 2 = Some (stream_of_string "01")
  /\ BitsToStream 5 65 = None
  /\ StreamToBits (stream_of_string "0a1") = None.
Proof. repeat split. Qed.

Example WriteStream_ReadStream_ex :
  WriteStream [true] (stream_of_string "0110") = Some [true; false; true; true; false]
  /\ ReadStream [true; false; true] 2 = Some (stream_of_string "10", [true])
  /\ ReadStream [true; false; true] 5 = Some (stream_of_string "101", []).
Proof. repeat split. Qed.

Example StreamToBuffer_not_padded :
  StreamToBuffer 8 (stream_of_string "1100000011") = Some [3; 3]
  /\ BufferToStream 8 [3; 3] = PadToWord 8 (stream_of_string "1100000011").
Proof. split; reflexivity. Qed.

(** * Properties *)

(** ** Machine integers *)

Lemma pow2_pos (n : Z) : 0 <= n -> 0 < 2 ^ n.
Proof. intros; apply Z.pow_pos_nonneg; lia. Qed.

Lemma to_unsigned_small (w x : Z) : 0 <= x < 2 ^ w -> to_unsigned w x = x.
Proof. intros; unfold to_unsigned; apply Z.mod_small; assumption. Qed.

Lemma to_unsigned_range (w x : Z) : 0 <= w -> 0 <= to_unsigned w x < 2 ^ w.
Proof. intros; unfold to_unsigned; apply Z.mod_pos_bound, pow2_pos; assumption. Qed.

Lemma to_u64_small (x : Z) : 0 <= x < 2 ^ 64 -> to_u64 x = x.
Proof. apply to_unsigned_small. Qed.

Lemma to_s64_small (x : Z) : - 2 ^ 63 <= x < 2 ^ 63 -> to_s64 x = x.
Proof.
  intros Hx; unfold to_s64, to_signed.
  change (64 - 1) with 63.
  rewrite Z.mod_small; lia.
Qed.

Lemma to_size_t_small (x : Z) : 0 <= x <= SIZE_MAX -> to_size_t x = x.
Proof. unfold SIZE_MAX; intros; apply to_unsigned_small; lia. Qed.

(** ** NumBitsToNumWords and GetDataSizeBytes *)

Lemma ceil_div_spec (a b : Z) :
  0 < b -> b * (ceil_div a b - 1) < a <= b * ceil_div a b.
Proof.
  intros Hb; unfold ceil_div.
  pose proof (Z.div_mod (- a) b ltac:(lia)).
  pose proof (Z.mod_pos_bound (- a) b Hb).
  lia.
Qed.

Lemma ceil_div_add (a b : Z) : 0 < b -> ceil_div a b = (a + (b - 1)) / b.
Proof.
  intros Hb.
  pose proof (ceil_div_spec a b Hb).
  apply Z.div_unique with (r := a + (b - 1) - b * ceil_div a b); lia.
Qed.

Lemma NumBitsToNumWords_no_wrap (N bits : Z) :
  1 <= N -> 0 <= bits -> bits + (N - 1) <= SIZE_MAX ->
  NumBitsToNumWords N bits = ceil_div bits N.
Proof.
  intros HN Hbits Hmax; unfold NumBitsToNumWords.
  rewrite (to_size_t_small (N - 1)) by lia.
  rewrite to_size_t_small by lia.
  rewrite ceil_div_add by lia; reflexivity.
Qed.

Module BitWriterWord64Facts.
Import BitWriterWord64.

Lemma or_word_at_length (index : nat) (v : Z) (buffer : list Z) :
  length (or_word_at index v buffer) = length buffer.
Proof.
  revert index; induction buffer as [|x buffer IH]; intros [|index]; simpl; auto.
Qed.

Lemma WriteBits_sized (w : t) (bits n : Z) :
  sized w -> 0 <= n <= 64 -> sized (WriteBits w bits n).
Proof.
  intros [Hend Hlen] Hn.
  unfold sized, WriteBits; cbn [end_ buffer_].
  split; [lia|].
  pose proof (ceil_div_spec (end_ w) 64 ltac:(lia)) as Hc.
  pose proof (ceil_div_spec (end_ w + n) 64 ltac:(lia)) as Hc'.
  pose proof (Z.mod_pos_bound (end_ w) 64 ltac:(lia)) as Hoff.
  pose proof (Z.div_mod (end_ w) 64 ltac:(lia)) as Hdm.
  destruct (64 <? end_ w mod 64 + n);
    rewrite ?or_word_at_length;
    destruct (Z.ltb_spec (64 * Z.of_nat (length (buffer_ w))) (end_ w + n));
    rewrite ?length_app; simpl length; lia.
Qed.

Lemma reachable_sized (w : t) : reachable w -> sized w.
Proof.
  induction 1 as [|w bits n _ IH Hn].
  - split; simpl; [lia | reflexivity].
  - apply WriteBits_sized; assumption.
Qed.

Lemma word_bytes_length (x : Z) : length (word_bytes x) = 8%nat.
Proof. reflexivity. Qed.

Lemma GetData_length (w : t) :
  Z.of_nat (length (GetData w)) = 8 * Z.of_nat (length (buffer_ w)).
Proof.
  unfold GetData; induction (buffer_ w) as [|x l IH]; [reflexivity|].
  cbn [flat_map]; rewrite length_app, word_bytes_length.
  simpl length in *; lia.
Qed.

End BitWriterWord64Facts.

(** X17: when [bits + (N - 1)] does not exceed the largest [size_t],
    [NumBitsToNumWords<N>(bits)] is [ceil(bits / N)] for every [N >= 1]; for
    every writer state [w] reached by raw writes, with [b + 7] not above the
    largest [size_t] for the number [b] of bits written, [GetDataSizeBytes()]
    is [ceil(b / 8)], and the copy of the data holds exactly that many bytes
    of the array of words. *)
Theorem GetDataSizeBytes_ceil (N bits : Z) (w : BitWriterWord64.t) :
  1 <= N -> 0 <= bits -> bits + (N - 1) <= SIZE_MAX ->
  BitWriterWord64.reachable w -> GetNumBits w + 7 <= SIZE_MAX ->
  NumBitsToNumWords N bits = ceil_div bits N
  /\ GetDataSizeBytes w = ceil_div (GetNumBits w) 8
  /\ exists bytes,
       BitWriterWord64.GetDataCopy w = Some bytes
       /\ Z.of_nat (length bytes) = ceil_div (GetNumBits w) 8
       /\ bytes = firstn (length bytes) (BitWriterWord64.GetData w).
Proof.
  intros HN Hbits Hmax Hreach Hw.
  destruct (BitWriterWord64Facts.reachable_sized w Hreach) as [Hend Hlen].
  assert (Hsize : GetDataSizeBytes w = ceil_div (GetNumBits w) 8).
  { unfold GetDataSizeBytes. apply NumBitsToNumWords_no_wrap; try lia. exact Hend. }
  split; [apply NumBitsToNumWords_no_wrap; assumption|].
  split; [exact Hsize|].
  pose proof (ceil_div_spec (BitWriterWord64.end_ w) 64 ltac:(lia)) as H64.
  pose proof (ceil_div_spec (BitWriterWord64.end_ w) 8 ltac:(lia)) as H8.
  pose proof (BitWriterWord64Facts.GetData_length w) as HD.
  change (GetNumBits w) with (BitWriterWord64.end_ w) in *.
  assert (Hle : GetDataSizeBytes w <= Z.of_nat (length (BitWriterWord64.GetData w))).
  { rewrite Hsize, HD, Hlen. lia. }
  unfold BitWriterWord64.GetDataCopy.
  destruct (Z.leb_spec (GetDataSizeBytes w) (Z.of_nat (length (BitWriterWord64.GetData w))));
    [|lia].
  cbn [assert bind ret].
  eexists; split; [reflexivity|].
  rewrite length_firstn.
  assert (Hmin : Nat.min (Z.to_nat (GetDataSizeBytes w)) (length (BitWriterWord64.GetData w))
                 = Z.to_nat (GetDataSizeBytes w)) by lia.
  rewrite Hmin, Z2Nat.id by lia.
  split; [exact Hsize | reflexivity].
Qed.

Lemma GetDataSizeBytes_ceil_witness :
  NumBitsToNumWords 8 9 = ceil_div 9 8
  /\ GetDataSizeBytes (BitWriterWord64.WriteBits BitWriterWord64.empty 5 9) = 2.
Proof.
  pose (w := BitWriterWord64.WriteBits BitWriterWord64.empty 5 9).
  assert (Hr : BitWriterWord64.reachable w).
  { apply BitWriterWord64.reachable_write; [apply BitWriterWord64.reachable_empty | lia]. }
  destruct (GetDataSizeBytes_ceil 8 9 w) as [H1 [H2 _]];
    [lia | lia | vm_compute; discriminate | exact Hr | vm_compute; discriminate |].
  split; [exact H1 | exact H2].
Defined.

(** The word-packed writer comes to a number of bits at which the addition
    of [GetDataSizeBytes] wraps only with 2^58 words or more in its buffer. *)
Lemma GetDataSizeBytes_wrap_needs_words (w : BitWriterWord64.t) :
  BitWriterWord64.sized w -> SIZE_MAX < GetNumBits w + 7 ->
  2 ^ 58 <= Z.of_nat (length (BitWriterWord64.buffer_ w)).
Proof.
  intros [Hend Hlen] Hwrap.
  change (GetNumBits w) with (BitWriterWord64.end_ w) in Hwrap.
  pose proof (ceil_div_spec (BitWriterWord64.end_ w) 64 ltac:(lia)) as Hc.
  rewrite Hlen.
  unfold SIZE_MAX in Hwrap.
  change (2 ^ 64) with 18446744073709551616 in Hwrap.
  change (2 ^ 58) with 288230376151711744.
  lia.
Qed.


(** ** GetLowerBits *)

Lemma shl_one_defined (w n : Z) :
  0 <= n < w -> shl_one w n = Some (2 ^ n).
Proof.
  intros Hn; unfold shl_one, promoted_width.
  destruct (Z.ltb_spec n (Z.max w 32)); [|lia].
  cbn [assert bind ret].
  rewrite Z.shiftl_1_l.
  pose proof (pow2_pos n ltac:(lia)) as Hpos.
  destruct (Z.ltb_spec w 32).
  - assert (2 ^ n < 2 ^ 31) by (apply Z.pow_lt_mono_r; lia).
    unfold to_int, to_signed; change (32 - 1) with 31.
    change (2 ^ 31) with 2147483648 in *; change (2 ^ 32) with 4294967296.
    rewrite Z.mod_small by lia.
    apply f_equal; lia.
  - rewrite to_unsigned_small; [reflexivity|].
    split; [lia | apply Z.pow_lt_mono_r; lia].
Qed.

Lemma GetLowerBits_full (w x : Z) : GetLowerBits w x w = Some x.
Proof. unfold GetLowerBits; rewrite Z.eqb_refl; reflexivity. Qed.

Lemma GetLowerBits_below (w x n : Z) :
  0 <= n < w -> GetLowerBits w x n = Some (x mod 2 ^ n).
Proof.
  intros Hn; unfold GetLowerBits.
  destruct (Z.eqb_spec w n); [lia|].
  rewrite shl_one_defined by assumption.
  cbn [bind ret].
  assert (Hp : 0 < 2 ^ n < 2 ^ w).
  { split; [apply pow2_pos; lia | apply Z.pow_lt_mono_r; lia]. }
  rewrite to_unsigned_small by lia.
  change (2 ^ n - 1) with (Z.pred (2 ^ n)).
  rewrite <- Z.ones_equiv, Z.land_ones by lia.
  reflexivity.
Qed.

(** C5: for an unsigned type of 8, 16, 32 or 64 bits, [GetLowerBits(x, n)]
    has a defined result for every [n] up to the width of the type (no shift
    by that width or more is performed); with [n] the width the result is
    [x]; with a smaller [n] the result has the [n] lowest bits of [x] and
    zero in all other bits. *)
Theorem GetLowerBits_correct (w x n : Z) :
  In w [8; 16; 32; 64] -> 0 <= x < 2 ^ w -> 0 <= n <= w ->
  exists r,
    GetLowerBits w x n = Some r
    /\ (n = w -> r = x)
    /\ (n < w -> forall i, 0 <= i ->
          Z.testbit r i = if i <? n then Z.testbit x i else false).
Proof.
  intros Hw Hx Hn.
  destruct (Z.eq_dec n w) as [->|Hne].
  - exists x; split; [apply GetLowerBits_full|].
    split; [reflexivity | lia].
  - exists (x mod 2 ^ n); split; [apply GetLowerBits_below; lia|].
    split; [lia|].
    intros _ i Hi.
    destruct (Z.ltb_spec i n).
    + apply Z.mod_pow2_bits_low; lia.
    + apply Z.mod_pow2_bits_high; lia.
Qed.

Lemma GetLowerBits_correct_witness :
  exists r, GetLowerBits 8 255 3 = Some r /\ r = 7.
Proof.
  destruct (GetLowerBits_correct 8 255 3) as [r [Hr _]];
    [simpl; tauto | lia | lia |].
  exists r; split; [exact Hr|].
  vm_compute in Hr; congruence.
Defined.

(** Without the comparison with the width the mask of a 64-bit value would
    need a shift by 64, which has no defined result. *)
Lemma shl_one_full_width_undefined : shl_one 64 64 = None /\ shl_one 32 32 = None.
Proof. split; reflexivity. Qed.

(** ** PadToWord *)

Lemma size_app (s t : Stream) : size (s ++ t) = size s + size t.
Proof. unfold size; rewrite length_app; lia. Qed.

Lemma size_repeat (c : ascii) (k : nat) : size (repeat c k) = Z.of_nat k.
Proof. unfold size; rewrite repeat_length; reflexivity. Qed.

(** C7: for every string and every [N >= 1], [PadToWord<N>] returns the
    string followed by fewer than [N] characters '0' and nothing else, the
    length of the result is a multiple of [N]; [PadToWord<8>("101")] is
    ["10100000"]. *)
Theorem PadToWord_appends_zeroes (N : Z) (s : Stream) :
  1 <= N ->
  (exists k : nat,
      PadToWord N s = s ++ repeat "0"%char k
      /\ Z.of_nat k < N
      /\ size (PadToWord N s) mod N = 0
      /\ (size s mod N = 0 -> k = 0%nat))
  /\ firstn (length s) (PadToWord N s) = s
  /\ PadToWord 8 (stream_of_string "101") = stream_of_string "10100000".
Proof.
  intros HN.
  assert (Hex : exists k : nat,
      PadToWord N s = s ++ repeat "0"%char k
      /\ Z.of_nat k < N
      /\ size (PadToWord N s) mod N = 0
      /\ (size s mod N = 0 -> k = 0%nat)).
  { unfold PadToWord.
    pose proof (Z.mod_pos_bound (size s) N ltac:(lia)) as Hb.
    destruct (Z.eqb_spec (size s mod N) 0) as [E|E]; cbn [negb].
    - exists 0%nat; simpl; rewrite app_nil_r; repeat split; auto; lia.
    - exists (Z.to_nat (N - size s mod N)).
      split; [reflexivity|].
      split; [lia|].
      split; [|intros; lia].
      rewrite size_app, size_repeat, Z2Nat.id by lia.
      rewrite (Z.div_mod (size s) N) at 1 by lia.
      replace (N * (size s / N) + size s mod N + (N - size s mod N))
        with ((size s / N + 1) * N) by lia.
      apply Z.mod_mul; lia. }
  split; [exact Hex|].
  split; [|reflexivity].
  destruct Hex as [k [-> _]].
  rewrite firstn_app, Nat.sub_diag, firstn_all; simpl; apply app_nil_r.
Qed.

Lemma PadToWord_appends_zeroes_witness :
  firstn 3 (PadToWord 8 (stream_of_string "101")) = stream_of_string "101".
Proof.
  apply (PadToWord_appends_zeroes 8 (stream_of_string "101")); lia.
Defined.

(** ** ZigZag codec *)

(** Wrap-around of the 64-bit types, as linear arithmetic. *)
Ltac wrap64 :=
  unfold to_s64, to_u64, to_signed, to_unsigned in *;
  change (64 - 1) with 63 in *;
  change (2 ^ 64) with 18446744073709551616 in *;
  change (2 ^ 63) with 9223372036854775808 in *;
  Z.div_mod_to_equations; lia.

Lemma is_signed_64 (v : Z) :
  is_signed 64 v <-> - 9223372036854775808 <= v < 9223372036854775808.
Proof. reflexivity. Qed.

Lemma is_unsigned_64 (u : Z) :
  is_unsigned 64 u <-> 0 <= u < 18446744073709551616.
Proof. reflexivity. Qed.

Lemma land_1_mod (u : Z) : Z.land u 1 = u mod 2.
Proof. change 1 with (Z.ones 1) at 1; rewrite Z.land_ones by lia; reflexivity. Qed.

Lemma shiftr_1_div (u : Z) : Z.shiftr u 1 = u / 2.
Proof. rewrite Z.shiftr_div_pow2 by lia; reflexivity. Qed.

Lemma shiftl_1_mul (u : Z) : Z.shiftl u 1 = 2 * u.
Proof. rewrite Z.shiftl_mul_pow2 by lia; change (2 ^ 1) with 2; lia. Qed.

Lemma EncodeZigZag_arith (v : Z) :
  is_signed 64 v -> EncodeZigZag v = if 0 <=? v then 2 * v else - 2 * v - 1.
Proof.
  intros Hv; apply -> is_signed_64 in Hv; unfold EncodeZigZag.
  rewrite shiftl_1_mul, Z.shiftr_div_pow2 by lia.
  change (2 ^ 63) with 9223372036854775808.
  destruct (Z.leb_spec 0 v).
  - rewrite Z.div_small, Z.lxor_0_r by lia. wrap64.
  - replace (v / 9223372036854775808) with (-1)
      by (apply Z.div_unique with (r := v + 9223372036854775808); lia).
    rewrite Z.lxor_m1_r; unfold Z.lnot. wrap64.
Qed.

Lemma DecodeZigZag_arith (u : Z) :
  is_unsigned 64 u ->
  DecodeZigZag u = if u mod 2 =? 1 then -1 - u / 2 else u / 2.
Proof.
  intros Hu; apply -> is_unsigned_64 in Hu; unfold DecodeZigZag.
  rewrite land_1_mod, shiftr_1_div.
  destruct (u mod 2 =? 1); wrap64.
Qed.

Lemma magnitude_range (v : Z) :
  is_signed 64 v -> 0 <= magnitude v < 2 ^ 63.
Proof.
  intros Hv; apply -> is_signed_64 in Hv; unfold magnitude.
  change (2 ^ 63) with 9223372036854775808.
  destruct (Z.leb_spec 0 v); lia.
Qed.

Lemma pow2_split (k n : Z) : 0 <= k <= n -> 2 ^ k * 2 ^ (n - k) = 2 ^ n.
Proof. intros; rewrite <- Z.pow_add_r by lia; f_equal; lia. Qed.

Lemma div_pow2_bound (x k n : Z) :
  0 <= k <= n -> 0 <= x < 2 ^ n -> 0 <= x / 2 ^ k < 2 ^ (n - k).
Proof.
  intros Hk Hx.
  pose proof (pow2_pos k ltac:(lia)) as Hp.
  split; [apply Z.div_pos; lia|].
  apply Z.div_lt_upper_bound; [lia|].
  rewrite pow2_split by lia; lia.
Qed.

Lemma EncodeZigZagBlock_arith (v k : Z) :
  is_signed 64 v -> 0 <= k <= 63 ->
  EncodeZigZagBlock v k
  = Some ((2 * (magnitude v / 2 ^ k) + sign_bit v) * 2 ^ k + magnitude v mod 2 ^ k)
  /\ 0 <= (2 * (magnitude v / 2 ^ k) + sign_bit v) * 2 ^ k + magnitude v mod 2 ^ k < 2 ^ 64.
Proof.
  intros Hv Hk.
  pose proof (magnitude_range v Hv) as Hm.
  pose proof (pow2_pos k ltac:(lia)) as Hp.
  pose proof (div_pow2_bound (magnitude v) k 63 ltac:(lia) Hm) as Hq.
  pose proof (pow2_split k 63 ltac:(lia)) as Hpq.
  pose proof (Z.mod_pos_bound (magnitude v) (2 ^ k) Hp) as Hpos.
  assert (Hs : 0 <= sign_bit v <= 1) by (unfold sign_bit; destruct (0 <=? v); lia).
  assert (H64 : 2 ^ 64 = 2 * 2 ^ 63) by reflexivity.
  assert (Hbn : 0 <= 2 * (magnitude v / 2 ^ k) + sign_bit v < 2 * 2 ^ (63 - k)) by lia.
  assert (Hres : 0 <= (2 * (magnitude v / 2 ^ k) + sign_bit v) * 2 ^ k
                      + magnitude v mod 2 ^ k < 2 ^ 64) by nia.
  split; [|exact Hres].
  unfold EncodeZigZagBlock.
  destruct (Z.ltb_spec k 64); [|lia].
  cbn [assert bind].
  assert (Huval : to_u64 (if 0 <=? v then v else to_s64 (to_s64 (- v) - 1)) = magnitude v).
  { apply -> is_signed_64 in Hv. unfold magnitude in *.
    destruct (Z.leb_spec 0 v); wrap64. }
  rewrite Huval.
  rewrite GetLowerBits_below by lia.
  cbn [bind ret].
  fold (sign_bit v).
  rewrite Z.shiftr_div_pow2, shiftl_1_mul by lia.
  rewrite (to_u64_small (2 * _)) by nia.
  rewrite (to_u64_small (2 * _ + _)) by nia.
  rewrite Z.shiftl_mul_pow2 by lia.
  rewrite (to_u64_small (_ * 2 ^ k)) by nia.
  rewrite to_u64_small by exact Hres.
  reflexivity.
Qed.

Lemma DecodeZigZagBlock_arith (u k : Z) :
  is_unsigned 64 u -> 0 <= k <= 63 ->
  DecodeZigZagBlock u k
  = Some (if (u / 2 ^ k) mod 2 =? 1
          then -1 - (u / 2 ^ k / 2) * 2 ^ k - u mod 2 ^ k
          else (u / 2 ^ k / 2) * 2 ^ k + u mod 2 ^ k)
  /\ 0 <= (u / 2 ^ k / 2) * 2 ^ k + u mod 2 ^ k < 2 ^ 63.
Proof.
  intros Hu Hk.
  pose proof (pow2_pos k ltac:(lia)) as Hp.
  pose proof (div_pow2_bound u k 64 ltac:(lia) Hu) as Hbn.
  pose proof (pow2_split k 63 ltac:(lia)) as Hpq.
  pose proof (Z.mod_pos_bound u (2 ^ k) Hp) as Hpos.
  assert (H2 : 2 ^ (64 - k) = 2 * 2 ^ (63 - k)).
  { replace (64 - k) with (1 + (63 - k)) by lia.
    rewrite Z.pow_add_r by lia; reflexivity. }
  assert (Hhalf : 0 <= u / 2 ^ k / 2 < 2 ^ (63 - k)).
  { split; [apply Z.div_pos; lia | apply Z.div_lt_upper_bound; lia]. }
  assert (Hres : 0 <= (u / 2 ^ k / 2) * 2 ^ k + u mod 2 ^ k < 2 ^ 63) by nia.
  split; [|exact Hres].
  unfold DecodeZigZagBlock.
  destruct (Z.ltb_spec k 64); [|lia].
  cbn [assert bind].
  rewrite GetLowerBits_below by lia.
  cbn [bind ret].
  rewrite land_1_mod, shiftr_1_div, Z.shiftr_div_pow2, Z.shiftl_mul_pow2 by lia.
  set (hi := u / 2 ^ k / 2 * 2 ^ k) in *.
  set (pos := u mod 2 ^ k) in *.
  assert (Hhi : 0 <= hi) by (unfold hi; nia).
  assert (Hpos0 : 0 <= pos) by lia.
  change (2 ^ 63) with 9223372036854775808 in Hres.
  destruct ((u / 2 ^ k) mod 2 =? 1); unfold ret; apply f_equal;
    clearbody hi pos; clear - Hres Hhi Hpos0; wrap64.
Qed.

(** C2: for every signed 64-bit [v], [DecodeZigZag(EncodeZigZag(v))] is [v],
    and for every block exponent [k] from 0 to 63 the block encoding of [v]
    has a result whose block decoding with the same [k] is [v]. *)
Theorem ZigZag_roundtrip (v k : Z) :
  is_signed 64 v -> 0 <= k <= 63 ->
  DecodeZigZag (EncodeZigZag v) = v
  /\ exists encoded,
       EncodeZigZagBlock v k = Some encoded
       /\ is_unsigned 64 encoded
       /\ DecodeZigZagBlock encoded k = Some v.
Proof.
  intros Hv Hk; split.
  - rewrite EncodeZigZag_arith by assumption.
    apply -> is_signed_64 in Hv.
    rewrite DecodeZigZag_arith
      by (apply is_unsigned_64; destruct (Z.leb_spec 0 v); lia).
    destruct (Z.leb_spec 0 v).
    + replace (2 * v) with (v * 2) by lia.
      rewrite Z.mod_mul, Z.div_mul by lia; reflexivity.
    + replace (- 2 * v - 1) with (1 + (- v - 1) * 2) by lia.
      rewrite Z.mod_add, Z.div_add by lia.
      change (1 mod 2) with 1; change (1 / 2) with 0.
      rewrite Z.eqb_refl; lia.
  - destruct (EncodeZigZagBlock_arith v k Hv Hk) as [Henc Hrange].
    pose proof (magnitude_range v Hv) as Hm.
    pose proof (pow2_pos k ltac:(lia)) as Hp.
    pose proof (Z.mod_pos_bound (magnitude v) (2 ^ k) Hp) as Hpos.
    set (bn := 2 * (magnitude v / 2 ^ k) + sign_bit v) in *.
    set (pos := magnitude v mod 2 ^ k) in *.
    exists (bn * 2 ^ k + pos).
    split; [exact Henc|].
    split; [exact Hrange|].
    destruct (DecodeZigZagBlock_arith (bn * 2 ^ k + pos) k Hrange Hk) as [-> _].
    assert (Hdiv : (bn * 2 ^ k + pos) / 2 ^ k = bn).
    { symmetry; apply Z.div_unique with (r := pos); lia. }
    assert (Hmod : (bn * 2 ^ k + pos) mod 2 ^ k = pos).
    { symmetry; apply Z.mod_unique with (q := bn); lia. }
    rewrite Hdiv, Hmod.
    assert (Hs : 0 <= sign_bit v <= 1) by (unfold sign_bit; destruct (0 <=? v); lia).
    assert (Hbn2 : bn / 2 = magnitude v / 2 ^ k).
    { symmetry; apply Z.div_unique with (r := sign_bit v); unfold bn; lia. }
    assert (Hbnm : bn mod 2 = sign_bit v).
    { symmetry; apply Z.mod_unique with (q := magnitude v / 2 ^ k); unfold bn; lia. }
    rewrite Hbn2, Hbnm.
    assert (Hmag : magnitude v / 2 ^ k * 2 ^ k + pos = magnitude v).
    { unfold pos. pose proof (Z.div_mod (magnitude v) (2 ^ k) ltac:(lia)). lia. }
    f_equal.
    clearbody pos; clear - Hmag.
    set (hi := magnitude v / 2 ^ k * 2 ^ k) in *; clearbody hi.
    unfold sign_bit, magnitude in *.
    destruct (Z.leb_spec 0 v); cbn [Z.eqb Pos.eqb]; lia.
Qed.

Lemma ZigZag_roundtrip_witness :
  DecodeZigZag (EncodeZigZag (-5)) = -5
  /\ exists encoded,
       EncodeZigZagBlock (-5) 2 = Some encoded
       /\ is_unsigned 64 encoded
       /\ DecodeZigZagBlock encoded 2 = Some (-5).
Proof.
  apply (ZigZag_roundtrip (-5) 2); [apply is_signed_64; lia | lia].
Defined.

Lemma lor_double_bit (a s : Z) : 0 <= s <= 1 -> Z.lor (2 * a) s = 2 * a + s.
Proof.
  intros Hs.
  assert (Hdisj : Z.land (2 * a) s = 0).
  { assert (Hcase : s = 0 \/ s = 1) by lia.
    destruct Hcase as [-> | ->]; [apply Z.land_0_r|].
    rewrite land_1_mod, Z.mul_comm; apply Z.mod_mul; lia. }
  rewrite <- Z.lxor_lor by exact Hdisj.
  symmetry; apply Z.add_nocarry_lxor; exact Hdisj.
Qed.

Lemma odd_mod2 (a : Z) : Z.odd a = (a mod 2 =? 1).
Proof. rewrite <- Z.bit0_odd; apply Z.bit0_eqb. Qed.

Lemma EncodeZigZagBlock_spec_arith (v k : Z) :
  0 <= k ->
  EncodeZigZagBlock_spec v k
  = (2 * (magnitude v / 2 ^ k) + sign_bit v) * 2 ^ k + magnitude v mod 2 ^ k.
Proof.
  intros Hk; unfold EncodeZigZagBlock_spec; fold (magnitude v).
  assert (Hsign : (if v <? 0 then 1 else 0) = sign_bit v).
  { unfold sign_bit; destruct (Z.ltb_spec v 0), (Z.leb_spec 0 v); lia. }
  rewrite Hsign, Z.land_ones, Z.shiftr_div_pow2, shiftl_1_mul by lia.
  rewrite lor_double_bit by (unfold sign_bit; destruct (0 <=? v); lia).
  rewrite Z.shiftl_mul_pow2 by lia; reflexivity.
Qed.

Lemma DecodeZigZagBlock_spec_arith (u k : Z) :
  0 <= k ->
  DecodeZigZagBlock_spec u k
  = if (u / 2 ^ k) mod 2 =? 1
    then -1 - (u / 2 ^ k / 2) * 2 ^ k - u mod 2 ^ k
    else (u / 2 ^ k / 2) * 2 ^ k + u mod 2 ^ k.
Proof.
  intros Hk; unfold DecodeZigZagBlock_spec.
  rewrite odd_mod2, Z.land_ones, shiftr_1_div, Z.shiftr_div_pow2 by lia.
  rewrite Z.shiftl_mul_pow2 by lia; reflexivity.
Qed.

(** C4: for every signed 64-bit [v], every unsigned 64-bit [u] and every
    block exponent [k] from 0 to 63, the block encoder returns the value of
    the reference encoding of the specification and the block decoder the
    value of its reference decoding, both taken on mathematical integers. *)
Theorem ZigZagBlock_refines_spec (v u k : Z) :
  is_signed 64 v -> is_unsigned 64 u -> 0 <= k <= 63 ->
  EncodeZigZagBlock v k = Some (EncodeZigZagBlock_spec v k)
  /\ DecodeZigZagBlock u k = Some (DecodeZigZagBlock_spec u k).
Proof.
  intros Hv Hu Hk; split.
  - rewrite EncodeZigZagBlock_spec_arith by lia.
    apply EncodeZigZagBlock_arith; assumption.
  - rewrite DecodeZigZagBlock_spec_arith by lia.
    apply DecodeZigZagBlock_arith; assumption.
Qed.

Lemma ZigZagBlock_refines_spec_witness :
  EncodeZigZagBlock (-7) 2 = Some (EncodeZigZagBlock_spec (-7) 2)
  /\ DecodeZigZagBlock 14 2 = Some (DecodeZigZagBlock_spec 14 2).
Proof.
  apply (ZigZagBlock_refines_spec (-7) 14 2);
    [apply is_signed_64; lia | apply is_unsigned_64; lia | lia].
Defined.

(** C9: with the block exponent 0 the block encoder and decoder are the
    plain ones, for every signed 64-bit [v] and every unsigned 64-bit [u]. *)
Theorem ZigZagBlock_exponent_0 (v u : Z) :
  is_signed 64 v -> is_unsigned 64 u ->
  EncodeZigZagBlock v 0 = Some (EncodeZigZag v)
  /\ DecodeZigZagBlock u 0 = Some (DecodeZigZag u).
Proof.
  intros Hv Hu; split.
  - destruct (EncodeZigZagBlock_arith v 0 Hv ltac:(lia)) as [-> _].
    rewrite EncodeZigZag_arith by assumption.
    change (2 ^ 0) with 1.
    rewrite Z.div_1_r, Z.mod_1_r.
    f_equal; unfold magnitude, sign_bit.
    destruct (0 <=? v); lia.
  - destruct (DecodeZigZagBlock_arith u 0 Hu ltac:(lia)) as [-> _].
    rewrite DecodeZigZag_arith by assumption.
    change (2 ^ 0) with 1.
    rewrite Z.div_1_r, Z.mod_1_r.
    f_equal; destruct (u mod 2 =? 1); lia.
Qed.

Lemma ZigZagBlock_exponent_0_witness :
  EncodeZigZagBlock (-3) 0 = Some (EncodeZigZag (-3))
  /\ DecodeZigZagBlock 5 0 = Some (DecodeZigZag 5).
Proof.
  apply (ZigZagBlock_exponent_0 (-3) 5);
    [apply is_signed_64; lia | apply is_unsigned_64; lia].
Defined.

(** ** BufferToStream and StreamToBuffer *)

Lemma to_int_small (x : Z) : - 2 ^ 31 <= x <= INT_MAX -> to_int x = x.
Proof.
  unfold INT_MAX, to_int, to_signed; change (32 - 1) with 31.
  change (2 ^ 31) with 2147483648; change (2 ^ 32) with 4294967296.
  intros Hx; rewrite Z.mod_small; lia.
Qed.

Lemma bitset_to_string_length (W y : Z) :
  length (bitset_to_string W y) = Z.to_nat W.
Proof. unfold bitset_to_string; rewrite length_map, length_rev, length_seq; reflexivity. Qed.

Lemma mod_pow2_succ (y : Z) (n : nat) :
  y mod 2 ^ Z.of_nat (S n)
  = Z.b2z (Z.testbit y (Z.of_nat n)) * 2 ^ Z.of_nat n + y mod 2 ^ Z.of_nat n.
Proof.
  rewrite Nat2Z.inj_succ, Z.pow_succ_r by lia.
  pose proof (pow2_pos (Z.of_nat n) ltac:(lia)) as Hp.
  rewrite (Z.mul_comm 2), Z.rem_mul_r by lia.
  rewrite Z.testbit_spec' by lia.
  lia.
Qed.

Lemma bitset_parse_digits (y : Z) (n : nat) (acc : Z) :
  bitset_parse (map (fun i => bit_char (Z.testbit y (Z.of_nat i))) (rev (seq 0 n))) acc
  = Some (acc * 2 ^ Z.of_nat n + y mod 2 ^ Z.of_nat n).
Proof.
  revert acc; induction n as [|n IH]; intros acc.
  - simpl; rewrite Z.mod_1_r; unfold ret; f_equal; lia.
  - rewrite seq_S, rev_app_distr; cbn [rev app map bitset_parse Nat.add].
    rewrite mod_pow2_succ, Nat2Z.inj_succ, Z.pow_succ_r by lia.
    destruct (Z.testbit y (Z.of_nat n)); cbn [bit_char Ascii.eqb Bool.eqb Z.b2z];
      rewrite IH; f_equal; lia.
Qed.

Lemma bitset_parse_to_string (W y : Z) :
  0 <= W -> 0 <= y < 2 ^ W -> bitset_parse (bitset_to_string W y) 0 = Some y.
Proof.
  intros HW Hy; unfold bitset_to_string.
  rewrite bitset_parse_digits, Z2Nat.id, Z.mod_small by lia.
  reflexivity.
Qed.

Lemma rev_flat_map {A B : Type} (f : A -> list B) (l : list A) :
  rev (flat_map f l) = flat_map (fun x => rev (f x)) (rev l).
Proof.
  induction l as [|x l IH]; [reflexivity|].
  cbn [flat_map rev]; rewrite rev_app_distr, IH, flat_map_app.
  cbn [flat_map]; rewrite app_nil_r; reflexivity.
Qed.

(** The string that [StreamToBuffer] works on after its call of
    [std::reverse]: the words in reverse order, each as printed by
    [std::bitset]. *)
Lemma rev_BufferToStream (W : Z) (b : list Z) :
  rev (BufferToStream W b)
  = flat_map (fun x => bitset_to_string W (bitset_of_ullong W x)) (rev b).
Proof.
  unfold BufferToStream; rewrite rev_flat_map.
  apply flat_map_ext; intros x; apply rev_involutive.
Qed.

Lemma flat_map_bitset_length (W : Z) (l : list Z) :
  0 <= W ->
  size (flat_map (fun x => bitset_to_string W (bitset_of_ullong W x)) l)
  = W * Z.of_nat (length l).
Proof.
  intros HW; unfold size; induction l as [|x l IH]; [simpl; lia|].
  cbn [flat_map]; rewrite length_app, bitset_to_string_length.
  cbn [length]; lia.
Qed.

Lemma BufferToStream_size (W : Z) (b : list Z) :
  0 <= W -> size (BufferToStream W b) = W * Z.of_nat (length b).
Proof.
  intros HW.
  replace (size (BufferToStream W b)) with (size (rev (BufferToStream W b)))
    by (unfold size; rewrite length_rev; reflexivity).
  rewrite rev_BufferToStream, flat_map_bitset_length, length_rev by lia.
  reflexivity.
Qed.

Lemma skipn_size_app (s t : Stream) : skipn (Z.to_nat (size s)) (s ++ t) = t.
Proof.
  unfold size; rewrite Nat2Z.id, skipn_app, skipn_all, Nat.sub_diag; reflexivity.
Qed.

Lemma firstn_length_app {A : Type} (n : nat) (s t : list A) :
  length s = n -> firstn n (s ++ t) = s.
Proof.
  intros <-; induction s as [|c s IH]; [reflexivity|].
  cbn [length app firstn]; rewrite IH; reflexivity.
Qed.

Lemma StreamToBuffer_loop_words (W : Z) (rest : list Z) :
  forall (fuel : nat) (tail : Stream) (acc : list Z),
    1 <= W <= 64 -> Forall (is_unsigned W) rest ->
    W * Z.of_nat (length rest) <= INT_MAX ->
    (length rest < fuel)%nat ->
    StreamToBuffer_loop fuel W
      (flat_map (fun x => bitset_to_string W (bitset_of_ullong W x)) (rev rest) ++ tail)
      W (W * Z.of_nat (length rest) - W) acc
    = Some (acc ++ rest).
Proof.
  assert (HI : INT_MAX = 2147483647) by reflexivity.
  induction rest as [|x rest IH]; intros fuel tail acc HW Hwords Hmax Hfuel.
  - destruct fuel as [|fuel]; [inversion Hfuel|].
    cbn [StreamToBuffer_loop length].
    destruct (Z.leb_spec 0 (W * Z.of_nat 0 - W)); [lia|].
    rewrite app_nil_r; reflexivity.
  - destruct fuel as [|fuel]; [inversion Hfuel|].
    inversion Hwords as [|? ? Hx Hrest]; subst.
    cbn [length] in *.
    rewrite Nat2Z.inj_succ in *.
    replace (W * Z.succ (Z.of_nat (length rest)) - W)
      with (W * Z.of_nat (length rest)) by lia.
    cbn [StreamToBuffer_loop].
    destruct (Z.leb_spec 0 (W * Z.of_nat (length rest))); [|lia].
    cbn [rev]; rewrite flat_map_app; cbn [flat_map].
    rewrite app_nil_r, <- app_assoc.
    set (front := flat_map _ (rev rest)).
    assert (Hfront : size front = W * Z.of_nat (length rest)).
    { unfold front; rewrite flat_map_bitset_length, length_rev by lia; reflexivity. }
    assert (HSIZE : 2 ^ 64 = 18446744073709551616) by reflexivity.
    unfold bitset_of_string.
    rewrite !to_size_t_small by (unfold SIZE_MAX; lia).
    rewrite size_app.
    destruct (Z.leb_spec (W * Z.of_nat (length rest)) (size front + size (bitset_to_string W (bitset_of_ullong W x) ++ tail)));
      [|unfold size in *; lia].
    cbn [assert bind].
    rewrite <- Hfront, skipn_size_app, Hfront.
    rewrite (firstn_length_app (Z.to_nat W)) by apply bitset_to_string_length.
    rewrite firstn_all2 by (rewrite bitset_to_string_length; lia).
    unfold bitset_of_ullong; rewrite (to_unsigned_small W x) by exact Hx.
    rewrite bitset_parse_to_string by (try exact Hx; lia).
    cbn [bind].
    rewrite (to_unsigned_small W x) by exact Hx.
    rewrite to_int_small by (change (2 ^ 31) with 2147483648; lia).
    unfold front.
    rewrite IH; try assumption; try lia.
    rewrite <- app_assoc; reflexivity.
Qed.

(** X16: for a type of 8, 16, 32 or 64 bits and a buffer whose stream has
    a length that fits [int], [StreamToBuffer] of [BufferToStream] of the
    buffer returns the buffer. *)
Theorem StreamToBuffer_BufferToStream (W : Z) (b : list Z) :
  In W [8; 16; 32; 64] -> Forall (is_unsigned W) b ->
  W * Z.of_nat (length b) <= INT_MAX ->
  StreamToBuffer W (BufferToStream W b) = Some b.
Proof.
  intros HinW Hwords Hmax.
  assert (HW : 1 <= W <= 64) by (simpl in HinW; lia).
  assert (HI : INT_MAX = 2147483647) by reflexivity.
  unfold StreamToBuffer.
  assert (Hsize : size (rev (BufferToStream W b)) = W * Z.of_nat (length b)).
  { unfold size; rewrite length_rev; apply BufferToStream_size; lia. }
  rewrite Hsize.
  rewrite (to_int_small W) by (change (2 ^ 31) with 2147483648; lia).
  rewrite (to_int_small (W * _)) by (change (2 ^ 31) with 2147483648; lia).
  rewrite (to_int_small (W * _ - W)) by (change (2 ^ 31) with 2147483648; lia).
  rewrite rev_BufferToStream.
  assert (Hfuel : (length b < S (length (flat_map
            (fun x => bitset_to_string W (bitset_of_ullong W x)) (rev b))))%nat).
  { apply Nat.lt_succ_r.
    assert (Hlen : Z.of_nat (length (flat_map
                     (fun x => bitset_to_string W (bitset_of_ullong W x)) (rev b)))
                   = W * Z.of_nat (length b)).
    { rewrite <- rev_BufferToStream; exact Hsize. }
    nia. }
  pose proof (StreamToBuffer_loop_words W b _ [] [] HW Hwords Hmax Hfuel) as Hloop.
  rewrite app_nil_r in Hloop; rewrite Hloop.
  cbn [bind app].
  rewrite to_size_t_small by (unfold SIZE_MAX; lia).
  rewrite Z.mul_comm, Z.mod_mul by lia.
  reflexivity.
Qed.

Lemma StreamToBuffer_BufferToStream_witness :
  StreamToBuffer 16 (BufferToStream 16 [513; 65535; 0]) = Some [513; 65535; 0].
Proof.
  apply (StreamToBuffer_BufferToStream 16 [513; 65535; 0]).
  - simpl; tauto.
  - repeat constructor; unfold is_unsigned; simpl; lia.
  - vm_compute; discriminate.
Defined.

(** A stream whose length does not fit [int]: [static_cast<int>] makes
    [str_length] negative, the first loop does not run, and with a length
    that is a multiple of the word size nothing is pushed at all. *)
Lemma StreamToBuffer_length_beyond_int (W : Z) (str0 : Stream) :
  1 <= W <= 64 -> 2 ^ 31 + W <= size str0 < 2 ^ 32 -> size str0 mod W = 0 ->
  StreamToBuffer W str0 = Some [].
Proof.
  intros HW Hsize Hmod.
  change (2 ^ 31) with 2147483648 in Hsize; change (2 ^ 32) with 4294967296 in Hsize.
  unfold StreamToBuffer.
  assert (Hrev : size (rev str0) = size str0) by (unfold size; rewrite length_rev; reflexivity).
  rewrite Hrev.
  rewrite (to_int_small W) by (unfold INT_MAX; change (2 ^ 31) with 2147483648; lia).
  assert (Hlen : to_int (size str0) = size str0 - 4294967296).
  { unfold to_int, to_signed; change (32 - 1) with 31.
    change (2 ^ 31) with 2147483648; change (2 ^ 32) with 4294967296.
    replace (size str0 + 2147483648)
      with (size str0 - 2147483648 + 1 * 4294967296) by lia.
    rewrite Z.mod_add, Z.mod_small by lia; lia. }
  rewrite Hlen.
  rewrite to_int_small by (unfold INT_MAX; change (2 ^ 31) with 2147483648; lia).
  cbn [StreamToBuffer_loop].
  destruct (Z.leb_spec 0 (size str0 - 4294967296 - W)); [lia|].
  cbn [bind ret].
  rewrite to_size_t_small by (unfold SIZE_MAX; change (2 ^ 64) with 18446744073709551616; lia).
  rewrite Hmod; reflexivity.
Qed.

Lemma StreamToBuffer_BufferToStream_too_long (b : list Z) :
  Z.of_nat (length b) = 33554433 ->
  StreamToBuffer 64 (BufferToStream 64 b) = Some []
  /\ StreamToBuffer 64 (BufferToStream 64 b) <> Some b.
Proof.
  intros Hlen.
  assert (Hnone : StreamToBuffer 64 (BufferToStream 64 b) = Some []).
  { apply StreamToBuffer_length_beyond_int; [lia | |];
      rewrite BufferToStream_size, Hlen by lia; [|reflexivity].
    change (2 ^ 31) with 2147483648; change (2 ^ 32) with 4294967296; lia. }
  split; [exact Hnone|].
  rewrite Hnone; intros Heq.
  injection Heq as Heq; subst b.
  discriminate Hlen.
Qed.

(** The characters left over are still taken from such a stream: their
    number comes from [str.length()] as a [size_t], only the index of the
    loop goes through [int]. With a length that is not a multiple of the
    word size the result is the one word of the characters left over. *)
Lemma StreamToBuffer_length_beyond_int_suffix (W : Z) (str0 : Stream) :
  1 <= W <= 64 -> 2 ^ 31 + W <= size str0 < 2 ^ 32 -> size str0 mod W <> 0 ->
  StreamToBuffer W str0
  = (bits <- bitset_of_string W (rev str0) 0 (size str0 mod W) ;;
     ret [to_unsigned W bits]).
Proof.
  intros HW Hsize Hmod.
  change (2 ^ 31) with 2147483648 in Hsize; change (2 ^ 32) with 4294967296 in Hsize.
  unfold StreamToBuffer.
  assert (Hrev : size (rev str0) = size str0) by (unfold size; rewrite length_rev; reflexivity).
  rewrite Hrev.
  rewrite (to_int_small W) by (unfold INT_MAX; change (2 ^ 31) with 2147483648; lia).
  assert (Hlen : to_int (size str0) = size str0 - 4294967296).
  { unfold to_int, to_signed; change (32 - 1) with 31.
    change (2 ^ 31) with 2147483648; change (2 ^ 32) with 4294967296.
    replace (size str0 + 2147483648)
      with (size str0 - 2147483648 + 1 * 4294967296) by lia.
    rewrite Z.mod_add, Z.mod_small by lia; lia. }
  rewrite Hlen.
  rewrite to_int_small by (unfold INT_MAX; change (2 ^ 31) with 2147483648; lia).
  cbn [StreamToBuffer_loop].
  destruct (Z.leb_spec 0 (size str0 - 4294967296 - W)); [lia|].
  cbn [bind ret].
  rewrite to_size_t_small by (unfold SIZE_MAX; change (2 ^ 64) with 18446744073709551616; lia).
  destruct (Z.eqb_spec (size str0 mod W) 0); [contradiction|].
  reflexivity.
Qed.

(** C10: the round trip fails for a buffer of 2^25 + 1 words of 64 bits:
    its stream has 2^31 + 64 characters, [static_cast<int>] makes the length
    negative, the loop does not run, and [StreamToBuffer] returns the empty
    buffer instead of the buffer. *)
Lemma StreamToBuffer_BufferToStream_long_buffer :
  Forall (is_unsigned 64) (repeat 0 (Z.to_nat 33554433))
  /\ StreamToBuffer 64 (BufferToStream 64 (repeat 0 (Z.to_nat 33554433))) = Some []
  /\ StreamToBuffer 64 (BufferToStream 64 (repeat 0 (Z.to_nat 33554433)))
     <> Some (repeat 0 (Z.to_nat 33554433)).
Proof.
  split.
  - apply Forall_forall; intros x Hx.
    apply repeat_spec in Hx; subst x.
    split; [apply Z.le_refl | reflexivity].
  - apply StreamToBuffer_BufferToStream_too_long.
    rewrite repeat_length; apply Z2Nat.id; discriminate.
Qed.

(** ** ReachedEnd and OnlyZeroesLeft *)

Module BitReaderWord64Facts.
Import BitReaderWord64.

Lemma ReachedEnd_no_unread (r : t) :
  ReachedEnd r = true -> forall i, pos_ r <= i < capacity r -> False.
Proof.
  unfold ReachedEnd; intros Hend i Hi.
  apply Z.leb_le in Hend; lia.
Qed.

Lemma OnlyZeroesLeft_at_end (r : t) :
  ReachedEnd r = true -> OnlyZeroesLeft r = true.
Proof. unfold OnlyZeroesLeft; intros ->; reflexivity. Qed.

Lemma OnlyZeroesLeft_no_false_positive (r : t) :
  0 <= pos_ r -> OnlyZeroesLeft r = true ->
  forall i, pos_ r <= i < capacity r -> unread_bit r i = false.
Proof.
  intros Hpos Hzero i Hi.
  unfold OnlyZeroesLeft in Hzero.
  destruct (ReachedEnd r) eqn:Hend.
  { exfalso; exact (ReachedEnd_no_unread r Hend i Hi). }
  unfold capacity in *.
  destruct (Z.ltb_spec (pos_ r / 64) (Z.of_nat (length (buffer_ r)) - 1)) as [|Hlast];
    [discriminate|].
  apply Z.eqb_eq in Hzero.
  assert (Hword : i / 64 = pos_ r / 64) by (Z.div_mod_to_equations; lia).
  assert (Hoff : pos_ r mod 64 <= i mod 64 < 64) by (Z.div_mod_to_equations; lia).
  assert (Hoff0 : 0 <= pos_ r mod 64) by (Z.div_mod_to_equations; lia).
  unfold unread_bit, buffer_bit; rewrite Hword.
  replace (i mod 64) with ((i mod 64 - pos_ r mod 64) + pos_ r mod 64) by lia.
  rewrite <- Z.shiftr_spec by lia.
  rewrite Hzero; apply Z.testbit_0_l.
Qed.

End BitReaderWord64Facts.

(** C6: the body that [BitReaderInterface] gives to [OnlyZeroesLeft]
    returns the value of [ReachedEnd()]; for every state of the word-packed
    reader, with this body as well as with the one of [BitReaderWord64],
    [OnlyZeroesLeft()] is true whenever [ReachedEnd()] is true, and when
    [OnlyZeroesLeft()] is true every bit from the read position to the end of
    the buffer is zero. *)
Theorem OnlyZeroesLeft_sound (r : BitReaderWord64.t) :
  0 <= BitReaderWord64.pos_ r ->
  (forall (Rd : Type) (reached_end : Rd -> bool) (r' : Rd),
      OnlyZeroesLeft_default reached_end r' = reached_end r')
  /\ @OnlyZeroesLeft _ BitReaderWord64_default r = @ReachedEnd _ BitReaderWord64_default r
  /\ (ReachedEnd r = true -> OnlyZeroesLeft r = true)
  /\ (forall i, BitReaderWord64.pos_ r <= i < BitReaderWord64.capacity r ->
        BitReaderWord64.unread_bit r i = true ->
        OnlyZeroesLeft r = false
        /\ @OnlyZeroesLeft _ BitReaderWord64_default r = false).
Proof.
  intros Hpos.
  split; [reflexivity|].
  split; [reflexivity|].
  split; [apply BitReaderWord64Facts.OnlyZeroesLeft_at_end|].
  intros i Hi Hbit; split.
  - destruct (OnlyZeroesLeft r) eqn:Hzero; [|reflexivity].
    pose proof (BitReaderWord64Facts.OnlyZeroesLeft_no_false_positive r Hpos Hzero i Hi).
    congruence.
  - cbn [OnlyZeroesLeft BitReaderWord64_default]; unfold OnlyZeroesLeft_default.
    destruct (BitReaderWord64.ReachedEnd r) eqn:Hend; [|reflexivity].
    exfalso; exact (BitReaderWord64Facts.ReachedEnd_no_unread r Hend i Hi).
Qed.

Lemma OnlyZeroesLeft_sound_witness :
  OnlyZeroesLeft (BitReaderWord64.mk [5; 8] 68) = true
  /\ OnlyZeroesLeft (BitReaderWord64.mk [5; 8] 67) = false
  /\ OnlyZeroesLeft (BitReaderWord64.mk [5; 0] 3) = false.
Proof.
  split; [reflexivity|]. split; [|reflexivity].
  apply (OnlyZeroesLeft_sound (BitReaderWord64.mk [5; 8] 67)) with (i := 67);
    [simpl; lia | vm_compute; split; [discriminate | reflexivity] | reflexivity].
Defined.

(** ** Raw bits *)

Lemma testbit_mod_pow2 (a n i : Z) :
  0 <= n -> 0 <= i -> Z.testbit (a mod 2 ^ n) i = (i <? n) && Z.testbit a i.
Proof.
  intros Hn Hi; destruct (Z.ltb_spec i n).
  - apply Z.mod_pow2_bits_low; lia.
  - apply Z.mod_pow2_bits_high; lia.
Qed.

Lemma lower_bits_length (x n : Z) : length (lower_bits x n) = Z.to_nat n.
Proof. unfold lower_bits; rewrite length_map, length_seq; reflexivity. Qed.

Lemma bits_value_seq (x : Z) (n s : nat) :
  bits_value (map (fun i => Z.testbit x (Z.of_nat i)) (seq s n))
  = Z.shiftr x (Z.of_nat s) mod 2 ^ Z.of_nat n.
Proof.
  revert s; induction n as [|n IH]; intros s.
  - simpl; rewrite Z.mod_1_r; reflexivity.
  - cbn [seq map bits_value]; rewrite IH.
    rewrite !Nat2Z.inj_succ, Z.pow_succ_r, <- Z.add_1_r by lia.
    pose proof (pow2_pos (Z.of_nat n) ltac:(lia)) as Hp.
    rewrite Z.rem_mul_r by lia.
    rewrite <- (Z.shiftr_shiftr x (Z.of_nat s) 1), shiftr_1_div by lia.
    rewrite <- Z.bit0_mod, Z.shiftr_spec by lia.
    reflexivity.
Qed.

Lemma bits_value_lower_bits (x n : Z) :
  0 <= n -> bits_value (lower_bits x n) = x mod 2 ^ n.
Proof.
  intros Hn; unfold lower_bits.
  rewrite bits_value_seq, Z2Nat.id, Z.shiftr_0_r by lia; reflexivity.
Qed.

Lemma firstn_lower_bits (x n : Z) (rest : list bool) :
  firstn (Z.to_nat n) (lower_bits x n ++ rest) = lower_bits x n.
Proof. apply firstn_length_app, lower_bits_length. Qed.

Lemma skipn_lower_bits (x n : Z) (rest : list bool) :
  skipn (Z.to_nat n) (lower_bits x n ++ rest) = rest.
Proof.
  rewrite <- (lower_bits_length x n), skipn_app, skipn_all, Nat.sub_diag.
  reflexivity.
Qed.

(** The accumulator of the decoder after one more slice: the bits of the
    value below [e] joined with the [n] bits from [e] on, cut at [W]. *)
Lemma accumulate_slice (val0 W e n : Z) :
  0 <= e <= W -> 0 <= n ->
  Z.lor (val0 mod 2 ^ e)
        (to_unsigned W (Z.shiftl (Z.shiftr val0 e mod 2 ^ n) e))
  = val0 mod 2 ^ Z.min (e + n) W.
Proof.
  intros He Hn; unfold to_unsigned.
  apply Z.bits_inj'; intros i Hi.
  rewrite Z.lor_spec, !testbit_mod_pow2 by lia.
  rewrite Z.shiftl_spec by lia.
  destruct (Z.ltb_spec i e).
  - rewrite (Z.testbit_neg_r _ (i - e)) by lia.
    destruct (Z.ltb_spec i (Z.min (e + n) W)), (Z.ltb_spec i W);
      rewrite ?andb_false_r, ?orb_false_r; cbn [andb orb]; try reflexivity; lia.
  - rewrite testbit_mod_pow2, Z.shiftr_spec by lia.
    replace (i - e + e) with i by lia.
    destruct (Z.ltb_spec i (Z.min (e + n) W)), (Z.ltb_spec i W), (Z.ltb_spec (i - e) n);
      cbn [andb orb]; try reflexivity; try lia.
Qed.

(** ** Variable width encoding: every implementation that keeps the contract
    of the raw operations behaves as the plain sequence of bits *)

Lemma slice_length_range (tl : bool) (W C done : Z) :
  1 <= C <= 64 -> done < W -> 1 <= slice_length tl W C done <= 64.
Proof. unfold slice_length; destruct tl; lia. Qed.

Lemma slice_length_reaches (tl : bool) (W C done : Z) :
  1 <= C -> done < W ->
  (W <=? done + slice_length tl W C done) = (W <=? done + C).
Proof.
  intros HC Hd; unfold slice_length; destruct tl; [|reflexivity].
  destruct (Z.leb_spec W (done + Z.min C (W - done))), (Z.leb_spec W (done + C));
    try reflexivity; lia.
Qed.

Lemma slice_length_inner (tl : bool) (W C done : Z) :
  done + C < W -> slice_length tl W C done = C.
Proof. unfold slice_length; destruct tl; lia. Qed.

Lemma BitSeq_write_loop_app (tl : bool) (fuel : nat) (W C : Z) :
  forall (val emitted : Z) (w : list bool),
    WriteVariableWidth_loop tl fuel W C val emitted w
    = w ++ WriteVariableWidth_loop tl fuel W C val emitted [].
Proof.
  induction fuel as [|fuel IH]; intros val emitted w.
  - cbn [WriteVariableWidth_loop]; rewrite app_nil_r; reflexivity.
  - cbn [WriteVariableWidth_loop WriteBits BitSeqWriter app].
    destruct (emitted <? W); [|rewrite app_nil_r; reflexivity].
    destruct (W <=? emitted + slice_length tl W C emitted); [reflexivity|].
    destruct (Z.shiftr val C =? 0).
    + rewrite app_assoc; reflexivity.
    + rewrite IH, (IH _ _ (_ ++ _)), !app_assoc; reflexivity.
Qed.

Section Refinement.
Context {Wr : Type} `{BitWriterInterface Wr}
        (wvalid : Wr -> Prop) (written : Wr -> list bool)
        `{!BitWriterLaws Wr wvalid written}.
Context {Rd : Type} `{BitReaderInterface Rd}
        (rvalid : Rd -> Prop) (unread : Rd -> list bool)
        `{!BitReaderLaws Rd rvalid unread}.
Variable tl : bool.

Lemma WriteVariableWidth_loop_written (fuel : nat) (W C : Z) :
  forall (val emitted : Z) (w : Wr),
    1 <= C <= 64 -> wvalid w ->
    wvalid (WriteVariableWidth_loop tl fuel W C val emitted w)
    /\ written (WriteVariableWidth_loop tl fuel W C val emitted w)
       = written w ++ WriteVariableWidth_loop tl fuel W C val emitted ([] : list bool).
Proof.
  induction fuel as [|fuel IH]; intros val emitted w HC Hw.
  - cbn [WriteVariableWidth_loop]; rewrite app_nil_r; auto.
  - cbn [WriteVariableWidth_loop].
    destruct (Z.ltb_spec emitted W) as [Hlt|]; [|rewrite app_nil_r; auto].
    pose proof (slice_length_range tl W C emitted HC Hlt) as Hn.
    set (n := slice_length tl W C emitted) in *.
    assert (Hw1 : wvalid (WriteBits w val n)) by (apply WriteBits_valid; [assumption|lia]).
    assert (Hs1 : written (WriteBits w val n) = written w ++ lower_bits val n)
      by (apply WriteBits_written; [assumption|lia]).
    cbn [WriteBits BitSeqWriter app].
    destruct (W <=? emitted + n); [auto|].
    destruct (Z.shiftr val C =? 0).
    + split; [apply WriteBits_valid; [assumption|lia]|].
      rewrite WriteBits_written, Hs1, <- app_assoc by (try assumption; lia).
      reflexivity.
    + destruct (IH (Z.shiftr val C) (emitted + n) (WriteBits (WriteBits w val n) 1 1) HC)
        as [Hv Hs]; [apply WriteBits_valid; [assumption|lia]|].
      split; [exact Hv|].
      rewrite Hs, WriteBits_written, Hs1 by (try assumption; lia).
      rewrite (BitSeq_write_loop_app tl fuel W C _ _ (_ ++ _)), !app_assoc.
      reflexivity.
Qed.

Lemma ReadVariableWidth_loop_unread (fuel : nat) (W C : Z) :
  forall (acc consumed : Z) (r : Rd),
    1 <= C <= 64 -> rvalid r ->
    exists r',
      ReadVariableWidth_loop tl fuel W C acc consumed r
      = (fst (fst (ReadVariableWidth_loop tl fuel W C acc consumed (unread r))),
         snd (fst (ReadVariableWidth_loop tl fuel W C acc consumed (unread r))), r')
      /\ rvalid r'
      /\ unread r' = snd (ReadVariableWidth_loop tl fuel W C acc consumed (unread r)).
Proof.
  induction fuel as [|fuel IH]; intros acc consumed r HC Hr.
  - exists r; cbn [ReadVariableWidth_loop fst snd]; auto.
  - cbn [ReadVariableWidth_loop].
    destruct (Z.ltb_spec consumed W) as [Hlt|]; [|exists r; cbn [fst snd]; auto].
    pose proof (slice_length_range tl W C consumed HC Hlt) as Hn.
    set (n := slice_length tl W C consumed) in *.
    destruct (ReadBits_unread r n Hr ltac:(lia)) as [r1 [E1 [Hr1 Hu1]]].
    rewrite E1.
    cbn [ReadBits BitSeqReader].
    destruct (negb (Z.of_nat (length (firstn (Z.to_nat n) (unread r))) =? n)).
    { exists r1; cbn [fst snd]; auto. }
    destruct (W <=? consumed + n).
    { exists r1; cbn [fst snd]; auto. }
    destruct (ReadBits_unread r1 1 Hr1 ltac:(lia)) as [r2 [E2 [Hr2 Hu2]]].
    rewrite E2, Hu1.
    destruct (negb (Z.of_nat (length (firstn (Z.to_nat 1)
                (skipn (Z.to_nat n) (unread r)))) =? 1)).
    { exists r2; cbn [fst snd]; rewrite <- Hu1; auto. }
    destruct (bits_value (firstn (Z.to_nat 1) (skipn (Z.to_nat n) (unread r))) =? 0).
    { exists r2; cbn [fst snd]; rewrite <- Hu1; auto. }
    rewrite <- Hu1, <- Hu2.
    apply IH; assumption.
Qed.

End Refinement.

(** ** Variable width encoding over the plain sequence of bits *)

Lemma BitSeq_read_slice (x n : Z) (rest : list bool) :
  0 <= n -> ReadBits (lower_bits x n ++ rest) n = (x mod 2 ^ n, n, rest).
Proof.
  intros Hn; cbn [ReadBits BitSeqReader].
  rewrite firstn_lower_bits, skipn_lower_bits, lower_bits_length.
  rewrite bits_value_lower_bits, Z2Nat.id by lia.
  reflexivity.
Qed.

Lemma BitSeq_read_bit (b : bool) (rest : list bool) :
  ReadBits (b :: rest) 1 = (Z.b2z b, 1, rest).
Proof.
  cbn [ReadBits BitSeqReader].
  change (Z.to_nat 1) with 1%nat; cbn [firstn skipn bits_value length].
  f_equal; f_equal; lia.
Qed.

Lemma shiftr_zero_small (x n : Z) : 0 <= x -> 0 <= n -> Z.shiftr x n = 0 -> x < 2 ^ n.
Proof.
  intros Hx Hn Hs.
  rewrite Z.shiftr_div_pow2 in Hs by lia.
  pose proof (pow2_pos n Hn).
  apply Z.div_small_iff in Hs; lia.
Qed.

Lemma BitSeq_roundtrip_loop (tl : bool) (W C val0 : Z) (fuel : nat) :
  forall (emitted : Z) (rest : list bool),
    1 <= C <= 64 -> 0 <= val0 < 2 ^ W -> 0 <= emitted < W ->
    (Z.to_nat (W - emitted) <= fuel)%nat ->
    ReadVariableWidth_loop tl fuel W C (val0 mod 2 ^ emitted) emitted
      (WriteVariableWidth_loop tl fuel W C (Z.shiftr val0 emitted) emitted [] ++ rest)
    = (true, val0, rest).
Proof.
  induction fuel as [|fuel IH]; intros emitted rest HC Hval He Hfuel; [lia|].
  cbn [WriteVariableWidth_loop ReadVariableWidth_loop].
  destruct (Z.ltb_spec emitted W) as [_|]; [|lia].
  pose proof (slice_length_range tl W C emitted HC ltac:(lia)) as Hn.
  pose proof (slice_length_reaches tl W C emitted ltac:(lia) ltac:(lia)) as Hreach.
  pose proof (slice_length_inner tl W C emitted) as Hinner.
  set (n := slice_length tl W C emitted) in *.
  cbn [WriteBits BitSeqWriter app].
  destruct (Z.leb_spec W (emitted + n)) as [Hlast|Hmore].
  - (* the last chunk: the width is reached *)
    rewrite BitSeq_read_slice by lia.
    rewrite Z.eqb_refl; cbn [negb].
    rewrite accumulate_slice, Z.min_r, Z.mod_small by lia.
    reflexivity.
  - assert (HnC : n = C).
    { apply Hinner. symmetry in Hreach. apply Z.leb_gt in Hreach; lia. }
    rewrite Z.shiftr_shiftr by lia.
    destruct (Z.eqb_spec (Z.shiftr val0 (emitted + C)) 0) as [Hzero|Hnonzero].
    + (* no higher bits remain: the signal bit is 0 *)
      rewrite <- app_assoc, BitSeq_read_slice by lia.
      rewrite Z.eqb_refl; cbn [negb].
      change (lower_bits 0 1) with [false]; cbn [app].
      rewrite BitSeq_read_bit; cbn [Z.b2z Z.eqb negb].
      rewrite accumulate_slice, Z.min_l by lia.
      rewrite HnC, Z.mod_small; [reflexivity|].
      split; [lia | apply shiftr_zero_small; lia].
    + (* higher bits remain: the signal bit is 1 and the loops go on *)
      rewrite BitSeq_write_loop_app, <- !app_assoc, BitSeq_read_slice by lia.
      rewrite Z.eqb_refl; cbn [negb].
      change (lower_bits 1 1) with [true]; cbn [app].
      rewrite BitSeq_read_bit; cbn [Z.b2z Z.eqb negb].
      rewrite accumulate_slice, Z.min_l by lia.
      rewrite HnC.
      apply IH; lia.
Qed.

Lemma BitSeq_roundtrip (tl : bool) (W C val : Z) (rest : list bool) :
  1 <= W -> 1 <= C <= 64 -> 0 <= val < 2 ^ W ->
  ReadVariableWidthU tl W C (WriteVariableWidthU tl W val C [] ++ rest)
  = (true, val, rest).
Proof.
  intros HW HC Hval; unfold ReadVariableWidthU, WriteVariableWidthU.
  pose proof (BitSeq_roundtrip_loop tl W C val (Z.to_nat W) 0 rest HC Hval) as Hloop.
  rewrite Z.shiftr_0_r in Hloop; change (2 ^ 0) with 1 in Hloop.
  rewrite Z.mod_1_r in Hloop.
  apply Hloop; lia.
Qed.

Lemma BitSeqWriter_laws : BitWriterLaws (list bool) (fun _ => True) (fun w => w).
Proof. split; intros; [exact I | reflexivity]. Qed.

Lemma BitSeqReader_laws : BitReaderLaws (list bool) (fun _ => True) (fun r => r).
Proof.
  split; intros r n _ _.
  exists (skipn (Z.to_nat n) r); repeat split.
Qed.

(** The round trip for every width, between any writer and any reader that
    keep the contract of the raw operations. *)
Lemma lawful_roundtrip
    (Wr : Type) (IW : BitWriterInterface Wr)
    (wvalid : Wr -> Prop) (written : Wr -> list bool)
    (Rd : Type) (IR : BitReaderInterface Rd)
    (rvalid : Rd -> Prop) (unread : Rd -> list bool)
    (tl : bool) (W C val : Z) (w : Wr) :
  BitWriterLaws Wr wvalid written -> BitReaderLaws Rd rvalid unread ->
  1 <= W -> 1 <= C <= 64 -> 0 <= val < 2 ^ W -> wvalid w ->
  exists encoding : list bool,
    written (WriteVariableWidthU tl W val C w) = written w ++ encoding
    /\ wvalid (WriteVariableWidthU tl W val C w)
    /\ forall (r : Rd) (rest : list bool),
         rvalid r -> unread r = encoding ++ rest ->
         exists r',
           ReadVariableWidthU tl W C r = (true, val, r')
           /\ rvalid r' /\ unread r' = rest.
Proof.
  intros LW LR HW HC Hval Hw.
  exists (WriteVariableWidthU tl W val C ([] : list bool)).
  destruct (WriteVariableWidth_loop_written wvalid written tl
              (Z.to_nat W) W C val 0 w HC Hw) as [Hv Hs].
  split; [exact Hs|].
  split; [exact Hv|].
  intros r rest Hr Hu.
  destruct (ReadVariableWidth_loop_unread rvalid unread tl
              (Z.to_nat W) W C 0 0 r HC Hr) as [r' [E [Hr' Hu']]].
  exists r'.
  fold (ReadVariableWidthU tl W C r) in E.
  fold (ReadVariableWidthU tl W C (unread r)) in E, Hu'.
  rewrite Hu, BitSeq_roundtrip in E, Hu' by assumption.
  auto.
Qed.

(** C1: for a type of 8, 16, 32 or 64 bits, every chunk length from 1 to 64
    and every value of the type, with a writer and a reader that keep the
    contract of the raw operations: the variable width write appends an
    encoding to the bits written so far, and the variable width read with
    the same chunk length, from a reader whose unread bits start with this
    encoding, succeeds, yields the value and leaves the bits that follow the
    encoding. *)
Theorem VariableWidth_roundtrip
    (Wr : Type) (IW : BitWriterInterface Wr)
    (wvalid : Wr -> Prop) (written : Wr -> list bool)
    (Rd : Type) (IR : BitReaderInterface Rd)
    (rvalid : Rd -> Prop) (unread : Rd -> list bool)
    (truncate_last : bool) (W C val : Z) (w : Wr) :
  BitWriterLaws Wr wvalid written -> BitReaderLaws Rd rvalid unread ->
  In W [8; 16; 32; 64] -> 1 <= C <= 64 -> 0 <= val < 2 ^ W -> wvalid w ->
  exists encoding : list bool,
    written (WriteVariableWidthU truncate_last W val C w) = written w ++ encoding
    /\ wvalid (WriteVariableWidthU truncate_last W val C w)
    /\ forall (r : Rd) (rest : list bool),
         rvalid r -> unread r = encoding ++ rest ->
         exists r',
           ReadVariableWidthU truncate_last W C r = (true, val, r')
           /\ rvalid r' /\ unread r' = rest.
Proof.
  intros LW LR HinW HC Hval Hw.
  apply lawful_roundtrip; try assumption.
  simpl in HinW; lia.
Qed.

Lemma VariableWidth_roundtrip_witness :
  exists encoding : list bool,
    WriteVariableWidthU8 true 255 3 [true] = [true] ++ encoding
    /\ ReadVariableWidthU8 true 3 (encoding ++ [false; true]) = (true, 255, [false; true]).
Proof.
  destruct (VariableWidth_roundtrip (list bool) BitSeqWriter (fun _ => True) (fun w => w)
              (list bool) BitSeqReader (fun _ => True) (fun r => r)
              true 8 3 255 [true] BitSeqWriter_laws BitSeqReader_laws)
    as [encoding [Hs [_ Hread]]];
    [simpl; tauto | lia | vm_compute; split; [discriminate | reflexivity] | exact I |].
  exists encoding; split; [exact Hs|].
  destruct (Hread (encoding ++ [false; true]) [false; true] I eq_refl) as [r' [E [_ Hr']]].
  cbn beta in Hr'; subst r'; exact E.
Defined.

(** ** Variable width decoding from a stream that ends too early *)

Lemma full_read_not_short (log : list (Z * Z)) :
  Forall full_read log -> ~ Exists short_read log.
Proof.
  intros Hfull Hshort; induction Hshort as [e l He|e l _ IH];
    inversion Hfull as [|? ? Hf Hl]; subst.
  - unfold short_read, full_read in *; lia.
  - exact (IH Hl).
Qed.

Lemma traced_read_loop (Rd : Type) (IR : BitReaderInterface Rd)
    (tl : bool) (W C : Z) (fuel : nat) :
  forall (acc consumed : Z) (r : Rd) (log : list (Z * Z)),
    exists more : list (Z * Z),
      ReadVariableWidth_loop tl fuel W C acc consumed ((r, log) : Traced Rd)
      = (fst (fst (ReadVariableWidth_loop tl fuel W C acc consumed r)),
         snd (fst (ReadVariableWidth_loop tl fuel W C acc consumed r)),
         (snd (ReadVariableWidth_loop tl fuel W C acc consumed r), log ++ more))
      /\ (fst (fst (ReadVariableWidth_loop tl fuel W C acc consumed r)) = true ->
          Forall full_read more).
Proof.
  induction fuel as [|fuel IH]; intros acc consumed r log.
  - exists []; cbn [ReadVariableWidth_loop fst snd]; rewrite app_nil_r; auto.
  - cbn [ReadVariableWidth_loop].
    destruct (consumed <? W);
      [|exists []; cbn [fst snd]; rewrite app_nil_r; auto].
    set (n := slice_length tl W C consumed).
    cbn [ReadBits TracedReader fst snd].
    destruct (ReadBits r n) as [[bits num_read] r1].
    destruct (Z.eqb_spec num_read n) as [Hfull|Hshort]; cbn [negb].
    2: { exists [(n, num_read)]; cbn [fst snd]; split; [reflexivity | discriminate]. }
    destruct (W <=? consumed + n).
    { exists [(n, num_read)]; cbn [fst snd]; split; [reflexivity|].
      intros _; constructor; [exact Hfull | constructor]. }
    cbn [ReadBits TracedReader fst snd].
    destruct (ReadBits r1 1) as [[more_to_come num_read1] r2].
    destruct (Z.eqb_spec num_read1 1) as [Hfull1|Hshort1]; cbn [negb].
    2: { exists [(n, num_read); (1, num_read1)]; cbn [fst snd].
         rewrite <- app_assoc; split; [reflexivity | discriminate]. }
    destruct (more_to_come =? 0).
    { exists [(n, num_read); (1, num_read1)]; cbn [fst snd].
      rewrite <- app_assoc; split; [reflexivity|].
      intros _; repeat constructor; assumption. }
    destruct (IH (Z.lor acc (to_unsigned W (Z.shiftl bits consumed))) (consumed + n) r2
                ((log ++ [(n, num_read)]) ++ [(1, num_read1)])) as [more [E Hmore]].
    exists ([(n, num_read); (1, num_read1)] ++ more).
    rewrite E, <- !app_assoc; split; [reflexivity|].
    intros Hok; repeat constructor; auto.
Qed.

(** C3: for every reader, every width and every chunk length: when a raw
    read made by the unsigned variable width read returns fewer bits than
    requested, the read returns false; the signed variable width read, for
    every zigzag exponent, then returns false as well and yields no value.
    The raw reads are those that the traced reader records. *)
Theorem ReadVariableWidth_short_read_fails
    (Rd : Type) (IR : BitReaderInterface Rd)
    (truncate_last : bool) (W C : Z) (r : Rd)
    (ok : bool) (val : Z) (r' : Rd) (log : list (Z * Z)) :
  ReadVariableWidthU truncate_last W C ((r, []) : Traced Rd) = (ok, val, (r', log)) ->
  Exists short_read log ->
  ok = false
  /\ ReadVariableWidthU truncate_last W C r = (false, val, r')
  /\ forall zigzag_exponent,
       ReadVariableWidthS truncate_last W C zigzag_exponent r = Some (false, 0, r').
Proof.
  intros Hrun Hshort.
  destruct (traced_read_loop Rd IR truncate_last W C (Z.to_nat W) 0 0 r [])
    as [more [E Hmore]].
  fold (ReadVariableWidthU truncate_last W C ((r, []) : Traced Rd)) in E.
  fold (ReadVariableWidthU truncate_last W C r) in E, Hmore.
  rewrite Hrun in E; cbn [app] in E.
  destruct (ReadVariableWidthU truncate_last W C r) as [[ok0 val0] r0] eqn:E0.
  cbn [fst snd] in E, Hmore.
  injection E as -> -> -> ->.
  assert (Hok : ok0 = false).
  { destruct ok0; [|reflexivity].
    exfalso; exact (full_read_not_short more (Hmore eq_refl) Hshort). }
  subst ok0; split; [reflexivity|].
  split; [reflexivity|].
  intros k; unfold ReadVariableWidthS; rewrite E0; reflexivity.
Qed.

Lemma ReadVariableWidth_short_read_fails_witness :
  ReadVariableWidthU8 true 4 (bits_of_stream "1111111") = (false, 15, []).
Proof.
  apply (ReadVariableWidth_short_read_fails (list bool) BitSeqReader true 8 4
           (bits_of_stream "1111111") false 15 [] [(4, 4); (1, 1); (4, 2)]).
  - reflexivity.
  - right; right; left; unfold short_read; simpl; lia.
Defined.

(** ** The word-packed writer and reader keep the contract of the raw
    operations *)

Lemma lower_bits_nth (x n : Z) (k : nat) :
  (k < Z.to_nat n)%nat -> nth k (lower_bits x n) false = Z.testbit x (Z.of_nat k).
Proof.
  intros Hk; unfold lower_bits.
  rewrite nth_indep with (d' := Z.testbit x (Z.of_nat 0))
    by (rewrite length_map, length_seq; exact Hk).
  rewrite (map_nth (fun i => Z.testbit x (Z.of_nat i))), seq_nth by exact Hk.
  reflexivity.
Qed.

Lemma buffer_bits_length (buffer : list Z) :
  length (buffer_bits buffer) = (64 * length buffer)%nat.
Proof.
  unfold buffer_bits; induction buffer as [|x buffer IH]; [reflexivity|].
  cbn [flat_map]; rewrite length_app, lower_bits_length, IH.
  change (Z.to_nat 64) with 64%nat; cbn [length]; lia.
Qed.

Lemma buffer_bit_nil (i : Z) : buffer_bit [] i = false.
Proof.
  unfold buffer_bit; destruct (Z.to_nat (i / 64)); apply Z.testbit_0_l.
Qed.

Lemma buffer_bit_cons (x : Z) (buffer : list Z) (i : Z) :
  0 <= i ->
  buffer_bit (x :: buffer) i
  = if i <? 64 then Z.testbit x i else buffer_bit buffer (i - 64).
Proof.
  intros Hi; unfold buffer_bit.
  destruct (Z.ltb_spec i 64).
  - rewrite Z.div_small, Z.mod_small by lia; reflexivity.
  - replace (i / 64) with ((i - 64) / 64 + 1) by (Z.div_mod_to_equations; lia).
    replace (i mod 64) with ((i - 64) mod 64) by (Z.div_mod_to_equations; lia).
    rewrite Z2Nat.inj_add by (try apply Z.div_pos; lia).
    rewrite Nat.add_comm; reflexivity.
Qed.

Lemma buffer_bits_nth (buffer : list Z) :
  forall k : nat, nth k (buffer_bits buffer) false = buffer_bit buffer (Z.of_nat k).
Proof.
  induction buffer as [|x buffer IH]; intros k.
  - rewrite buffer_bit_nil; destruct k; reflexivity.
  - rewrite buffer_bit_cons by lia.
    change (buffer_bits (x :: buffer)) with (lower_bits x 64 ++ buffer_bits buffer).
    destruct (Z.ltb_spec (Z.of_nat k) 64).
    + rewrite app_nth1 by (rewrite lower_bits_length; lia).
      apply lower_bits_nth; lia.
    + rewrite app_nth2 by (rewrite lower_bits_length; lia).
      rewrite lower_bits_length, IH.
      f_equal; lia.
Qed.

Lemma buffer_bit_beyond (buffer : list Z) (i : Z) :
  64 * Z.of_nat (length buffer) <= i -> buffer_bit buffer i = false.
Proof.
  intros Hi; unfold buffer_bit.
  rewrite nth_overflow; [apply Z.testbit_0_l|].
  assert (Z.of_nat (length buffer) <= i / 64) by (Z.div_mod_to_equations; lia).
  lia.
Qed.

Lemma testbit_bits_value (l : list bool) :
  forall k : nat, Z.testbit (bits_value l) (Z.of_nat k) = nth k l false.
Proof.
  induction l as [|b l IH]; intros k.
  - cbn [bits_value]; rewrite Z.testbit_0_l; destruct k; reflexivity.
  - cbn [bits_value]; rewrite Z.add_comm.
    destruct k as [|k]; cbn [nth].
    + apply Z.testbit_0_r.
    + rewrite Nat2Z.inj_succ, Z.testbit_succ_r by lia; apply IH.
Qed.

Lemma or_word_at_nth (k : nat) (v : Z) (buffer : list Z) :
  forall j : nat,
    nth j (or_word_at k v buffer) 0
    = if (j =? k)%nat && (k <? length buffer)%nat
      then Z.lor (nth j buffer 0) v else nth j buffer 0.
Proof.
  revert k; induction buffer as [|x buffer IH]; intros k j.
  - cbn [or_word_at length]; destruct k, j, (_ =? _)%nat; reflexivity.
  - destruct k as [|k], j as [|j]; cbn [or_word_at nth]; try reflexivity.
    rewrite IH; cbn [length]; reflexivity.
Qed.

Lemma buffer_bit_or_word_at (k : nat) (v : Z) (buffer : list Z) (i : Z) :
  0 <= i ->
  buffer_bit (or_word_at k v buffer) i
  = buffer_bit buffer i
    || ((i / 64 =? Z.of_nat k) && (Z.of_nat k <? Z.of_nat (length buffer))
        && Z.testbit v (i mod 64)).
Proof.
  intros Hi; unfold buffer_bit; rewrite or_word_at_nth.
  assert (Hq : 0 <= i / 64) by (apply Z.div_pos; lia).
  destruct (Nat.eqb_spec (Z.to_nat (i / 64)) k), (Z.eqb_spec (i / 64) (Z.of_nat k));
    try lia; cbn [andb]; [|rewrite orb_false_r; reflexivity].
  destruct (Nat.ltb_spec k (length buffer)), (Z.ltb_spec (Z.of_nat k) (Z.of_nat (length buffer)));
    try lia; cbn [andb]; [|rewrite orb_false_r; reflexivity].
  apply Z.lor_spec.
Qed.

Lemma buffer_bit_app_zero (buffer : list Z) (i : Z) :
  buffer_bit (buffer ++ [0]) i = buffer_bit buffer i.
Proof.
  unfold buffer_bit.
  destruct (Nat.lt_ge_cases (Z.to_nat (i / 64)) (length buffer)).
  - rewrite app_nth1 by assumption; reflexivity.
  - rewrite app_nth2, (nth_overflow buffer) by assumption.
    destruct (Z.to_nat (i / 64) - length buffer)%nat as [|[|?]]; reflexivity.
Qed.

Lemma testbit_masked (bits n t : Z) :
  0 <= n ->
  Z.testbit (Z.land bits (Z.ones n)) t = (0 <=? t) && (t <? n) && Z.testbit bits t.
Proof.
  intros Hn; rewrite Z.land_ones by lia.
  destruct (Z.leb_spec 0 t); cbn [andb].
  - apply testbit_mod_pow2; lia.
  - apply Z.testbit_neg_r; lia.
Qed.

Ltac bool_cases :=
  repeat match goal with
    | |- context [(?a <? ?b)] => destruct (Z.ltb_spec a b)
    | |- context [(?a <=? ?b)] => destruct (Z.leb_spec a b)
    | |- context [(?a =? ?b)] => destruct (Z.eqb_spec a b)
    end;
  cbn [andb orb negb].

Module BitWriterWord64Laws.
Import BitWriterWord64.

Lemma WriteBits_bit (w : t) (bits n i : Z) :
  valid w -> 0 <= n <= 64 -> 0 <= i ->
  buffer_bit (buffer_ (WriteBits w bits n)) i
  = if i <? end_ w then buffer_bit (buffer_ w) i
    else if i <? end_ w + n then Z.testbit bits (i - end_ w) else false.
Proof.
  intros [[Hend Hlen] Hzero] Hn Hi.
  unfold WriteBits; cbn [buffer_].
  pose proof (ceil_div_spec (end_ w) 64 ltac:(lia)) as Hceil.
  rewrite <- Hlen in Hceil; clear Hlen.
  assert (Hq : Z.of_nat (Z.to_nat (end_ w / 64)) = end_ w / 64)
    by (apply Z2Nat.id, Z.div_pos; lia).
  set (m := Z.land bits (Z.ones n)).
  set (b1 := if 64 * Z.of_nat (length (buffer_ w)) <? end_ w + n
             then buffer_ w ++ [0] else buffer_ w).
  assert (Hb1 : buffer_bit b1 i = buffer_bit (buffer_ w) i).
  { unfold b1; destruct (_ <? _); [apply buffer_bit_app_zero | reflexivity]. }
  assert (Hl1 : Z.of_nat (length b1)
                = Z.of_nat (length (buffer_ w))
                  + (if 64 * Z.of_nat (length (buffer_ w)) <? end_ w + n then 1 else 0)).
  { unfold b1; destruct (_ <? _); rewrite ?length_app; cbn [length]; lia. }
  assert (Hlo : Z.testbit (to_u64 (Z.shiftl m (end_ w mod 64))) (i mod 64)
                = (0 <=? i mod 64 - end_ w mod 64) && (i mod 64 - end_ w mod 64 <? n)
                  && Z.testbit bits (i mod 64 - end_ w mod 64)).
  { unfold to_u64, to_unsigned.
    pose proof (Z.mod_pos_bound i 64 ltac:(lia)).
    pose proof (Z.mod_pos_bound (end_ w) 64 ltac:(lia)).
    rewrite testbit_mod_pow2, Z.shiftl_spec by lia.
    unfold m; rewrite testbit_masked by lia.
    destruct (Z.ltb_spec (i mod 64) 64); [reflexivity | lia]. }
  assert (Hhi : Z.testbit (Z.shiftr m (64 - end_ w mod 64)) (i mod 64)
                = (i mod 64 + (64 - end_ w mod 64) <? n)
                  && Z.testbit bits (i mod 64 + (64 - end_ w mod 64))).
  { pose proof (Z.mod_pos_bound i 64 ltac:(lia)).
    pose proof (Z.mod_pos_bound (end_ w) 64 ltac:(lia)).
    rewrite Z.shiftr_spec by lia.
    unfold m; rewrite testbit_masked by lia.
    destruct (Z.leb_spec 0 (i mod 64 + (64 - end_ w mod 64))); [reflexivity | lia]. }
  assert (Hbit : buffer_bit
            (if 64 <? end_ w mod 64 + n
             then or_word_at (S (Z.to_nat (end_ w / 64))) (Z.shiftr m (64 - end_ w mod 64))
                    (or_word_at (Z.to_nat (end_ w / 64))
                       (to_u64 (Z.shiftl m (end_ w mod 64))) b1)
             else or_word_at (Z.to_nat (end_ w / 64))
                    (to_u64 (Z.shiftl m (end_ w mod 64))) b1) i
          = buffer_bit (buffer_ w) i
            || ((i / 64 =? end_ w / 64) && (end_ w / 64 <? Z.of_nat (length b1))
                && Z.testbit (to_u64 (Z.shiftl m (end_ w mod 64))) (i mod 64))
            || ((64 <? end_ w mod 64 + n) && (i / 64 =? end_ w / 64 + 1)
                && (end_ w / 64 + 1 <? Z.of_nat (length b1))
                && Z.testbit (Z.shiftr m (64 - end_ w mod 64)) (i mod 64))).
  { destruct (64 <? end_ w mod 64 + n); cbn [andb].
    - rewrite !buffer_bit_or_word_at, BitWriterWord64Facts.or_word_at_length, Hb1 by lia.
      rewrite Nat2Z.inj_succ, Hq; unfold Z.succ; reflexivity.
    - rewrite buffer_bit_or_word_at, Hb1, Hq, orb_false_r by lia; reflexivity. }
  rewrite Hbit, Hlo, Hhi, Hl1; clear Hbit Hlo Hhi Hl1 Hb1 Hq.
  clearbody m b1.
  assert (Hz : end_ w <= i -> buffer_bit (buffer_ w) i = false) by (intros; apply Hzero; lia).
  pose proof (Z.div_mod i 64 ltac:(lia)) as Hi64.
  pose proof (Z.mod_pos_bound i 64 ltac:(lia)) as Hj.
  pose proof (Z.div_mod (end_ w) 64 ltac:(lia)) as He64.
  pose proof (Z.mod_pos_bound (end_ w) 64 ltac:(lia)) as Ho.
  set (c := i / 64) in *; set (j := i mod 64) in *.
  set (q := end_ w / 64) in *; set (o := end_ w mod 64) in *.
  set (L := Z.of_nat (length (buffer_ w))) in *.
  destruct (Z.ltb_spec (64 * L) (end_ w + n)) as [Hgrow|Hfits];
  destruct (Z.ltb_spec i (end_ w)) as [Hlt|Hge].
  all: try (destruct (buffer_bit (buffer_ w) i); [reflexivity|];
            bool_cases; try reflexivity; lia).
  all: rewrite (Hz Hge);
    destruct (Z.ltb_spec i (end_ w + n)) as [Hin|Hout];
    [|bool_cases; try reflexivity; lia].
  all: destruct (Z.eq_dec c q) as [Hc|Hc];
    [ replace (j - o) with (i - end_ w) by lia;
      replace (j + (64 - o)) with (i - end_ w + 64) by lia
    | replace (j + (64 - o)) with (i - end_ w) by lia ];
    destruct (Z.testbit bits (i - end_ w));
    bool_cases; try reflexivity; lia.
Qed.

End BitWriterWord64Laws.

Module BitWriterWord64Contract.
Import BitWriterWord64.

Lemma written_length (w : t) :
  sized w -> length (written w) = Z.to_nat (end_ w).
Proof.
  intros [Hend Hlen]; unfold written.
  pose proof (ceil_div_spec (end_ w) 64 ltac:(lia)) as Hc.
  rewrite length_firstn, buffer_bits_length; lia.
Qed.

Lemma written_nth (w : t) (k : nat) :
  nth k (written w) false
  = if Z.of_nat k <? end_ w then buffer_bit (buffer_ w) (Z.of_nat k) else false.
Proof.
  unfold written; rewrite nth_firstn, buffer_bits_nth.
  destruct (Nat.ltb_spec k (Z.to_nat (end_ w))), (Z.ltb_spec (Z.of_nat k) (end_ w));
    try reflexivity; lia.
Qed.

Lemma Word64_WriteBits_valid (w : t) (bits n : Z) :
  valid w -> 0 <= n <= 64 -> valid (WriteBits w bits n).
Proof.
  intros Hw Hn; split.
  - apply BitWriterWord64Facts.WriteBits_sized; [apply Hw | exact Hn].
  - intros i Hi.
    assert (Hend : 0 <= end_ w) by apply Hw.
    change (end_ (WriteBits w bits n)) with (end_ w + n) in Hi.
    rewrite BitWriterWord64Laws.WriteBits_bit by (try assumption; lia).
    destruct (Z.ltb_spec i (end_ w)); [lia|].
    destruct (Z.ltb_spec i (end_ w + n)); [lia | reflexivity].
Qed.

Lemma Word64_WriteBits_written (w : t) (bits n : Z) :
  valid w -> 0 <= n <= 64 ->
  written (WriteBits w bits n) = written w ++ lower_bits bits n.
Proof.
  intros Hw Hn.
  pose proof (Word64_WriteBits_valid w bits n Hw Hn) as Hw'.
  assert (Hend : 0 <= end_ w) by apply Hw.
  apply nth_ext with (d := false) (d' := false).
  - rewrite length_app, !written_length, lower_bits_length by (apply Hw || apply Hw').
    change (end_ (WriteBits w bits n)) with (end_ w + n); lia.
  - intros k Hk.
    rewrite written_length in Hk by apply Hw'.
    change (end_ (WriteBits w bits n)) with (end_ w + n) in Hk.
    rewrite written_nth.
    change (end_ (WriteBits w bits n)) with (end_ w + n).
    destruct (Z.ltb_spec (Z.of_nat k) (end_ w + n)); [|lia].
    rewrite BitWriterWord64Laws.WriteBits_bit by (try assumption; lia).
    destruct (Z.ltb_spec (Z.of_nat k) (end_ w)).
    + rewrite app_nth1 by (rewrite written_length by apply Hw; lia).
      rewrite written_nth.
      destruct (Z.ltb_spec (Z.of_nat k) (end_ w)); [reflexivity | lia].
    + rewrite app_nth2 by (rewrite written_length by apply Hw; lia).
      rewrite written_length by apply Hw.
      destruct (Z.ltb_spec (Z.of_nat k) (end_ w + n)); [|lia].
      rewrite lower_bits_nth by lia.
      f_equal; lia.
Qed.

Lemma empty_valid : valid empty.
Proof.
  split; [split; simpl; [lia | reflexivity]|].
  intros i _; apply buffer_bit_nil.
Qed.

Lemma reachable_valid (w : t) : reachable w -> valid w.
Proof.
  induction 1; [apply empty_valid | apply Word64_WriteBits_valid; assumption].
Qed.

(** The word-packed writer keeps the contract of [WriteBits]. *)
Lemma writer_laws : BitWriterLaws t valid written.
Proof.
  split; [exact Word64_WriteBits_valid | exact Word64_WriteBits_written].
Qed.

End BitWriterWord64Contract.

Lemma testbit_unsigned_high (w x i : Z) :
  is_unsigned w x -> w <= i -> Z.testbit x i = false.
Proof.
  intros Hx Hi; unfold is_unsigned in Hx.
  destruct (Z.lt_ge_cases w 0) as [Hneg|Hw].
  - rewrite Z.pow_neg_r in Hx by exact Hneg; lia.
  - rewrite <- (Z.mod_small x (2 ^ w)) by exact Hx.
    apply Z.mod_pow2_bits_high; lia.
Qed.

Lemma nth_unsigned (w : Z) (buffer : list Z) (k : nat) :
  0 <= w -> Forall (is_unsigned w) buffer -> is_unsigned w (nth k buffer 0).
Proof.
  intros Hw Hall.
  assert (Hzero : is_unsigned w 0) by (split; [lia | apply pow2_pos; exact Hw]).
  revert k; induction Hall as [|x l Hx _ IH]; intros [|k]; cbn [nth]; auto.
Qed.

Module BitReaderWord64Contract.
Import BitReaderWord64.

Lemma unread_length (r : t) :
  0 <= pos_ r <= capacity r ->
  Z.of_nat (length (unread r)) = capacity r - pos_ r.
Proof.
  intros Hpos; unfold unread, capacity in *.
  rewrite length_skipn, buffer_bits_length; lia.
Qed.

Lemma unread_nth (r : t) (k : nat) :
  0 <= pos_ r -> nth k (unread r) false = buffer_bit (buffer_ r) (pos_ r + Z.of_nat k).
Proof.
  intros Hpos; unfold unread.
  rewrite nth_skipn, buffer_bits_nth; f_equal; lia.
Qed.

(** The bits that a raw read produces are those of the buffer from the
    position on. *)
Lemma ReadBits_value_bit (r : t) (n i : Z) :
  valid r -> 0 <= n <= 64 -> 0 <= i ->
  Z.testbit (fst (fst (ReadBits r n))) i
  = (i <? n) && (pos_ r + i <? capacity r) && buffer_bit (buffer_ r) (pos_ r + i).
Proof.
  intros [Hpos Hwords] Hn Hi.
  unfold ReadBits; cbn [fst].
  pose proof (Z.div_mod (pos_ r) 64 ltac:(lia)) as Hp64.
  pose proof (Z.mod_pos_bound (pos_ r) 64 ltac:(lia)) as Ho.
  assert (Hq : 0 <= pos_ r / 64) by (apply Z.div_pos; lia).
  rewrite testbit_masked, Z.lor_spec by lia.
  rewrite Z.shiftr_spec by lia.
  unfold to_u64, to_unsigned; rewrite testbit_mod_pow2, Z.shiftl_spec by lia.
  destruct (Z.leb_spec 0 i); [|lia]; cbn [andb].
  destruct (Z.ltb_spec i n) as [Hin|Hout].
  2: { destruct (Z.ltb_spec i (Z.max 0 (Z.min n (capacity r - pos_ r)))); [lia|reflexivity]. }
  destruct (Z.ltb_spec (pos_ r + i) (capacity r)) as [Hcap|Hbeyond].
  2: { destruct (Z.ltb_spec i (Z.max 0 (Z.min n (capacity r - pos_ r)))); [lia|reflexivity]. }
  destruct (Z.ltb_spec i (Z.max 0 (Z.min n (capacity r - pos_ r)))); [|lia].
  destruct (Z.ltb_spec i 64); [|lia].
  cbn [andb]; unfold buffer_bit.
  destruct (Z.lt_ge_cases (pos_ r mod 64 + i) 64) as [Hsame|Hnext].
  - rewrite (Z.testbit_neg_r _ (i - (64 - pos_ r mod 64))), orb_false_r by lia.
    replace ((pos_ r + i) / 64) with (pos_ r / 64) by (Z.div_mod_to_equations; lia).
    replace ((pos_ r + i) mod 64) with (i + pos_ r mod 64) by (Z.div_mod_to_equations; lia).
    reflexivity.
  - rewrite (testbit_unsigned_high 64 (nth (Z.to_nat (pos_ r / 64)) (buffer_ r) 0))
      by (try apply nth_unsigned; try assumption; lia).
    cbn [orb].
    replace ((pos_ r + i) / 64) with (pos_ r / 64 + 1) by (Z.div_mod_to_equations; lia).
    replace ((pos_ r + i) mod 64) with (i - (64 - pos_ r mod 64))
      by (Z.div_mod_to_equations; lia).
    rewrite Z2Nat.inj_add, Nat.add_comm by lia.
    reflexivity.
Qed.

Lemma ReadBits_value (r : t) (n : Z) :
  valid r -> 0 <= n <= 64 ->
  fst (fst (ReadBits r n)) = bits_value (firstn (Z.to_nat n) (unread r)).
Proof.
  intros Hr Hn.
  assert (Hpos : 0 <= pos_ r <= capacity r) by apply Hr.
  apply Z.bits_inj'; intros i Hi.
  rewrite ReadBits_value_bit by assumption.
  rewrite <- (Z2Nat.id i) at 4 by exact Hi.
  rewrite testbit_bits_value, nth_firstn, unread_nth, Z2Nat.id by lia.
  destruct (Nat.ltb_spec (Z.to_nat i) (Z.to_nat n)), (Z.ltb_spec i n);
    cbn [andb]; try reflexivity; try lia.
  destruct (Z.ltb_spec (pos_ r + i) (capacity r)); cbn [andb]; [reflexivity|].
  symmetry; apply buffer_bit_beyond; unfold capacity in *; lia.
Qed.

(** The word-packed reader keeps the contract of [ReadBits]. *)
Lemma reader_laws : BitReaderLaws t valid unread.
Proof.
  split; intros r n Hr Hn.
  assert (Hpos : 0 <= pos_ r <= capacity r) by apply Hr.
  pose proof (unread_length r Hpos) as Hlen.
  exists (snd (ReadBits r n)).
  assert (Hnum : snd (fst (ReadBits r n))
                 = Z.of_nat (length (firstn (Z.to_nat n) (unread r)))).
  { unfold ReadBits; cbn [fst snd]; rewrite length_firstn; lia. }
  split; [|split].
  - rewrite <- ReadBits_value, <- Hnum by assumption.
    match goal with |- ?lhs = _ => change lhs with (ReadBits r n) end.
    destruct (ReadBits r n) as [[bits num] r']; reflexivity.
  - unfold ReadBits, valid, capacity in *; cbn [snd pos_ buffer_].
    split; [lia | apply Hr].
  - unfold ReadBits, unread in *; cbn [snd pos_ buffer_].
    rewrite skipn_skipn.
    destruct (Z.le_gt_cases n (capacity r - pos_ r)).
    + f_equal; lia.
    + rewrite !skipn_all2; [reflexivity | |];
        rewrite buffer_bits_length; unfold capacity in *; lia.
Qed.

End BitReaderWord64Contract.

(** ** The word-packed writer and reader together *)

Lemma lor_unsigned (w a b : Z) :
  0 <= w -> is_unsigned w a -> is_unsigned w b -> is_unsigned w (Z.lor a b).
Proof.
  intros Hw Ha Hb.
  assert (E : Z.lor a b = Z.lor a b mod 2 ^ w).
  { apply Z.bits_inj'; intros i Hi.
    rewrite testbit_mod_pow2, Z.lor_spec by lia.
    destruct (Z.ltb_spec i w); [reflexivity|].
    rewrite (testbit_unsigned_high w a), (testbit_unsigned_high w b) by assumption.
    reflexivity. }
  unfold is_unsigned; rewrite E.
  apply Z.mod_pos_bound, pow2_pos; exact Hw.
Qed.

Lemma or_word_at_unsigned (k : nat) (v : Z) (buffer : list Z) :
  is_unsigned 64 v -> Forall (is_unsigned 64) buffer ->
  Forall (is_unsigned 64) (or_word_at k v buffer).
Proof.
  intros Hv Hall; revert k; induction Hall as [|x l Hx Hl IH]; intros [|k];
    cbn [or_word_at]; constructor; auto.
  apply lor_unsigned; [lia | assumption | assumption].
Qed.

Lemma WriteBits_words_unsigned (w : BitWriterWord64.t) (bits n : Z) :
  0 <= n <= 64 -> 0 <= BitWriterWord64.end_ w ->
  Forall (is_unsigned 64) (BitWriterWord64.buffer_ w) ->
  Forall (is_unsigned 64) (BitWriterWord64.buffer_ (BitWriterWord64.WriteBits w bits n)).
Proof.
  intros Hn Hend Hall; unfold BitWriterWord64.WriteBits; cbn [BitWriterWord64.buffer_].
  set (m := Z.land bits (Z.ones n)).
  assert (Hm : 0 <= m < 2 ^ 64).
  { unfold m; rewrite Z.land_ones by lia.
    pose proof (Z.mod_pos_bound bits (2 ^ n) (pow2_pos n ltac:(lia))).
    assert (2 ^ n <= 2 ^ 64) by (apply Z.pow_le_mono_r; lia).
    lia. }
  assert (Hb1 : Forall (is_unsigned 64)
                  (if 64 * Z.of_nat (length (BitWriterWord64.buffer_ w))
                      <? BitWriterWord64.end_ w + n
                   then BitWriterWord64.buffer_ w ++ [0] else BitWriterWord64.buffer_ w)).
  { destruct (_ <? _); [|exact Hall].
    apply Forall_app; split; [exact Hall|].
    constructor; [apply is_unsigned_64; lia | constructor]. }
  assert (Hlo : is_unsigned 64 (to_u64 (Z.shiftl m (BitWriterWord64.end_ w mod 64))))
    by (apply to_unsigned_range; lia).
  assert (Hhi : is_unsigned 64 (Z.shiftr m (64 - BitWriterWord64.end_ w mod 64))).
  { pose proof (Z.mod_pos_bound (BitWriterWord64.end_ w) 64 ltac:(lia)) as Ho.
    rewrite Z.shiftr_div_pow2 by lia.
    pose proof (pow2_pos (64 - BitWriterWord64.end_ w mod 64) ltac:(lia)) as Hp.
    split; [apply Z.div_pos; lia|].
    apply Z.le_lt_trans with (m := m); [|lia].
    apply Z.div_le_upper_bound; [lia|nia]. }
  destruct (64 <? _); repeat apply or_word_at_unsigned; assumption.
Qed.

Lemma reachable_words_unsigned (w : BitWriterWord64.t) :
  BitWriterWord64.reachable w -> Forall (is_unsigned 64) (BitWriterWord64.buffer_ w).
Proof.
  induction 1 as [|w bits n Hr IH Hn]; [constructor|].
  apply WriteBits_words_unsigned; [exact Hn | | exact IH].
  apply (BitWriterWord64Facts.reachable_sized w Hr).
Qed.

Lemma WriteVariableWidth_loop_reachable (tl : bool) (fuel : nat) (W C : Z) :
  forall (val emitted : Z) (w : BitWriterWord64.t),
    1 <= C <= 64 -> BitWriterWord64.reachable w ->
    BitWriterWord64.reachable (WriteVariableWidth_loop tl fuel W C val emitted w).
Proof.
  induction fuel as [|fuel IH]; intros val emitted w HC Hw; [exact Hw|].
  cbn [WriteVariableWidth_loop].
  destruct (Z.ltb_spec emitted W) as [Hlt|]; [|exact Hw].
  pose proof (slice_length_range tl W C emitted HC Hlt) as Hn.
  assert (Hw1 : BitWriterWord64.reachable
                  (WriteBits w val (slice_length tl W C emitted)))
    by (apply BitWriterWord64.reachable_write; [exact Hw | lia]).
  destruct (W <=? _); [exact Hw1|].
  destruct (_ =? 0).
  - apply BitWriterWord64.reachable_write; [exact Hw1 | lia].
  - apply IH; [exact HC|].
    apply BitWriterWord64.reachable_write; [exact Hw1 | lia].
Qed.

Lemma ReadVariableWidth_loop_buffer (tl : bool) (fuel : nat) (W C : Z) :
  forall (acc consumed : Z) (r : BitReaderWord64.t),
    BitReaderWord64.buffer_ (snd (ReadVariableWidth_loop tl fuel W C acc consumed r))
    = BitReaderWord64.buffer_ r.
Proof.
  induction fuel as [|fuel IH]; intros acc consumed r; [reflexivity|].
  cbn [ReadVariableWidth_loop].
  destruct (consumed <? W); [|reflexivity].
  cbn [ReadBits BitReaderWord64.interface].
  unfold BitReaderWord64.ReadBits at 1; cbn [BitReaderWord64.buffer_ BitReaderWord64.pos_].
  destruct (negb _); [reflexivity|].
  destruct (W <=? _); [reflexivity|].
  unfold BitReaderWord64.ReadBits at 1; cbn [BitReaderWord64.buffer_ BitReaderWord64.pos_].
  destruct (negb _); [reflexivity|].
  destruct (_ =? 0); [reflexivity|].
  rewrite IH; reflexivity.
Qed.

(** The round trip through the word-packed classes: a value written with a
    variable width after any sequence of raw writes is read back by a reader
    over the buffer of the writer, placed where the value starts; the reader
    ends where the writer ended. *)
Lemma BitWord64_roundtrip (tl : bool) (W C val : Z) (w : BitWriterWord64.t) :
  In W [8; 16; 32; 64] -> 1 <= C <= 64 -> 0 <= val < 2 ^ W ->
  BitWriterWord64.reachable w ->
  exists r',
    ReadVariableWidthU tl W C
      (BitReaderWord64.mk
         (BitWriterWord64.buffer_ (WriteVariableWidthU tl W val C w))
         (BitWriterWord64.end_ w))
    = (true, val, r')
    /\ BitReaderWord64.pos_ r' = BitWriterWord64.end_ (WriteVariableWidthU tl W val C w).
Proof.
  intros HinW HC Hval Hreach.
  pose proof (BitWriterWord64Contract.reachable_valid w Hreach) as Hw.
  assert (HW : 1 <= W) by (simpl in HinW; lia).
  destruct (lawful_roundtrip _ _ _ _ _ _ _ _ tl W C val w
              BitWriterWord64Contract.writer_laws BitReaderWord64Contract.reader_laws
              HW HC Hval Hw) as [encoding [Hs [Hw' Hread]]].
  set (w' := WriteVariableWidthU tl W val C w) in *.
  assert (Hreach' : BitWriterWord64.reachable w')
    by (apply WriteVariableWidth_loop_reachable; assumption).
  destruct Hw as [[Hend Hlen] _], Hw' as [[Hend' Hlen'] _].
  pose proof (ceil_div_spec (BitWriterWord64.end_ w') 64 ltac:(lia)) as Hc'.
  assert (Hlenw : length (BitWriterWord64.written w) = Z.to_nat (BitWriterWord64.end_ w))
    by (apply BitWriterWord64Contract.written_length; split; assumption).
  assert (Hlenw' : length (BitWriterWord64.written w') = Z.to_nat (BitWriterWord64.end_ w'))
    by (apply BitWriterWord64Contract.written_length; split; assumption).
  assert (Hle : BitWriterWord64.end_ w <= BitWriterWord64.end_ w').
  { apply (f_equal (@length bool)) in Hs.
    rewrite length_app, Hlenw, Hlenw' in Hs; lia. }
  set (r := BitReaderWord64.mk (BitWriterWord64.buffer_ w') (BitWriterWord64.end_ w)).
  set (rest := skipn (Z.to_nat (BitWriterWord64.end_ w'))
                 (buffer_bits (BitWriterWord64.buffer_ w'))).
  assert (Hr : BitReaderWord64.valid r).
  { split; [|apply reachable_words_unsigned; exact Hreach'].
    unfold r, BitReaderWord64.capacity; cbn [BitReaderWord64.pos_ BitReaderWord64.buffer_].
    lia. }
  assert (Hu : BitReaderWord64.unread r = encoding ++ rest).
  { unfold BitReaderWord64.unread, r, rest;
      cbn [BitReaderWord64.pos_ BitReaderWord64.buffer_].
    rewrite <- (firstn_skipn (Z.to_nat (BitWriterWord64.end_ w'))
                  (buffer_bits (BitWriterWord64.buffer_ w'))) at 1.
    fold (BitWriterWord64.written w'); rewrite Hs, <- app_assoc, <- Hlenw.
    rewrite skipn_app, skipn_all, Nat.sub_diag; reflexivity. }
  destruct (Hread r rest Hr Hu) as [r' [E [[Hpos' _] Hu']]].
  exists r'; split; [exact E|].
  assert (Hbuf : BitReaderWord64.buffer_ r' = BitWriterWord64.buffer_ w').
  { pose proof (ReadVariableWidth_loop_buffer tl (Z.to_nat W) W C 0 0 r) as Hb.
    fold (ReadVariableWidthU tl W C r) in Hb; rewrite E in Hb; exact Hb. }
  apply (f_equal (@length bool)) in Hu'.
  unfold BitReaderWord64.unread, rest, BitReaderWord64.capacity in *.
  rewrite Hbuf, !length_skipn, buffer_bits_length in *.
  lia.
Qed.

(** ** Decoding a truncated encoding *)

Lemma BitSeq_read_too_few (p : list bool) (n : Z) :
  Z.of_nat (length p) < n ->
  snd (fst (ReadBits p n)) = Z.of_nat (length p).
Proof.
  intros Hlen; cbn [ReadBits BitSeqReader fst snd].
  rewrite firstn_all2 by lia; reflexivity.
Qed.

Lemma prefix_split (lb X p t : list bool) :
  lb ++ X = p ++ t -> (length lb <= length p)%nat ->
  exists p', p = lb ++ p' /\ X = p' ++ t.
Proof.
  intros E Hlen.
  apply app_eq_app in E; destruct E as [l [[E1 E2] | [E1 E2]]].
  - assert (l = []) as ->.
    { apply (f_equal (@length bool)) in E1; rewrite length_app in E1.
      destruct l; [reflexivity | cbn [length] in E1; lia]. }
    exists []; rewrite app_nil_r in E1; subst; rewrite app_nil_r; auto.
  - exists l; auto.
Qed.

Lemma BitSeq_truncated_loop (tl : bool) (W C val0 : Z) (fuel : nat) :
  forall (emitted acc : Z) (p t : list bool),
    1 <= C <= 64 -> 0 <= emitted < W ->
    (Z.to_nat (W - emitted) <= fuel)%nat ->
    WriteVariableWidth_loop tl fuel W C (Z.shiftr val0 emitted) emitted [] = p ++ t ->
    t <> [] ->
    fst (fst (ReadVariableWidth_loop tl fuel W C acc emitted p)) = false.
Proof.
  induction fuel as [|fuel IH]; intros emitted acc p t HC He Hfuel Henc Ht; [lia|].
  cbn [WriteVariableWidth_loop ReadVariableWidth_loop] in *.
  destruct (Z.ltb_spec emitted W) as [_|]; [|lia].
  pose proof (slice_length_range tl W C emitted HC ltac:(lia)) as Hn.
  pose proof (slice_length_reaches tl W C emitted ltac:(lia) ltac:(lia)) as Hreach.
  pose proof (slice_length_inner tl W C emitted) as Hinner.
  set (n := slice_length tl W C emitted) in *.
  cbn [WriteBits BitSeqWriter app] in Henc.
  destruct (Z.lt_ge_cases (Z.of_nat (length p)) n) as [Hfew|Henough].
  { pose proof (BitSeq_read_too_few p n Hfew) as Hnum.
    destruct (ReadBits p n) as [[bits num_read] r1]; cbn [fst snd] in Hnum; subst.
    destruct (Z.eqb_spec (Z.of_nat (length p)) n); [lia | reflexivity]. }
  assert (Hsplit : forall X, lower_bits (Z.shiftr val0 emitted) n ++ X = p ++ t ->
                    exists p', p = lower_bits (Z.shiftr val0 emitted) n ++ p' /\ X = p' ++ t).
  { intros X E; apply prefix_split; [exact E | rewrite lower_bits_length; lia]. }
  destruct (Z.leb_spec W (emitted + n)) as [Hlast|Hmore].
  - rewrite <- (app_nil_r (lower_bits _ n)) in Henc.
    destruct (Hsplit [] Henc) as [p' [_ E]].
    symmetry in E; apply app_eq_nil in E; destruct E as [_ E]; contradiction.
  - assert (HnC : n = C).
    { apply Hinner. symmetry in Hreach. apply Z.leb_gt in Hreach; lia. }
    rewrite Z.shiftr_shiftr in Henc by lia.
    destruct (Z.shiftr val0 (emitted + C) =? 0).
    + change (lower_bits 0 1) with [false] in Henc.
      destruct (Hsplit [false] Henc) as [p' [-> E]].
      rewrite BitSeq_read_slice, Z.eqb_refl by lia; cbn [negb].
      destruct p' as [|b p'].
      * reflexivity.
      * exfalso; injection E as _ E.
        symmetry in E; apply app_eq_nil in E; destruct E as [_ E]; contradiction.
    + change (lower_bits 1 1) with [true] in Henc.
      rewrite BitSeq_write_loop_app, <- app_assoc in Henc.
      destruct (Hsplit _ Henc) as [p' [-> E]].
      rewrite BitSeq_read_slice, Z.eqb_refl by lia; cbn [negb].
      destruct p' as [|b p'].
      * reflexivity.
      * cbn [app] in E; injection E as <- E.
        rewrite BitSeq_read_bit; cbn [Z.b2z Z.eqb negb].
        rewrite HnC in *.
        apply (IH (emitted + C) _ p' t); try assumption; lia.
Qed.

(** A reader that holds only a proper part of an encoding reports failure:
    "decoding a truncated stream (fewer bits available than the encoding
    requires) reports failure". *)
Lemma ReadVariableWidth_truncated_fails (tl : bool) (W C val : Z) (p t : list bool) :
  1 <= W -> 1 <= C <= 64 ->
  WriteVariableWidthU tl W val C [] = p ++ t -> t <> [] ->
  fst (fst (ReadVariableWidthU tl W C p)) = false.
Proof.
  intros HW HC Henc Ht; unfold ReadVariableWidthU, WriteVariableWidthU in *.
  apply (BitSeq_truncated_loop tl W C val (Z.to_nat W) 0 0 p t); try assumption; lia.
Qed.

(** ** The bounds on the number of iterations are never reached *)

(** With a chunk length of at least 1 the loops of the variable width
    operations end by themselves: more iterations than [W - emitted] change
    nothing. *)
Lemma WriteVariableWidth_loop_fuel
    (Wr : Type) (IW : BitWriterInterface Wr) (tl : bool) (W C : Z) (fuel : nat) :
  forall (fuel' : nat) (val emitted : Z) (w : Wr),
    1 <= C -> (Z.to_nat (W - emitted) <= fuel)%nat -> (fuel <= fuel')%nat ->
    WriteVariableWidth_loop tl fuel' W C val emitted w
    = WriteVariableWidth_loop tl fuel W C val emitted w.
Proof.
  induction fuel as [|fuel IH]; intros fuel' val emitted w HC Hfuel Hle.
  - destruct fuel' as [|fuel']; [reflexivity|].
    cbn [WriteVariableWidth_loop].
    destruct (Z.ltb_spec emitted W); [lia | reflexivity].
  - destruct fuel' as [|fuel']; [lia|].
    cbn [WriteVariableWidth_loop].
    destruct (Z.ltb_spec emitted W); [|reflexivity].
    destruct (W <=? _); [reflexivity|].
    destruct (_ =? 0); [reflexivity|].
    apply IH; [exact HC | | lia].
    unfold slice_length; destruct tl; lia.
Qed.

Lemma ReadVariableWidth_loop_fuel
    (Rd : Type) (IR : BitReaderInterface Rd) (tl : bool) (W C : Z) (fuel : nat) :
  forall (fuel' : nat) (acc consumed : Z) (r : Rd),
    1 <= C -> (Z.to_nat (W - consumed) <= fuel)%nat -> (fuel <= fuel')%nat ->
    ReadVariableWidth_loop tl fuel' W C acc consumed r
    = ReadVariableWidth_loop tl fuel W C acc consumed r.
Proof.
  induction fuel as [|fuel IH]; intros fuel' acc consumed r HC Hfuel Hle.
  - destruct fuel' as [|fuel']; [reflexivity|].
    cbn [ReadVariableWidth_loop].
    destruct (Z.ltb_spec consumed W); [lia | reflexivity].
  - destruct fuel' as [|fuel']; [lia|].
    cbn [ReadVariableWidth_loop].
    destruct (Z.ltb_spec consumed W); [|reflexivity].
    destruct (ReadBits r _) as [[bits num_read] r1].
    destruct (negb _); [reflexivity|].
    destruct (W <=? _); [reflexivity|].
    destruct (ReadBits r1 1) as [[more_to_come num_read1] r2].
    destruct (negb _); [reflexivity|].
    destruct (_ =? 0); [reflexivity|].
    apply IH; [exact HC | | lia].
    unfold slice_length; destruct tl; lia.
Qed.

(** The first loop of [StreamToBuffer] ends by itself after
    [index / word_size + 1] iterations, which [index + 1] bounds. *)
Lemma StreamToBuffer_loop_fuel (W : Z) (str : Stream) (word_size : Z) (fuel : nat) :
  forall (fuel' : nat) (index : Z) (buffer : list Z),
    1 <= word_size <= INT_MAX -> index <= INT_MAX ->
    (Z.to_nat (index + 1) <= fuel)%nat -> (fuel <= fuel')%nat ->
    StreamToBuffer_loop fuel' W str word_size index buffer
    = StreamToBuffer_loop fuel W str word_size index buffer.
Proof.
  assert (HI : INT_MAX = 2147483647) by reflexivity.
  induction fuel as [|fuel IH]; intros fuel' index buffer Hws Hidx Hfuel Hle.
  - destruct fuel' as [|fuel']; [reflexivity|].
    cbn [StreamToBuffer_loop].
    destruct (Z.leb_spec 0 index); [lia | reflexivity].
  - destruct fuel' as [|fuel']; [lia|].
    cbn [StreamToBuffer_loop].
    destruct (Z.leb_spec 0 index); [|reflexivity].
    destruct (bitset_of_string _ _ _ _); [|reflexivity].
    cbn [bind].
    rewrite to_int_small by (change (2 ^ 31) with 2147483648; lia).
    apply IH; lia.
Qed.

Lemma StreamToBuffer_index_bound (W len : Z) :
  1 <= W <= 64 -> 0 <= len ->
  to_int (to_int len - to_int W) <= len /\ to_int (to_int len - to_int W) <= INT_MAX.
Proof.
  intros HW Hlen.
  unfold INT_MAX, to_int, to_signed; change (32 - 1) with 31.
  change (2 ^ 31) with 2147483648; change (2 ^ 32) with 4294967296.
  Z.div_mod_to_equations; lia.
Qed.

(** The bound that [StreamToBuffer] gives to its first loop is enough for
    every string. *)
Lemma StreamToBuffer_fuel (W : Z) (str : Stream) (fuel' : nat) :
  1 <= W <= 64 -> (S (length str) <= fuel')%nat ->
  StreamToBuffer_loop fuel' W str (to_int W)
    (to_int (to_int (size str) - to_int W)) []
  = StreamToBuffer_loop (S (length str)) W str (to_int W)
      (to_int (to_int (size str) - to_int W)) [].
Proof.
  intros HW Hfuel.
  destruct (StreamToBuffer_index_bound W (size str) HW ltac:(unfold size; lia)) as [Hlen Hmax].
  apply StreamToBuffer_loop_fuel; try assumption.
  - rewrite (to_int_small W) by (unfold INT_MAX; change (2 ^ 31) with 2147483648; lia).
    unfold INT_MAX; change (2 ^ 31) with 2147483648; lia.
  - unfold size in *; lia.
Qed.

(** * Further properties of the header *)

(** ** ZigZag codec: the other direction, and the size of the codes *)

Lemma DecodeZigZag_signed (u : Z) : is_unsigned 64 u -> is_signed 64 (DecodeZigZag u).
Proof.
  intros Hu; rewrite DecodeZigZag_arith by exact Hu.
  apply -> is_unsigned_64 in Hu; apply is_signed_64.
  destruct (u mod 2 =? 1); Z.div_mod_to_equations; lia.
Qed.

(** X1: every unsigned 64-bit value is the code of the signed value that
    [DecodeZigZag] gives for it: [EncodeZigZag(DecodeZigZag(u)) == u]; the
    same holds for the block variant with every exponent from 0 to 63. *)
Theorem ZigZag_decode_encode (u k : Z) :
  is_unsigned 64 u -> 0 <= k <= 63 ->
  is_signed 64 (DecodeZigZag u)
  /\ EncodeZigZag (DecodeZigZag u) = u
  /\ exists v,
       DecodeZigZagBlock u k = Some v
       /\ is_signed 64 v
       /\ EncodeZigZagBlock v k = Some u.
Proof.
  intros Hu Hk.
  pose proof (DecodeZigZag_signed u Hu) as Hs.
  split; [exact Hs|]; split.
  - rewrite EncodeZigZag_arith by exact Hs.
    rewrite DecodeZigZag_arith by exact Hu.
    apply -> is_unsigned_64 in Hu.
    destruct (Z.eqb_spec (u mod 2) 1);
      match goal with |- context [0 <=? ?x] => destruct (Z.leb_spec 0 x) end;
      Z.div_mod_to_equations; lia.
  - destruct (DecodeZigZagBlock_arith u k Hu Hk) as [Hdec Hrange].
    pose proof (pow2_pos k ltac:(lia)) as Hp.
    pose proof (Z.mod_pos_bound u (2 ^ k) Hp) as Hpos.
    pose proof (Z.div_mod u (2 ^ k) ltac:(lia)) as Hu_dm.
    pose proof (Z.div_mod (u / 2 ^ k) 2 ltac:(lia)) as Hbn_dm.
    pose proof (Z.mod_pos_bound (u / 2 ^ k) 2 ltac:(lia)) as Hbn_m.
    set (bn := u / 2 ^ k) in *.
    set (pos := u mod 2 ^ k) in *.
    set (half := bn / 2) in *.
    set (v := if bn mod 2 =? 1 then -1 - half * 2 ^ k - pos else half * 2 ^ k + pos) in *.
    assert (Hv : is_signed 64 v).
    { apply is_signed_64; change (2 ^ 63) with 9223372036854775808 in Hrange.
      unfold v; destruct (bn mod 2 =? 1); lia. }
    exists v; split; [exact Hdec|]; split; [exact Hv|].
    destruct (EncodeZigZagBlock_arith v k Hv Hk) as [-> _].
    assert (Hmag : magnitude v = half * 2 ^ k + pos).
    { unfold magnitude, v; destruct (bn mod 2 =? 1);
        match goal with |- context [0 <=? ?x] => destruct (Z.leb_spec 0 x) end; lia. }
    assert (Hsign : sign_bit v = bn mod 2).
    { unfold sign_bit, v; destruct (Z.eqb_spec (bn mod 2) 1);
        match goal with |- context [0 <=? ?x] => destruct (Z.leb_spec 0 x) end; lia. }
    rewrite Hmag, Hsign.
    assert (Hd : (half * 2 ^ k + pos) / 2 ^ k = half)
      by (symmetry; apply Z.div_unique with (r := pos); lia).
    assert (Hm : (half * 2 ^ k + pos) mod 2 ^ k = pos)
      by (symmetry; apply Z.mod_unique with (q := half); lia).
    rewrite Hd, Hm; f_equal.
    replace (2 * half + bn mod 2) with bn by lia.
    lia.
Qed.

Lemma ZigZag_decode_encode_witness :
  EncodeZigZag (DecodeZigZag 11) = 11
  /\ exists v, DecodeZigZagBlock 11 2 = Some v /\ EncodeZigZagBlock v 2 = Some 11.
Proof.
  destruct (ZigZag_decode_encode 11 2) as [_ [H1 [v [H2 [_ H3]]]]];
    [apply is_unsigned_64; lia | lia |].
  split; [exact H1 | exists v; split; assumption].
Defined.

(** X2: [EncodeZigZag] gives small codes to values of small magnitude: for
    [n] from 0 to 62 the code of a signed 64-bit [v] is below [2^(n+1)]
    exactly when [-2^n <= v < 2^n]. *)
Theorem EncodeZigZag_small_magnitude (v n : Z) :
  is_signed 64 v -> 0 <= n <= 62 ->
  (- 2 ^ n <= v < 2 ^ n <-> EncodeZigZag v < 2 ^ (n + 1)).
Proof.
  intros Hv Hn.
  rewrite EncodeZigZag_arith by exact Hv.
  rewrite Z.pow_add_r by lia; change (2 ^ 1) with 2.
  pose proof (pow2_pos n ltac:(lia)).
  destruct (Z.leb_spec 0 v); lia.
Qed.

Lemma EncodeZigZag_small_magnitude_witness :
  EncodeZigZag (-8) < 2 ^ (3 + 1) /\ ~ EncodeZigZag 8 < 2 ^ (3 + 1).
Proof.
  split.
  - refine (proj1 (EncodeZigZag_small_magnitude (-8) 3 _ _) _);
      [apply is_signed_64; lia | lia | change (2 ^ 3) with 8; lia].
  - intros H.
    refine (_ (proj2 (EncodeZigZag_small_magnitude 8 3 _ _) H));
      [change (2 ^ 3) with 8; lia | apply is_signed_64; lia | lia].
Defined.

(** X3: the block encoding works on blocks of [2^k] values ("designed to
    favor small positive numbers"): it leaves the values of the first block,
    [0 <= v < 2^k], as they are, and sends the negative values of the first
    block, [-2^k <= v < 0], to the second block in the order -1, -2, ...:
    their code is [2^k + (-v - 1)]. *)
Theorem EncodeZigZagBlock_first_blocks (v k : Z) :
  0 <= k <= 62 -> - 2 ^ k <= v < 2 ^ k ->
  EncodeZigZagBlock v k = Some (if 0 <=? v then v else 2 ^ k + (- v - 1)).
Proof.
  intros Hk Hv.
  pose proof (pow2_pos k ltac:(lia)) as Hp.
  assert (Hle : 2 ^ k <= 2 ^ 62) by (apply Z.pow_le_mono_r; lia).
  assert (Hs : is_signed 64 v).
  { apply is_signed_64; change (2 ^ 62) with 4611686018427387904 in Hle; lia. }
  destruct (EncodeZigZagBlock_arith v k Hs ltac:(lia)) as [-> _].
  f_equal; unfold magnitude, sign_bit.
  destruct (Z.leb_spec 0 v).
  - rewrite Z.div_small, Z.mod_small by lia; lia.
  - rewrite Z.div_small, Z.mod_small by lia; lia.
Qed.

Lemma EncodeZigZagBlock_first_blocks_witness :
  EncodeZigZagBlock 3 2 = Some 3 /\ EncodeZigZagBlock (-3) 2 = Some 6.
Proof.
  split.
  - apply (EncodeZigZagBlock_first_blocks 3 2); change (2 ^ 2) with 4; lia.
  - apply (EncodeZigZagBlock_first_blocks (-3) 2); change (2 ^ 2) with 4; lia.
Defined.

(** ** Streams of single values *)

Lemma is_bit_char_bit_char (b : bool) : is_bit_char (bit_char b) = true.
Proof. destruct b; reflexivity. Qed.

Lemma char_bit_bit_char (b : bool) : char_bit (bit_char b) = b.
Proof. destruct b; reflexivity. Qed.

Lemma bit_char_char_bit (c : ascii) : is_bit_char c = true -> bit_char (char_bit c) = c.
Proof.
  unfold is_bit_char, char_bit, bit_char; intros Hc.
  destruct (Ascii.eqb_spec c "1") as [E1|H1]; [symmetry; exact E1|].
  destruct (Ascii.eqb_spec c "0") as [E0|H0]; [symmetry; exact E0 | discriminate].
Qed.

Lemma valid_stream_map_bit_char (l : list bool) : valid_stream (map bit_char l) = true.
Proof.
  unfold valid_stream; induction l as [|b l IH]; [reflexivity|].
  cbn [map forallb]; rewrite is_bit_char_bit_char, IH; reflexivity.
Qed.

Lemma map_char_bit_bit_char (l : list bool) : map char_bit (map bit_char l) = l.
Proof.
  induction l as [|b l IH]; [reflexivity|].
  cbn [map]; rewrite char_bit_bit_char, IH; reflexivity.
Qed.

Lemma map_bit_char_char_bit (s : Stream) :
  valid_stream s = true -> map bit_char (map char_bit s) = s.
Proof.
  unfold valid_stream; induction s as [|c s IH]; [reflexivity|].
  cbn [map forallb]; intros H; apply andb_true_iff in H; destruct H as [Hc Hs].
  rewrite bit_char_char_bit, IH by assumption; reflexivity.
Qed.

Lemma valid_stream_app (s t : Stream) :
  valid_stream (s ++ t) = valid_stream s && valid_stream t.
Proof. apply forallb_app. Qed.

Lemma bitset_parse_app (m1 m2 : Stream) :
  forall acc, bitset_parse (m1 ++ m2) acc = bind (bitset_parse m1 acc) (bitset_parse m2).
Proof.
  induction m1 as [|c m1 IH]; intros acc; [reflexivity|].
  cbn [app bitset_parse].
  destruct (Ascii.eqb c "0"); [apply IH|].
  destruct (Ascii.eqb c "1"); [apply IH | reflexivity].
Qed.

(** The characters of a stream read by [std::bitset] after the reversal:
    the first character of the stream is the lowest bit, and a character
    other than '0' and '1' throws. *)
Lemma bitset_parse_rev (s : Stream) :
  bitset_parse (rev s) 0
  = if valid_stream s then Some (bits_value (map char_bit s)) else None.
Proof.
  unfold valid_stream; induction s as [|c s IH]; [reflexivity|].
  cbn [rev map forallb bits_value]; rewrite bitset_parse_app, IH.
  destruct (forallb is_bit_char s); [|rewrite andb_false_r; reflexivity].
  rewrite andb_true_r; cbn [bind bitset_parse].
  unfold is_bit_char, char_bit.
  destruct (Ascii.eqb_spec c "0") as [E0|H0].
  - subst c; cbn [Ascii.eqb Bool.eqb orb Z.b2z]; unfold ret; f_equal; lia.
  - destruct (Ascii.eqb c "1"); cbn [orb Z.b2z]; [unfold ret; f_equal; lia | reflexivity].
Qed.

Lemma bits_value_range (l : list bool) : 0 <= bits_value l < 2 ^ Z.of_nat (length l).
Proof.
  induction l as [|b l IH]; [simpl; lia|].
  cbn [bits_value length]; rewrite Nat2Z.inj_succ, Z.pow_succ_r by lia.
  destruct b; cbn [Z.b2z]; lia.
Qed.

Lemma lower_bits_bits_value (l : list bool) (n : Z) :
  Z.of_nat (length l) <= n ->
  lower_bits (bits_value l) n = l ++ repeat false (Z.to_nat n - length l).
Proof.
  intros Hn.
  apply nth_ext with (d := false) (d' := false).
  - rewrite lower_bits_length, length_app, repeat_length; lia.
  - intros k Hk; rewrite lower_bits_length in Hk.
    rewrite lower_bits_nth, testbit_bits_value by exact Hk.
    destruct (Nat.lt_ge_cases k (length l)).
    + rewrite app_nth1 by assumption; reflexivity.
    + rewrite app_nth2, nth_overflow by assumption.
      symmetry; apply nth_repeat.
Qed.

Lemma lower_bits_bits_value_exact (l : list bool) :
  lower_bits (bits_value l) (Z.of_nat (length l)) = l.
Proof.
  rewrite lower_bits_bits_value by lia.
  rewrite Nat2Z.id, Nat.sub_diag; apply app_nil_r.
Qed.

Lemma lower_bits_mod (v N n : Z) :
  0 <= n <= N -> lower_bits (v mod 2 ^ N) n = lower_bits v n.
Proof.
  intros Hn; unfold lower_bits.
  apply map_ext_in; intros k Hk; apply in_seq in Hk.
  rewrite testbit_mod_pow2 by lia.
  destruct (Z.ltb_spec (Z.of_nat k) N); [reflexivity | lia].
Qed.

Lemma lower_bits_firstn (v N n : Z) :
  0 <= n <= N -> firstn (Z.to_nat n) (lower_bits v N) = lower_bits v n.
Proof.
  intros Hn.
  apply nth_ext with (d := false) (d' := false).
  - rewrite length_firstn, !lower_bits_length; lia.
  - intros k Hk; rewrite length_firstn, lower_bits_length in Hk.
    rewrite nth_firstn.
    destruct (Nat.ltb_spec k (Z.to_nat n)); [|lia].
    rewrite !lower_bits_nth by lia; reflexivity.
Qed.

Lemma rev_bitset_to_string (N v : Z) :
  rev (bitset_to_string N v) = map bit_char (lower_bits v N).
Proof.
  unfold bitset_to_string, lower_bits.
  rewrite <- map_rev, rev_involutive, map_map; reflexivity.
Qed.

Lemma BitsetToStream_within (N v n : Z) :
  0 <= n <= N -> N <= SIZE_MAX ->
  BitsetToStream N v n = Some (map bit_char (lower_bits v n)).
Proof.
  intros Hn HN; unfold BitsetToStream, substr_from.
  rewrite to_size_t_small by lia.
  assert (Hsize : size (bitset_to_string N v) = N)
    by (unfold size; rewrite bitset_to_string_length; lia).
  rewrite Hsize.
  destruct (Z.leb_spec (N - n) N); [|lia].
  unfold ret; cbn [assert bind]; apply f_equal.
  replace (Z.to_nat (N - n))
    with (length (bitset_to_string N v) - Z.to_nat n)%nat
    by (rewrite bitset_to_string_length; lia).
  rewrite <- firstn_rev, rev_bitset_to_string, firstn_map, lower_bits_firstn by lia.
  reflexivity.
Qed.

Lemma BitsetToStream_beyond (N v n : Z) :
  0 <= N < n -> n <= SIZE_MAX -> BitsetToStream N v n = None.
Proof.
  intros Hn Hmax; unfold BitsetToStream, substr_from.
  assert (Hsize : size (bitset_to_string N v) = N)
    by (unfold size; rewrite bitset_to_string_length; lia).
  rewrite Hsize.
  assert (Hwrap : to_size_t (N - n) = N - n + 2 ^ 64).
  { unfold to_size_t, to_unsigned, SIZE_MAX in *.
    change (2 ^ 64) with 18446744073709551616 in *.
    Z.div_mod_to_equations; lia. }
  rewrite Hwrap.
  unfold SIZE_MAX in Hmax; change (2 ^ 64) with 18446744073709551616 in *.
  destruct (Z.leb_spec (N - n + 18446744073709551616) N); [lia | reflexivity].
Qed.

Lemma bitset_of_whole_string_rev (N : Z) (s : Stream) :
  size s <= N ->
  bitset_of_whole_string N (rev s)
  = if valid_stream s then Some (bits_value (map char_bit s)) else None.
Proof.
  intros Hs; unfold bitset_of_whole_string, bitset_of_string, size in *.
  destruct (Z.leb_spec 0 (Z.of_nat (length (rev s)))); [|lia].
  cbn [assert bind skipn]; change (Z.to_nat 0) with 0%nat; cbn [skipn].
  rewrite Nat2Z.id, firstn_all, firstn_all2 by (rewrite length_rev; lia).
  apply bitset_parse_rev.
Qed.

Lemma StreamToBits_within (s : Stream) :
  size s <= 64 ->
  StreamToBits s = if valid_stream s then Some (bits_value (map char_bit s)) else None.
Proof.
  intros Hs; unfold StreamToBits.
  rewrite bitset_of_whole_string_rev by exact Hs.
  destruct (valid_stream s); [|reflexivity].
  cbn [bind]; unfold bitset_to_ullong.
  pose proof (bits_value_range (map char_bit s)) as Hr.
  rewrite length_map in Hr.
  assert (2 ^ Z.of_nat (length s) <= 2 ^ 64)
    by (apply Z.pow_le_mono_r; unfold size in Hs; lia).
  destruct (Z.ltb_spec (bits_value (map char_bit s)) (2 ^ 64)); [reflexivity | lia].
Qed.

Lemma BitsToStream_within (bits n : Z) :
  0 <= n <= 64 -> BitsToStream bits n = Some (map bit_char (lower_bits bits n)).
Proof.
  intros Hn; unfold BitsToStream, bitset_of_ullong, to_unsigned.
  rewrite BitsetToStream_within by (unfold SIZE_MAX; simpl; lia).
  rewrite lower_bits_mod by lia; reflexivity.
Qed.

Lemma BitsToStream_then_StreamToBits (bits n : Z) :
  0 <= n <= 64 ->
  StreamToBits (map bit_char (lower_bits bits n)) = Some (bits mod 2 ^ n).
Proof.
  intros Hn.
  rewrite StreamToBits_within
    by (unfold size; rewrite length_map, lower_bits_length; lia).
  rewrite valid_stream_map_bit_char, map_char_bit_bit_char.
  rewrite bits_value_lower_bits by lia; reflexivity.
Qed.

Lemma StreamToBitset_then_BitsetToStream (N : Z) (s : Stream) :
  valid_stream s = true -> size s <= N -> N <= SIZE_MAX ->
  BitsetToStream N (bits_value (map char_bit s)) (size s) = Some s.
Proof.
  intros Hvalid Hs HN.
  rewrite BitsetToStream_within by (unfold size in *; lia).
  unfold size; rewrite <- (length_map char_bit s), lower_bits_bits_value_exact.
  rewrite map_bit_char_char_bit by exact Hvalid; reflexivity.
Qed.

Lemma StreamToBits_then_BitsToStream (s : Stream) :
  valid_stream s = true -> size s <= 64 ->
  BitsToStream (bits_value (map char_bit s)) (size s) = Some s.
Proof.
  intros Hvalid Hs.
  rewrite BitsToStream_within by (unfold size in *; lia).
  unfold size; rewrite <- (length_map char_bit s), lower_bits_bits_value_exact.
  rewrite map_bit_char_char_bit by exact Hvalid; reflexivity.
Qed.

(** X4: [BitsetToStream] and [BitsToStream] give the [num_bits] lowest bits
    as a stream, the lowest bit first; with [num_bits] above the width of the
    bitset (64 for [BitsToStream]) the call of [substr] throws. *)
Theorem BitsetToStream_lowest_bits (N bits num_bits : Z) :
  0 <= N <= SIZE_MAX -> 0 <= num_bits <= SIZE_MAX ->
  BitsetToStream N bits num_bits
  = (if num_bits <=? N then Some (map bit_char (lower_bits bits num_bits)) else None)
  /\ BitsToStream bits num_bits
     = (if num_bits <=? 64 then Some (map bit_char (lower_bits bits num_bits)) else None).
Proof.
  intros HN Hn; split.
  - destruct (Z.leb_spec num_bits N).
    + apply BitsetToStream_within; lia.
    + apply BitsetToStream_beyond; lia.
  - destruct (Z.leb_spec num_bits 64).
    + apply BitsToStream_within; lia.
    + apply BitsetToStream_beyond; lia.
Qed.

Lemma BitsetToStream_lowest_bits_witness :
  BitsToStream 6 3 = Some (stream_of_string "011") /\ BitsToStream 6 65 = None.
Proof.
  destruct (BitsetToStream_lowest_bits 64 6 3) as [_ H3];
    [unfold SIZE_MAX; simpl; lia | unfold SIZE_MAX; simpl; lia |].
  destruct (BitsetToStream_lowest_bits 64 6 65) as [_ H65];
    [unfold SIZE_MAX; simpl; lia | unfold SIZE_MAX; simpl; lia |].
  split; [exact H3 | exact H65].
Defined.

(** X5: [StreamToBits] and [BitsToStream] are inverse to each other on
    streams of at most 64 characters '0' and '1': the first character of the
    stream is the lowest bit of the value, the value has no bit beyond the
    length of the stream, and [BitsToStream] of the value and the length is
    the stream; [StreamToBits] of [BitsToStream(bits, n)] is [bits] cut to
    its [n] lowest bits. *)
Theorem StreamToBits_BitsToStream (s : Stream) (bits n : Z) :
  valid_stream s = true -> size s <= 64 -> 0 <= n <= 64 ->
  (exists value,
      StreamToBits s = Some value
      /\ 0 <= value < 2 ^ size s
      /\ (forall i : nat, Z.testbit value (Z.of_nat i) = nth i (map char_bit s) false)
      /\ BitsToStream value (size s) = Some s)
  /\ (exists t,
        BitsToStream bits n = Some t
        /\ size t = n
        /\ StreamToBits t = Some (bits mod 2 ^ n)).
Proof.
  intros Hvalid Hs Hn; split.
  - exists (bits_value (map char_bit s)).
    rewrite StreamToBits_within, Hvalid by exact Hs.
    split; [reflexivity|].
    split; [|split].
    + pose proof (bits_value_range (map char_bit s)) as Hr.
      rewrite length_map in Hr; exact Hr.
    + apply testbit_bits_value.
    + apply StreamToBits_then_BitsToStream; assumption.
  - exists (map bit_char (lower_bits bits n)).
    split; [apply BitsToStream_within; exact Hn|].
    split; [unfold size; rewrite length_map, lower_bits_length; lia|].
    apply BitsToStream_then_StreamToBits; exact Hn.
Qed.

Lemma StreamToBits_BitsToStream_witness :
  (exists value, StreamToBits (stream_of_string "0011") = Some value /\ value = 12)
  /\ (exists t, BitsToStream 255 3 = Some t /\ StreamToBits t = Some 7).
Proof.
  destruct (StreamToBits_BitsToStream (stream_of_string "0011") 255 3)
    as [[value [Hv _]] [t [Ht [_ Hback]]]];
    [reflexivity | vm_compute; discriminate | lia |].
  split.
  - exists value; split; [exact Hv | vm_compute in Hv; congruence].
  - exists t; split; [exact Ht | exact Hback].
Defined.

(** X6: the same for bitsets of any width [N]: [StreamToBitset<N>] of a
    stream of at most [N] characters '0' and '1' gives a bitset whose
    [BitsetToStream] with the length of the stream is the stream, and
    [StreamToBitset<N>] of [BitsetToStream(bits, n)] holds the [n] lowest bits
    of [bits]; a character other than '0' and '1' makes [StreamToBitset] and
    [StreamToBits] throw. *)
Theorem StreamToBitset_BitsetToStream (N : Z) (s : Stream) (bits n : Z) :
  size s <= N -> 0 <= n <= N -> N <= SIZE_MAX ->
  (valid_stream s = true ->
     exists b, StreamToBitset N s = Some b /\ BitsetToStream N b (size s) = Some s)
  /\ (valid_stream s = false ->
        StreamToBitset N s = None /\ (N = 64 -> StreamToBits s = None))
  /\ (exists t,
        BitsetToStream N bits n = Some t /\ StreamToBitset N t = Some (bits mod 2 ^ n)).
Proof.
  intros Hs Hn HN; split; [|split].
  - intros Hvalid; exists (bits_value (map char_bit s)).
    unfold StreamToBitset; rewrite bitset_of_whole_string_rev, Hvalid by exact Hs.
    split; [reflexivity|].
    apply StreamToBitset_then_BitsetToStream; assumption.
  - intros Hinvalid; split.
    + unfold StreamToBitset; rewrite bitset_of_whole_string_rev, Hinvalid by exact Hs.
      reflexivity.
    + intros ->; rewrite StreamToBits_within, Hinvalid by exact Hs; reflexivity.
  - exists (map bit_char (lower_bits bits n)).
    split; [apply BitsetToStream_within; assumption|].
    unfold StreamToBitset.
    rewrite bitset_of_whole_string_rev
      by (unfold size; rewrite length_map, lower_bits_length; lia).
    rewrite valid_stream_map_bit_char, map_char_bit_bit_char.
    rewrite bits_value_lower_bits by lia; reflexivity.
Qed.

Lemma StreamToBitset_BitsetToStream_witness :
  (exists b, StreamToBitset 4 (stream_of_string "101") = Some b
             /\ BitsetToStream 4 b 3 = Some (stream_of_string "101"))
  /\ StreamToBitset 4 (stream_of_string "1x1") = None.
Proof.
  destruct (StreamToBitset_BitsetToStream 4 (stream_of_string "101") 0 0)
    as [Hgood _]; [vm_compute; discriminate | lia | vm_compute; discriminate |].
  destruct (StreamToBitset_BitsetToStream 4 (stream_of_string "1x1") 0 0)
    as [_ [Hbad _]]; [vm_compute; discriminate | lia | vm_compute; discriminate |].
  split; [exact (Hgood eq_refl) | exact (proj1 (Hbad eq_refl))].
Defined.

(** ** The stream and bitset members of the interfaces *)

Section StreamMembers.
Context {Wr : Type} `{BitWriterInterface Wr}
        (wvalid : Wr -> Prop) (written : Wr -> list bool)
        `{!BitWriterLaws Wr wvalid written}.
Context {Rd : Type} `{BitReaderInterface Rd}
        (rvalid : Rd -> Prop) (unread : Rd -> list bool)
        `{!BitReaderLaws Rd rvalid unread}.

Lemma WriteStream_lawful (w : Wr) (s : Stream) :
  wvalid w -> size s <= 64 -> valid_stream s = true ->
  exists w',
    WriteStream w s = Some w' /\ wvalid w' /\ written w' = written w ++ map char_bit s.
Proof.
  intros Hw Hs Hvalid; unfold WriteStream.
  rewrite StreamToBits_within, Hvalid by exact Hs; cbn [bind].
  eexists; split; [reflexivity|].
  assert (Hn : 0 <= size s <= 64) by (unfold size in *; lia).
  split; [apply WriteBits_valid; assumption|].
  rewrite WriteBits_written by assumption.
  unfold size; rewrite <- (length_map char_bit s), lower_bits_bits_value_exact.
  reflexivity.
Qed.

Lemma WriteStream_invalid (w : Wr) (s : Stream) :
  size s <= 64 -> valid_stream s = false -> WriteStream w s = None.
Proof.
  intros Hs Hinvalid; unfold WriteStream.
  rewrite StreamToBits_within, Hinvalid by exact Hs; reflexivity.
Qed.

Lemma ReadBits_lawful (r : Rd) (n : Z) :
  rvalid r -> 0 <= n <= 64 ->
  exists r',
    ReadBits r n
    = (bits_value (firstn (Z.to_nat n) (unread r)),
       Z.of_nat (length (firstn (Z.to_nat n) (unread r))), r')
    /\ rvalid r' /\ unread r' = skipn (Z.to_nat n) (unread r).
Proof. apply ReadBits_unread. Qed.

Lemma ReadStream_lawful (r : Rd) (n : Z) :
  rvalid r -> 0 <= n <= 64 ->
  exists r',
    ReadStream r n = Some (map bit_char (firstn (Z.to_nat n) (unread r)), r')
    /\ rvalid r' /\ unread r' = skipn (Z.to_nat n) (unread r).
Proof.
  intros Hr Hn.
  destruct (ReadBits_lawful r n Hr Hn) as [r' [E [Hr' Hu']]].
  exists r'; split; [|split; assumption].
  unfold ReadStream; rewrite E.
  set (got := firstn (Z.to_nat n) (unread r)).
  assert (Hlen : 0 <= Z.of_nat (length got) <= 64)
    by (unfold got; rewrite length_firstn; lia).
  rewrite BitsToStream_within by exact Hlen.
  rewrite lower_bits_bits_value_exact; reflexivity.
Qed.

End StreamMembers.

(** X7: for a writer that keeps the contract of [WriteBits], [WriteStream]
    of a stream of at most 64 characters '0' and '1' appends the bits of the
    stream in the order of its characters ("the string doesn't represent
    numbers but a stream of bits in the order they come from encoder"); with
    another character in the stream [StreamToBits] throws and nothing is
    written. *)
Theorem WriteStream_appends
    (Wr : Type) (IW : BitWriterInterface Wr)
    (wvalid : Wr -> Prop) (written : Wr -> list bool) (w : Wr) (s : Stream) :
  BitWriterLaws Wr wvalid written -> wvalid w -> size s <= 64 ->
  if valid_stream s
  then exists w',
         WriteStream w s = Some w' /\ wvalid w'
         /\ written w' = written w ++ map char_bit s
  else WriteStream w s = None.
Proof.
  intros LW Hw Hs.
  destruct (valid_stream s) eqn:Hvalid.
  - apply (WriteStream_lawful wvalid written); assumption.
  - apply WriteStream_invalid; assumption.
Qed.

Lemma WriteStream_appends_witness :
  exists w', WriteStream [true] (stream_of_string "01") = Some w'
             /\ w' = [true] ++ [false; true].
Proof.
  pose proof (WriteStream_appends (list bool) BitSeqWriter (fun _ => True) (fun w => w)
                [true] (stream_of_string "01") BitSeqWriter_laws I) as Hwrite.
  cbv beta in Hwrite.
  change (valid_stream (stream_of_string "01")) with true in Hwrite.
  destruct Hwrite as [w' [E [_ Hw']]]; [vm_compute; discriminate|].
  exists w'; split; [exact E | exact Hw'].
Defined.

(** X8: for a reader that keeps the contract of [ReadBits], [ReadStream] of
    up to 64 bits returns the next unread bits as a stream, in the order in
    which they are read, and leaves the bits after them; when fewer bits are
    left the stream is shorter ("the length of the returned string may be
    less than |num_bits| if end was reached"), and at the end it is empty. *)
Theorem ReadStream_next_bits
    (Rd : Type) (IR : BitReaderInterface Rd)
    (rvalid : Rd -> Prop) (unread : Rd -> list bool) (r : Rd) (num_bits : Z) :
  BitReaderLaws Rd rvalid unread -> rvalid r -> 0 <= num_bits <= 64 ->
  exists str r',
    ReadStream r num_bits = Some (str, r')
    /\ str = map bit_char (firstn (Z.to_nat num_bits) (unread r))
    /\ size str = Z.min num_bits (Z.of_nat (length (unread r)))
    /\ rvalid r'
    /\ unread r' = skipn (Z.to_nat num_bits) (unread r).
Proof.
  intros LR Hr Hn.
  destruct (ReadStream_lawful rvalid unread r num_bits Hr Hn) as [r' [E [Hr' Hu']]].
  exists (map bit_char (firstn (Z.to_nat num_bits) (unread r))), r'.
  repeat split; try assumption.
  unfold size; rewrite length_map, length_firstn; lia.
Qed.

Lemma ReadStream_next_bits_witness :
  exists str r',
    ReadStream [true; false; true] 5 = Some (str, r')
    /\ str = stream_of_string "101" /\ r' = [].
Proof.
  destruct (ReadStream_next_bits (list bool) BitSeqReader (fun _ => True) (fun r => r)
              [true; false; true] 5 BitSeqReader_laws I ltac:(lia))
    as [str [r' [E [Hstr [_ [_ Hr']]]]]].
  exists str, r'; split; [exact E | split; [exact Hstr | exact Hr']].
Defined.

(** X9: what [WriteStream] writes, [ReadStream] reads back: for a writer and
    a reader that keep the contract of the raw operations and a stream of at
    most 64 characters '0' and '1', a reader whose unread bits start with the
    bits that [WriteStream] appended returns the stream when asked for as
    many bits as the stream has characters. *)
Theorem WriteStream_ReadStream
    (Wr : Type) (IW : BitWriterInterface Wr)
    (wvalid : Wr -> Prop) (written : Wr -> list bool)
    (Rd : Type) (IR : BitReaderInterface Rd)
    (rvalid : Rd -> Prop) (unread : Rd -> list bool)
    (w : Wr) (s : Stream) :
  BitWriterLaws Wr wvalid written -> BitReaderLaws Rd rvalid unread ->
  wvalid w -> size s <= 64 -> valid_stream s = true ->
  exists w' appended,
    WriteStream w s = Some w'
    /\ written w' = written w ++ appended
    /\ forall (r : Rd) (rest : list bool),
         rvalid r -> unread r = appended ++ rest ->
         exists r',
           ReadStream r (size s) = Some (s, r') /\ rvalid r' /\ unread r' = rest.
Proof.
  intros LW LR Hw Hs Hvalid.
  destruct (WriteStream_lawful wvalid written w s Hw Hs Hvalid) as [w' [E [_ Hs']]].
  exists w', (map char_bit s); split; [exact E|]; split; [exact Hs'|].
  intros r rest Hr Hu.
  assert (Hn : 0 <= size s <= 64) by (unfold size in *; lia).
  destruct (ReadStream_lawful rvalid unread r (size s) Hr Hn) as [r' [Er [Hr' Hu']]].
  exists r'.
  assert (Hlen : Z.to_nat (size s) = length (map char_bit s))
    by (unfold size; rewrite length_map; lia).
  rewrite Hu, Hlen in Er, Hu'.
  rewrite firstn_app, Nat.sub_diag, firstn_all, skipn_app, skipn_all, Nat.sub_diag in *.
  cbn [firstn skipn app] in *; rewrite app_nil_r in Er.
  rewrite map_bit_char_char_bit in Er by exact Hvalid.
  auto.
Qed.

Lemma WriteStream_ReadStream_witness :
  exists w', WriteStream [true] (stream_of_string "0110") = Some w'
             /\ exists r', ReadStream (skipn 1 w' ++ [true]) 4
                           = Some (stream_of_string "0110", r').
Proof.
  destruct (WriteStream_ReadStream (list bool) BitSeqWriter (fun _ => True) (fun w => w)
              (list bool) BitSeqReader (fun _ => True) (fun r => r)
              [true] (stream_of_string "0110") BitSeqWriter_laws BitSeqReader_laws I)
    as [w' [appended [E [Hw' Hread]]]]; [vm_compute; discriminate | reflexivity |].
  exists w'; split; [exact E|].
  cbv beta in Hw'; subst w'.
  destruct (Hread (appended ++ [true]) [true] I eq_refl) as [r' [Er _]].
  exists r'; exact Er.
Defined.

(** X10: for a reader that keeps the contract of [ReadBits], [ReadBitset<N>]
    of up to 64 bits returns the number of bits that were left to read, up
    to [num_bits]; when this number is 0 (nothing asked for, or the end
    reached) the bitset keeps the value that it had before the call;
    otherwise the bitset holds the bits read, the first one lowest, cut to
    the width [N], so that with [num_bits <= N] its [BitsetToStream] of that
    many bits is the stream of the bits read. *)
Theorem ReadBitset_bits_read
    (Rd : Type) (IR : BitReaderInterface Rd)
    (rvalid : Rd -> Prop) (unread : Rd -> list bool)
    (N : Z) (r : Rd) (before num_bits : Z) :
  BitReaderLaws Rd rvalid unread -> rvalid r ->
  0 <= num_bits <= 64 -> 0 <= N <= SIZE_MAX ->
  exists after r',
    ReadBitset N r before num_bits
    = (after, Z.of_nat (length (firstn (Z.to_nat num_bits) (unread r))), r')
    /\ rvalid r'
    /\ unread r' = skipn (Z.to_nat num_bits) (unread r)
    /\ (firstn (Z.to_nat num_bits) (unread r) = [] -> after = before)
    /\ (firstn (Z.to_nat num_bits) (unread r) <> [] ->
        after = to_unsigned N (bits_value (firstn (Z.to_nat num_bits) (unread r)))
        /\ (num_bits <= N ->
            BitsetToStream N after
              (Z.of_nat (length (firstn (Z.to_nat num_bits) (unread r))))
            = Some (map bit_char (firstn (Z.to_nat num_bits) (unread r))))).
Proof.
  intros LR Hr Hn HN.
  destruct (ReadBits_lawful rvalid unread r num_bits Hr Hn) as [r' [E [Hr' Hu']]].
  unfold ReadBitset; rewrite E.
  set (got := firstn (Z.to_nat num_bits) (unread r)) in *.
  assert (Hlen : Z.of_nat (length got) <= num_bits)
    by (unfold got; rewrite length_firstn; lia).
  eexists _, r'; split; [reflexivity|].
  split; [exact Hr'|]; split; [exact Hu'|]; split.
  - intros ->; reflexivity.
  - intros Hgot.
    destruct (Z.eqb_spec (Z.of_nat (length got)) 0) as [E0|_];
      [destruct got; [contradiction | discriminate]|].
    cbn [negb]; split; [reflexivity|].
    intros HnN; unfold bitset_of_ullong, to_unsigned.
    rewrite BitsetToStream_within by lia.
    rewrite lower_bits_mod, lower_bits_bits_value_exact by lia.
    reflexivity.
Qed.

Lemma ReadBitset_bits_read_witness :
  ReadBitset 8 [false; true; true] 255 2 = (2, 2, [true])
  /\ ReadBitset 8 ([] : list bool) 255 2 = (255, 0, []).
Proof.
  split.
  - destruct (ReadBitset_bits_read (list bool) BitSeqReader (fun _ => True) (fun r => r)
                8 [false; true; true] 255 2 BitSeqReader_laws I)
      as [after [r' [E [_ [Hr' [_ Hafter]]]]]];
      [lia | vm_compute; split; discriminate |].
    destruct Hafter as [Hafter _]; [discriminate|].
    rewrite E; cbv beta in Hr'; subst; reflexivity.
  - destruct (ReadBitset_bits_read (list bool) BitSeqReader (fun _ => True) (fun r => r)
                8 [] 255 2 BitSeqReader_laws I)
      as [after [r' [E [_ [Hr' [Hafter _]]]]]];
      [lia | vm_compute; split; discriminate |].
    rewrite E, (Hafter eq_refl); cbv beta in Hr'; subst; reflexivity.
Defined.

Lemma WriteBitset_lawful
    (Wr : Type) (IW : BitWriterInterface Wr)
    (wvalid : Wr -> Prop) (written : Wr -> list bool)
    (w : Wr) (bits num_bits : Z) :
  BitWriterLaws Wr wvalid written -> wvalid w ->
  bits < 2 ^ 64 -> 0 <= num_bits <= 64 ->
  exists w',
    WriteBitset w bits num_bits = Some w' /\ wvalid w'
    /\ written w' = written w ++ lower_bits bits num_bits.
Proof.
  intros LW Hw Hbits Hn; unfold WriteBitset, bitset_to_ullong.
  destruct (Z.ltb_spec bits (2 ^ 64)); [|lia].
  cbn [assert bind].
  eexists; split; [reflexivity|].
  split; [apply WriteBits_valid | apply WriteBits_written]; assumption.
Qed.

Lemma WriteBitset_to_ullong_throws
    (Wr : Type) (IW : BitWriterInterface Wr) (w : Wr) (bits num_bits : Z) :
  2 ^ 64 <= bits -> WriteBitset w bits num_bits = None.
Proof.
  intros Hbits; unfold WriteBitset, bitset_to_ullong.
  destruct (Z.ltb_spec bits (2 ^ 64)); [lia | reflexivity].
Qed.

(** X11: what [WriteBitset] writes, [ReadBitset] reads back, and
    [WriteStream] of [BitsetToStream] writes the same bits: for a writer and a
    reader that keep the contract of the raw operations, a bitset of width
    [N] whose value fits 64 bits and [num_bits <= 64], [WriteBitset] appends
    some bits; with [num_bits <= N] they are the bits of
    [BitsetToStream(bits, num_bits)], and [WriteStream] of that stream leaves
    the same bits written; a reader whose unread bits start with them gets,
    from [ReadBitset] of [num_bits] bits, the bitset cut to its [num_bits]
    lowest bits (the whole bitset when [num_bits >= N], the previous bitset
    when [num_bits] is 0), all [num_bits] bits read. A bitset with a bit set
    from bit 64 on makes [to_ullong] throw, whatever [num_bits] is. *)
Theorem WriteBitset_ReadBitset
    (Wr : Type) (IW : BitWriterInterface Wr)
    (wvalid : Wr -> Prop) (written : Wr -> list bool)
    (Rd : Type) (IR : BitReaderInterface Rd)
    (rvalid : Rd -> Prop) (unread : Rd -> list bool)
    (N : Z) (w : Wr) (bits num_bits : Z) :
  BitWriterLaws Wr wvalid written -> BitReaderLaws Rd rvalid unread ->
  wvalid w -> 0 <= N <= SIZE_MAX -> 0 <= bits < 2 ^ N ->
  (2 ^ 64 <= bits -> forall n : Z, WriteBitset w bits n = None)
  /\ (bits < 2 ^ 64 -> 0 <= num_bits <= 64 ->
      exists w' appended,
        WriteBitset w bits num_bits = Some w'
        /\ wvalid w'
        /\ written w' = written w ++ appended
        /\ Z.of_nat (length appended) = num_bits
        /\ (num_bits <= N ->
            BitsetToStream N bits num_bits = Some (map bit_char appended)
            /\ exists ws,
                 WriteStream w (map bit_char appended) = Some ws
                 /\ written ws = written w')
        /\ (N <= num_bits -> bits mod 2 ^ num_bits = bits)
        /\ forall (r : Rd) (before : Z) (rest : list bool),
             rvalid r -> unread r = appended ++ rest ->
             exists r',
               ReadBitset N r before num_bits
               = (if num_bits =? 0 then before else bits mod 2 ^ num_bits,
                  num_bits, r')
               /\ rvalid r' /\ unread r' = rest).
Proof.
  intros LW LR Hw HN Hbits.
  split; [intros Hbig n; apply WriteBitset_to_ullong_throws; exact Hbig|].
  intros H64 Hn.
  destruct (WriteBitset_lawful Wr IW wvalid written w bits num_bits LW Hw H64 Hn)
    as [w' [E [Hw' Hwritten]]].
  set (appended := lower_bits bits num_bits) in *.
  assert (Hlen : length appended = Z.to_nat num_bits) by apply lower_bits_length.
  assert (Hmodle : 0 <= bits mod 2 ^ num_bits <= bits).
  { pose proof (Z.mod_pos_bound bits (2 ^ num_bits) (pow2_pos num_bits ltac:(lia))).
    split; [lia | apply Z.mod_le; [lia | apply pow2_pos; lia]]. }
  exists w', appended; split; [exact E|]; split; [exact Hw'|];
    split; [exact Hwritten|]; split; [lia|]; split; [|split].
  - intros HnN; split; [apply BitsetToStream_within; lia|].
    destruct (WriteStream_lawful wvalid written w (map bit_char appended) Hw)
      as [ws [Es [_ Hws]]];
      [unfold size; rewrite length_map; lia | apply valid_stream_map_bit_char |].
    exists ws; split; [exact Es|].
    rewrite Hws, map_char_bit_bit_char, Hwritten; reflexivity.
  - intros HNn; apply Z.mod_small; split; [lia|].
    apply Z.lt_le_trans with (2 ^ N); [lia | apply Z.pow_le_mono_r; lia].
  - intros r before rest Hr Hu.
    destruct (ReadBits_lawful rvalid unread r num_bits Hr Hn) as [r' [Er [Hr' Hu']]].
    exists r'.
    rewrite Hu, <- Hlen in Er, Hu'.
    rewrite firstn_app, Nat.sub_diag, firstn_all, skipn_app, skipn_all, Nat.sub_diag in *.
    cbn [firstn skipn app] in *; rewrite app_nil_r in Er.
    unfold appended in Er at 1; rewrite bits_value_lower_bits in Er by lia.
    split; [|split; assumption].
    unfold ReadBitset; rewrite Er, Hlen, Z2Nat.id by lia.
    destruct (num_bits =? 0); cbn [negb]; [reflexivity|].
    unfold bitset_of_ullong; rewrite to_unsigned_small; [reflexivity|].
    unfold is_unsigned; lia.
Qed.

Lemma WriteBitset_ReadBitset_witness :
  exists w', WriteBitset [true] 6 2 = Some w'
             /\ exists r', ReadBitset 8 (skipn 1 w' ++ [true]) 255 2 = (2, 2, r').
Proof.
  destruct (WriteBitset_ReadBitset (list bool) BitSeqWriter (fun _ => True) (fun w => w)
              (list bool) BitSeqReader (fun _ => True) (fun r => r)
              8 [true] 6 2 BitSeqWriter_laws BitSeqReader_laws I)
    as [_ Hmain]; [vm_compute; split; discriminate | vm_compute; split; [discriminate | reflexivity] |].
  destruct Hmain as [w' [appended [E [_ [Hw' [_ [_ [_ Hread]]]]]]]];
    [reflexivity | lia |].
  exists w'; split; [exact E|].
  cbv beta in Hw'; subst w'.
  destruct (Hread (appended ++ [true]) 255 [true] I eq_refl) as [r' [Er _]].
  exists r'; exact Er.
Defined.

(** ** PadToWord, applied twice *)

Lemma PadToWord_multiple (N : Z) (s : Stream) :
  size s mod N = 0 -> PadToWord N s = s.
Proof. intros Hmod; unfold PadToWord; rewrite Hmod; reflexivity. Qed.

Lemma PadToWord_size_multiple (N : Z) (s : Stream) :
  1 <= N -> size (PadToWord N s) mod N = 0.
Proof.
  intros HN; unfold PadToWord.
  pose proof (Z.mod_pos_bound (size s) N ltac:(lia)) as Hb.
  destruct (Z.eqb_spec (size s mod N) 0) as [E|E]; cbn [negb]; [exact E|].
  rewrite size_app, size_repeat, Z2Nat.id by lia.
  rewrite (Z.div_mod (size s) N) at 1 by lia.
  replace (N * (size s / N) + size s mod N + (N - size s mod N))
    with ((size s / N + 1) * N) by lia.
  apply Z.mod_mul; lia.
Qed.

Lemma PadToWord_size (N : Z) (s : Stream) :
  1 <= N -> size (PadToWord N s) = N * ceil_div (size s) N.
Proof.
  intros HN.
  pose proof (ceil_div_spec (size s) N ltac:(lia)) as Hc.
  pose proof (Z.mod_pos_bound (size s) N ltac:(lia)) as Hb.
  pose proof (Z.div_mod (size s) N ltac:(lia)) as Hdm.
  assert (Hlen : size (PadToWord N s)
                 = if size s mod N =? 0 then size s else size s + (N - size s mod N)).
  { unfold PadToWord; destruct (Z.eqb_spec (size s mod N) 0); cbn [negb]; [reflexivity|].
    rewrite size_app, size_repeat, Z2Nat.id by lia; reflexivity. }
  rewrite Hlen.
  set (q := size s / N) in *; set (c := ceil_div (size s) N) in *.
  destruct (Z.eqb_spec (size s mod N) 0) as [E|E].
  - assert (c - 1 < q) by nia.
    assert (q <= c) by nia.
    assert (q = c) by lia; subst q; lia.
  - assert (c - 2 < q) by nia.
    assert (q < c) by nia.
    assert (q = c - 1) by lia; nia.
Qed.

(** X12: [PadToWord<N>] changes nothing in a string whose length is a
    multiple of [N]; so padding twice is padding once, and the length after
    padding is the least multiple of [N] that is not below the length
    before. *)
Theorem PadToWord_idempotent (N : Z) (s : Stream) :
  1 <= N ->
  (size s mod N = 0 -> PadToWord N s = s)
  /\ PadToWord N (PadToWord N s) = PadToWord N s
  /\ size (PadToWord N s) = N * ceil_div (size s) N.
Proof.
  intros HN.
  split; [apply PadToWord_multiple|].
  split; [apply PadToWord_multiple, PadToWord_size_multiple; exact HN|].
  apply PadToWord_size; exact HN.
Qed.

Lemma PadToWord_idempotent_witness :
  PadToWord 8 (PadToWord 8 (stream_of_string "101")) = PadToWord 8 (stream_of_string "101").
Proof.
  apply (PadToWord_idempotent 8 (stream_of_string "101")); lia.
Defined.

(** ** StreamToBuffer on any stream *)

Lemma BufferToStream_bits (W : Z) (b : list Z) :
  0 <= W -> BufferToStream W b = flat_map (fun x => map bit_char (lower_bits x W)) b.
Proof.
  intros HW; unfold BufferToStream.
  apply flat_map_ext; intros x.
  rewrite rev_bitset_to_string; unfold bitset_of_ullong, to_unsigned.
  rewrite lower_bits_mod by lia; reflexivity.
Qed.

Lemma BufferToStream_app (W : Z) (b1 b2 : list Z) :
  BufferToStream W (b1 ++ b2) = BufferToStream W b1 ++ BufferToStream W b2.
Proof. apply flat_map_app. Qed.

(** The word that [std::bitset] reads from a group of at most [W]
    characters fits [W] bits and prints as the group followed by zeroes. *)
Lemma word_of_group (W : Z) (c : Stream) :
  valid_stream c = true -> size c <= W ->
  to_unsigned W (bits_value (map char_bit c)) = bits_value (map char_bit c)
  /\ BufferToStream W [bits_value (map char_bit c)]
     = c ++ repeat "0"%char (Z.to_nat W - length c).
Proof.
  intros Hvalid Hc; unfold size in Hc.
  pose proof (bits_value_range (map char_bit c)) as Hr; rewrite length_map in Hr.
  assert (Hpow : 2 ^ Z.of_nat (length c) <= 2 ^ W) by (apply Z.pow_le_mono_r; lia).
  split; [apply to_unsigned_small; lia|].
  rewrite BufferToStream_bits by lia; cbn [flat_map]; rewrite app_nil_r.
  rewrite lower_bits_bits_value by (rewrite length_map; lia).
  rewrite map_app, map_bit_char_char_bit, length_map, map_repeat by exact Hvalid.
  reflexivity.
Qed.

Lemma stream_words_valid (W : Z) (k : nat) :
  forall s : Stream,
    1 <= W -> length s = (k * Z.to_nat W)%nat -> valid_stream s = true ->
    exists l,
      stream_words W k s = Some l /\ BufferToStream W l = s /\ length l = k.
Proof.
  induction k as [|k IH]; intros s HW Hlen Hvalid.
  - exists []; destruct s; [auto | discriminate].
  - cbn [stream_words].
    rewrite <- (firstn_skipn (Z.to_nat W) s) in Hvalid.
    rewrite valid_stream_app in Hvalid; apply andb_true_iff in Hvalid.
    destruct Hvalid as [Hc Hs'].
    assert (Hclen : length (firstn (Z.to_nat W) s) = Z.to_nat W)
      by (rewrite length_firstn; lia).
    rewrite bitset_parse_rev, Hc; cbn [bind].
    destruct (IH (skipn (Z.to_nat W) s) HW) as [l [El [Hl Hk]]];
      [rewrite length_skipn; lia | exact Hs' |].
    rewrite El; cbn [bind].
    destruct (word_of_group W (firstn (Z.to_nat W) s) Hc) as [Hsmall Hprint];
      [unfold size; lia|].
    rewrite Hsmall.
    eexists; split; [reflexivity|]; split; [|cbn [length]; lia].
    change (?x :: l) with ([x] ++ l).
    rewrite BufferToStream_app, Hprint, Hl, Hclen, Nat.sub_diag.
    cbn [repeat]; rewrite app_nil_r; apply firstn_skipn.
Qed.

Lemma stream_words_invalid (W : Z) (k : nat) :
  forall s : Stream,
    length s = (k * Z.to_nat W)%nat -> valid_stream s = false ->
    stream_words W k s = None.
Proof.
  induction k as [|k IH]; intros s Hlen Hinvalid.
  - destruct s; discriminate.
  - cbn [stream_words].
    rewrite <- (firstn_skipn (Z.to_nat W) s) in Hinvalid.
    rewrite valid_stream_app in Hinvalid.
    rewrite bitset_parse_rev.
    destruct (valid_stream (firstn (Z.to_nat W) s)); [|reflexivity].
    cbn [andb bind] in *.
    rewrite IH; [reflexivity | | exact Hinvalid].
    rewrite length_skipn; lia.
Qed.

Lemma StreamToBuffer_loop_groups (W : Z) (k : nat) :
  forall (fuel : nat) (s pre tail : Stream) (acc : list Z),
    1 <= W <= 64 -> length s = (k * Z.to_nat W)%nat -> size pre < W ->
    size pre + W * Z.of_nat k <= INT_MAX -> (k < fuel)%nat ->
    StreamToBuffer_loop fuel W (pre ++ rev s ++ tail) W
      (size pre + W * Z.of_nat k - W) acc
    = (l <- stream_words W k s ;; ret (acc ++ l)).
Proof.
  assert (HI : INT_MAX = 2147483647) by reflexivity.
  induction k as [|k IH]; intros fuel s pre tail acc HW Hlen Hpre Hmax Hfuel.
  - destruct fuel as [|fuel]; [lia|].
    cbn [StreamToBuffer_loop stream_words bind].
    destruct (Z.leb_spec 0 (size pre + W * Z.of_nat 0 - W)); [lia|].
    unfold ret; cbn [bind]; rewrite app_nil_r; reflexivity.
  - destruct fuel as [|fuel]; [lia|].
    rewrite Nat2Z.inj_succ in *.
    replace (size pre + W * Z.succ (Z.of_nat k) - W)
      with (size pre + W * Z.of_nat k) by lia.
    cbn [StreamToBuffer_loop stream_words].
    assert (Hsz : 0 <= size pre) by (unfold size; lia).
    destruct (Z.leb_spec 0 (size pre + W * Z.of_nat k)); [|lia].
    set (c := firstn (Z.to_nat W) s).
    set (s' := skipn (Z.to_nat W) s).
    assert (Hs : s = c ++ s') by (symmetry; apply firstn_skipn).
    assert (Hclen : length c = Z.to_nat W) by (unfold c; rewrite length_firstn; lia).
    assert (Hs'len : length s' = (k * Z.to_nat W)%nat)
      by (unfold s'; rewrite length_skipn; lia).
    assert (Hrevs : rev s = rev s' ++ rev c) by (rewrite <- rev_app_distr, <- Hs; reflexivity).
    rewrite Hrevs.
    rewrite <- app_assoc.
    assert (Hfront : size (pre ++ rev s') = size pre + W * Z.of_nat k).
    { rewrite size_app; unfold size; rewrite length_rev, Hs'len; nia. }
    unfold bitset_of_string.
    assert (HSIZE : 2 ^ 64 = 18446744073709551616) by reflexivity.
    rewrite !to_size_t_small by (unfold SIZE_MAX; lia).
    rewrite (app_assoc pre (rev s')), <- Hfront.
    destruct (Z.leb_spec (size (pre ++ rev s'))
                (size ((pre ++ rev s') ++ rev c ++ tail)));
      [|rewrite size_app in *; unfold size in *; lia].
    cbn [assert bind].
    rewrite skipn_size_app.
    rewrite (firstn_length_app (Z.to_nat W)) by (rewrite length_rev; exact Hclen).
    rewrite firstn_all2 by (rewrite length_rev; lia).
    destruct (bitset_parse (rev c) 0) as [bits|]; [|reflexivity].
    cbn [bind].
    rewrite Hfront, to_int_small by (change (2 ^ 31) with 2147483648; lia).
    rewrite <- (app_assoc pre (rev s')).
    rewrite (IH fuel s' pre (rev c ++ tail)) by (try assumption; lia).
    destruct (stream_words W k s'); cbn [bind]; [|reflexivity].
    unfold ret; rewrite <- app_assoc; reflexivity.
Qed.

(** [StreamToBuffer] of a stream whose length fits [int], in terms of the
    groups of [W] characters and the characters left over. *)
Lemma StreamToBuffer_groups (W : Z) (s0 : Stream) :
  1 <= W <= 64 -> size s0 <= INT_MAX ->
  let k := Z.to_nat (size s0 / W) in
  let full := (k * Z.to_nat W)%nat in
  StreamToBuffer W s0
  = (l <- stream_words W k (firstn full s0) ;;
     if negb (size (skipn full s0) =? 0) then
       bits <- bitset_parse (rev (skipn full s0)) 0 ;;
       ret (l ++ [to_unsigned W bits])
     else ret l).
Proof.
  intros HW Hmax k full.
  assert (HI : INT_MAX = 2147483647) by reflexivity.
  assert (Hsz : 0 <= size s0) by (unfold size; lia).
  pose proof (Z.div_mod (size s0) W ltac:(lia)) as Hdm.
  pose proof (Z.mod_pos_bound (size s0) W ltac:(lia)) as Hmod.
  assert (Hq : 0 <= size s0 / W) by (apply Z.div_pos; lia).
  assert (Hfull : Z.of_nat full = W * (size s0 / W)) by (unfold full, k; nia).
  set (s := firstn full s0); set (suf := skipn full s0).
  assert (Hslen : length s = (k * Z.to_nat W)%nat).
  { unfold s; rewrite length_firstn; unfold size in *; fold full; lia. }
  assert (Hsuf : size suf = size s0 mod W).
  { unfold suf, size in *; rewrite length_skipn; lia. }
  unfold StreamToBuffer.
  assert (Hrev : size (rev s0) = size s0) by (unfold size; rewrite length_rev; reflexivity).
  rewrite Hrev.
  rewrite (to_int_small W), (to_int_small (size s0)), to_int_small
    by (change (2 ^ 31) with 2147483648; lia).
  rewrite to_size_t_small by (unfold SIZE_MAX; simpl; lia).
  assert (Hstr : rev s0 = rev suf ++ rev s ++ []).
  { rewrite app_nil_r, <- rev_app_distr; unfold s, suf; rewrite firstn_skipn; reflexivity. }
  assert (Hpre : size (rev suf) = size s0 mod W)
    by (rewrite <- Hsuf; unfold size; rewrite length_rev; reflexivity).
  replace (size s0 - W) with (size (rev suf) + W * Z.of_nat k - W)
    by (rewrite Hpre; unfold k; rewrite Z2Nat.id by lia; lia).
  assert (C1 : size (rev suf) < W) by (rewrite Hpre; lia).
  assert (C2 : size (rev suf) + W * Z.of_nat k <= INT_MAX)
    by (rewrite Hpre; unfold k; rewrite Z2Nat.id by lia; lia).
  assert (C3 : (k < S (length (rev suf ++ rev s ++ [])))%nat).
  { assert (size s0 / W <= size s0) by (apply Z.div_le_upper_bound; nia).
    rewrite <- Hstr, length_rev; unfold k, size in *; lia. }
  rewrite Hstr.
  rewrite (StreamToBuffer_loop_groups W k _ s (rev suf) [] [] HW Hslen C1 C2 C3).
  destruct (stream_words W k s) as [l|]; cbn [bind]; [|reflexivity].
  rewrite <- Hsuf.
  destruct (Z.eqb_spec (size suf) 0); cbn [negb]; [reflexivity|].
  unfold bitset_of_string.
  destruct (Z.leb_spec 0 (size (rev suf ++ rev s ++ []))); [|unfold size in *; lia].
  cbn [assert bind]; change (Z.to_nat 0) with 0%nat; cbn [skipn].
  rewrite (firstn_length_app (Z.to_nat (size suf)))
    by (rewrite length_rev; unfold size; lia).
  rewrite firstn_all2 by (rewrite length_rev; unfold size in *; lia).
  reflexivity.
Qed.

Lemma StreamToBuffer_valid (W : Z) (s0 : Stream) :
  1 <= W <= 64 -> size s0 <= INT_MAX -> valid_stream s0 = true ->
  exists b, StreamToBuffer W s0 = Some b /\ BufferToStream W b = PadToWord W s0.
Proof.
  intros HW Hmax Hvalid.
  rewrite StreamToBuffer_groups by assumption; cbv zeta.
  assert (Hsz : 0 <= size s0) by (unfold size; lia).
  pose proof (Z.div_mod (size s0) W ltac:(lia)) as Hdm.
  pose proof (Z.mod_pos_bound (size s0) W ltac:(lia)) as Hmod.
  assert (Hq : 0 <= size s0 / W) by (apply Z.div_pos; lia).
  set (k := Z.to_nat (size s0 / W)).
  set (full := (k * Z.to_nat W)%nat).
  assert (Hfull : Z.of_nat full = W * (size s0 / W)) by (unfold full, k; nia).
  set (s := firstn full s0) in *; set (suf := skipn full s0) in *.
  assert (Hsplit : s0 = s ++ suf) by (symmetry; apply firstn_skipn).
  assert (Hslen : length s = (k * Z.to_nat W)%nat).
  { unfold s; rewrite length_firstn; unfold size in *; fold full; lia. }
  assert (Hsuf : size suf = size s0 mod W).
  { unfold suf, size in *; rewrite length_skipn; lia. }
  rewrite Hsplit, valid_stream_app in Hvalid; apply andb_true_iff in Hvalid.
  destruct Hvalid as [Hvs Hvsuf].
  destruct (stream_words_valid W k s ltac:(lia) Hslen Hvs) as [l [El [Hl _]]].
  rewrite El; cbn [bind].
  unfold PadToWord; rewrite <- Hsuf.
  destruct (Z.eqb_spec (size suf) 0) as [Hempty|Hsome]; cbn [negb].
  - exists l; split; [reflexivity|].
    assert (suf = []) as Hnil by (destruct suf; [reflexivity | discriminate]).
    rewrite Hl, Hsplit, Hnil, app_nil_r; reflexivity.
  - rewrite bitset_parse_rev, Hvsuf; cbn [bind].
    destruct (word_of_group W suf Hvsuf ltac:(lia)) as [Hsmall Hprint].
    rewrite Hsmall.
    eexists; split; [reflexivity|].
    rewrite BufferToStream_app, Hl, Hprint, Hsplit at 1.
    rewrite <- app_assoc; do 3 f_equal.
    unfold size in *; lia.
Qed.

Lemma StreamToBuffer_invalid (W : Z) (s0 : Stream) :
  1 <= W <= 64 -> size s0 <= INT_MAX -> valid_stream s0 = false ->
  StreamToBuffer W s0 = None.
Proof.
  intros HW Hmax Hinvalid.
  rewrite StreamToBuffer_groups by assumption; cbv zeta.
  assert (Hsz : 0 <= size s0) by (unfold size; lia).
  pose proof (Z.div_mod (size s0) W ltac:(lia)) as Hdm.
  pose proof (Z.mod_pos_bound (size s0) W ltac:(lia)) as Hmod.
  assert (Hq : 0 <= size s0 / W) by (apply Z.div_pos; lia).
  set (k := Z.to_nat (size s0 / W)).
  set (full := (k * Z.to_nat W)%nat).
  assert (Hfull : Z.of_nat full = W * (size s0 / W)) by (unfold full, k; nia).
  set (s := firstn full s0) in *; set (suf := skipn full s0) in *.
  assert (Hsplit : s0 = s ++ suf) by (symmetry; apply firstn_skipn).
  assert (Hslen : length s = (k * Z.to_nat W)%nat).
  { unfold s; rewrite length_firstn; unfold size in *; fold full; lia. }
  rewrite Hsplit, valid_stream_app in Hinvalid.
  destruct (valid_stream s) eqn:Hvs.
  - destruct (stream_words_valid W k s ltac:(lia) Hslen Hvs) as [l [El _]].
    rewrite El; cbn [bind andb] in *.
    destruct (Z.eqb_spec (size suf) 0) as [Hempty|Hsome]; cbn [negb].
    + destruct suf; [discriminate Hinvalid | discriminate Hempty].
    + rewrite bitset_parse_rev, Hinvalid; reflexivity.
  - rewrite stream_words_invalid by assumption; reflexivity.
Qed.

(** X13: [StreamToBuffer] followed by [BufferToStream] pads: for a type of
    8, 16, 32 or 64 bits and a stream of '0' and '1' whose length fits [int],
    [StreamToBuffer] returns a buffer of [ceil(length / W)] words whose
    [BufferToStream] is the stream padded with '0' to a multiple of the word
    size, [PadToWord<W>] of the stream; a stream whose length is a multiple of
    the word size comes back as it is. *)
Theorem BufferToStream_StreamToBuffer (W : Z) (s : Stream) :
  In W [8; 16; 32; 64] -> size s <= INT_MAX -> valid_stream s = true ->
  exists b,
    StreamToBuffer W s = Some b
    /\ BufferToStream W b = PadToWord W s
    /\ Z.of_nat (length b) = ceil_div (size s) W
    /\ (size s mod W = 0 -> BufferToStream W b = s).
Proof.
  intros HinW Hmax Hvalid.
  assert (HW : 1 <= W <= 64) by (simpl in HinW; lia).
  destruct (StreamToBuffer_valid W s HW Hmax Hvalid) as [b [E Hb]].
  exists b; split; [exact E|]; split; [exact Hb|]; split.
  - pose proof (BufferToStream_size W b ltac:(lia)) as Hsize.
    rewrite Hb, PadToWord_size in Hsize by lia.
    nia.
  - intros Hmod; rewrite Hb; apply PadToWord_multiple; exact Hmod.
Qed.

Lemma BufferToStream_StreamToBuffer_witness :
  exists b,
    StreamToBuffer 8 (stream_of_string "1100000011") = Some b
    /\ BufferToStream 8 b = stream_of_string "1100000011000000".
Proof.
  destruct (BufferToStream_StreamToBuffer 8 (stream_of_string "1100000011"))
    as [b [E [Hb _]]];
    [simpl; tauto | vm_compute; discriminate | reflexivity |].
  exists b; split; [exact E | exact Hb].
Defined.

(** X14: for a type of 8, 16, 32 or 64 bits and a stream whose length fits
    [int], [StreamToBuffer] throws ([std::invalid_argument] of
    [std::bitset]) exactly when the stream has a character other than '0'
    and '1', wherever that character is. *)
Theorem StreamToBuffer_throws (W : Z) (s : Stream) :
  In W [8; 16; 32; 64] -> size s <= INT_MAX ->
  (StreamToBuffer W s = None <-> valid_stream s = false).
Proof.
  intros HinW Hmax.
  assert (HW : 1 <= W <= 64) by (simpl in HinW; lia).
  split.
  - intros Hnone; destruct (valid_stream s) eqn:Hvalid; [|reflexivity].
    destruct (StreamToBuffer_valid W s HW Hmax Hvalid) as [b [E _]]; congruence.
  - apply StreamToBuffer_invalid; assumption.
Qed.

Lemma StreamToBuffer_throws_witness :
  StreamToBuffer 8 (stream_of_string "110000001x") = None.
Proof.
  refine (proj2 (StreamToBuffer_throws 8 (stream_of_string "110000001x") _ _) _);
    [simpl; tauto | vm_compute; discriminate | reflexivity].
Defined.

(** ** GetStreamPadded64 *)

Lemma BufferToStream_64_buffer_bits (b : list Z) :
  BufferToStream 64 b = map bit_char (buffer_bits b).
Proof.
  rewrite BufferToStream_bits by lia; unfold buffer_bits.
  induction b as [|x b IH]; [reflexivity|].
  cbn [flat_map]; rewrite map_app, IH; reflexivity.
Qed.

(** The bits of the buffer of a writer are the bits written, then zeroes up
    to the end of the last word. *)
Lemma buffer_bits_written (w : BitWriterWord64.t) :
  BitWriterWord64.valid w ->
  buffer_bits (BitWriterWord64.buffer_ w)
  = BitWriterWord64.written w
    ++ repeat false (Z.to_nat (64 * ceil_div (BitWriterWord64.end_ w) 64
                               - BitWriterWord64.end_ w)).
Proof.
  intros [[Hend Hlen] Hzero].
  pose proof (ceil_div_spec (BitWriterWord64.end_ w) 64 ltac:(lia)) as Hc.
  unfold BitWriterWord64.written.
  rewrite <- (firstn_skipn (Z.to_nat (BitWriterWord64.end_ w))
                (buffer_bits (BitWriterWord64.buffer_ w))) at 1.
  f_equal.
  apply (nth_ext _ _ false false).
  - rewrite length_skipn, buffer_bits_length, repeat_length; lia.
  - intros n Hn.
    rewrite nth_skipn, buffer_bits_nth, nth_repeat.
    apply Hzero; lia.
Qed.

(** X15: for a writer in which the bits after the last one written are
    zero, as they are after any sequence of writes, [GetStreamPadded64]
    returns the bits written, first written first, as '0' and '1', followed by
    '0' up to the next multiple of 64: [PadToWord<64>] of the stream
    written. *)
Theorem GetStreamPadded64_pads (w : BitWriterWord64.t) :
  BitWriterWord64.valid w ->
  BitWriterWord64.GetStreamPadded64 w
  = PadToWord 64 (map bit_char (BitWriterWord64.written w)).
Proof.
  intros Hvalid.
  pose proof Hvalid as [[Hend Hlen] _].
  pose proof (ceil_div_spec (BitWriterWord64.end_ w) 64 ltac:(lia)) as Hc.
  pose proof (Z.mod_pos_bound (BitWriterWord64.end_ w) 64 ltac:(lia)) as Hmod.
  pose proof (Z.div_mod (BitWriterWord64.end_ w) 64 ltac:(lia)) as Hdm.
  unfold BitWriterWord64.GetStreamPadded64.
  rewrite BufferToStream_64_buffer_bits, buffer_bits_written by exact Hvalid.
  assert (Hsize : size (map bit_char (BitWriterWord64.written w))
                  = BitWriterWord64.end_ w).
  { unfold size; rewrite length_map, BitWriterWord64Contract.written_length
      by (split; assumption); lia. }
  unfold PadToWord; rewrite Hsize, map_app, map_repeat.
  set (e := BitWriterWord64.end_ w) in *; set (c := ceil_div e 64) in *.
  destruct (Z.eqb_spec (e mod 64) 0) as [E|E]; cbn [negb].
  - replace (64 * c - e) with 0 by lia.
    cbn [Z.to_nat repeat]; apply app_nil_r.
  - replace (64 * c - e) with (64 - e mod 64) by lia.
    reflexivity.
Qed.

Lemma GetStreamPadded64_pads_witness :
  BitWriterWord64.GetStreamPadded64
    (BitWriterWord64.WriteBits BitWriterWord64.empty 5 3)
  = PadToWord 64 (stream_of_string "101").
Proof.
  apply (GetStreamPadded64_pads (BitWriterWord64.WriteBits BitWriterWord64.empty 5 3)).
  apply BitWriterWord64Contract.reachable_valid.
  apply BitWriterWord64.reachable_write; [apply BitWriterWord64.reachable_empty | lia].
Defined.
